(** * Day Planner: time parsing, validation, task ordering, persistence

  A shallow embedding of the core of the Day Planner application
  (utils/timeUtils.ts, utils/validationUtils.ts, utils/taskUtils.ts,
  hooks/useLocalStorage.ts, hooks/useTasks.ts, hooks/useToast.ts) together
  with the properties its specification states about it and further
  properties read off the sources.

  Conventions of the embedding.
  - A JavaScript string is a [string]; its characters are read as code
    units below 256.  Every string the functions below inspect
    character by character (digits, colon, white space, the letters of
    AM and PM) lies in that range.
  - A JavaScript number that holds an integer is a [Z].
  - An object with optional fields is a record with [option] fields.
  - A function that throws returns its error.
  - A call on a hook returns what the hook shows at the render that
    follows the call; the renders an effect causes after it are listed
    separately. *)

From Stdlib Require Import String Ascii List ZArith Lia Bool Arith.
From Stdlib Require Import Sorted Permutation DecimalString.
Import ListNotations.

Open Scope string_scope.
Open Scope Z_scope.

(** ** JavaScript string primitives used by the sources *)

Module JsString.

(** The double quote character, for messages that quote a value. *)
Definition dquote : ascii := ascii_of_nat 34.

Definition quoted (s : string) : string :=
  String dquote (s ++ String dquote "").

(** White space in the sense of [String.prototype.trim] and of the
    regular expression class [\s], restricted to code units below 256:
    TAB, LF, VT, FF, CR, SPACE and NO-BREAK SPACE. *)
Definition isWhiteSpace (c : ascii) : bool :=
  let n := nat_of_ascii c in
  ((9 <=? n) && (n <=? 13) || (n =? 32) || (n =? 160))%nat.

(** The regular expression class [\d]. *)
Definition isDigit (c : ascii) : bool :=
  let n := nat_of_ascii c in ((48 <=? n) && (n <=? 57))%nat.

Definition digitValue (c : ascii) : Z := Z.of_nat (nat_of_ascii c) - 48.

Definition isEmpty (s : string) : bool :=
  match s with EmptyString => true | _ => false end.

Fixpoint trimStart (s : string) : string :=
  match s with
  | String c r => if isWhiteSpace c then trimStart r else s
  | EmptyString => EmptyString
  end.

Fixpoint trimEnd (s : string) : string :=
  match s with
  | String c r =>
      let r' := trimEnd r in
      if isWhiteSpace c && isEmpty r' then EmptyString else String c r'
  | EmptyString => EmptyString
  end.

(** [String.prototype.trim] *)
Definition trim (s : string) : string := trimEnd (trimStart s).

(** [String.prototype.toUpperCase] on the letters a to z; every other
    character the sources pass to it is already upper case. *)
Definition upperChar (c : ascii) : ascii :=
  let n := nat_of_ascii c in
  if ((97 <=? n) && (n <=? 122))%nat then ascii_of_nat (n - 32) else c.

Fixpoint toUpperCase (s : string) : string :=
  match s with
  | String c r => String (upperChar c) (toUpperCase r)
  | EmptyString => EmptyString
  end.

(** [parseInt(s, 10)] on a string of decimal digits: the digits read up
    to the first character that is not one.  The sources apply it to
    captured groups of one or two digits only. *)
Fixpoint parseIntFrom (acc : Z) (s : string) : Z :=
  match s with
  | String c r => if isDigit c then parseIntFrom (10 * acc + digitValue c) r else acc
  | EmptyString => acc
  end.

Definition parseInt (s : string) : Z := parseIntFrom 0 s.

(** [Number.prototype.toString] on an integer. *)
Definition toString (n : Z) : string :=
  NilZero.string_of_int (Z.to_int n).

Fixpoint repeatChar (c : ascii) (n : nat) : string :=
  match n with
  | O => EmptyString
  | S k => String c (repeatChar c k)
  end.

(** [String.prototype.padStart] with a one-character filler. *)
Definition padStart (s : string) (targetLength : nat) (c : ascii) : string :=
  repeatChar c (targetLength - String.length s) ++ s.

(** [String.prototype.includes] *)
Fixpoint includes (s sub : string) : bool :=
  prefix sub s ||
  match s with
  | String _ r => includes r sub
  | EmptyString => false
  end.

(** [String.prototype.split] with a one-character separator. *)
Fixpoint split (sep : ascii) (s : string) : list string :=
  match s with
  | EmptyString => [EmptyString]
  | String c r =>
      if Ascii.eqb c sep then EmptyString :: split sep r
      else match split sep r with
           | piece :: pieces => String c piece :: pieces
           | [] => [String c EmptyString]
           end
  end.

(** [Array.prototype.join] *)
Fixpoint join (sep : string) (l : list string) : string :=
  match l with
  | [] => EmptyString
  | [s] => s
  | s :: rest => s ++ sep ++ join sep rest
  end.

(** Comparison of code units from the left, a proper prefix first: the
    lexicographic comparison of strings (the order of the operators [<]
    and [>] on strings). *)
Fixpoint compareCodeUnits (a b : string) : comparison :=
  match a, b with
  | EmptyString, EmptyString => Eq
  | EmptyString, String _ _ => Lt
  | String _ _, EmptyString => Gt
  | String c a', String d b' =>
      match Nat.compare (nat_of_ascii c) (nat_of_ascii d) with
      | Eq => compareCodeUnits a' b'
      | o => o
      end
  end.

(** [String.prototype.localeCompare] without a locale argument is
    collation, not comparison of code units.  It is modelled on ASCII by
    the root collation order that engines built on ICU apply: white space
    first, then punctuation (the colon among it), symbols, the dollar sign,
    the digits and the letters; a letter and its capital differ at the last
    level only, where the small letter comes first; control characters are
    ignored.  So a colon sorts before every digit, where its code unit
    comes after theirs.  Code units above 127 are outside the model: they
    are ranked behind the letters in the order of their code units. *)

(** The ASCII characters that are not letters, in collation order: TAB, LF,
    VT, FF, CR, space, then the punctuation from the low line to the
    percent sign, the symbols from the grave accent to the tilde, the
    dollar sign, and the digits. *)
Definition collationOrder : list nat :=
  [9; 10; 11; 12; 13; 32;
   95; 45; 44; 59; 58; 33; 63; 46; 39; 34; 40; 41; 91; 93; 123; 125;
   64; 42; 47; 92; 38; 35; 37;
   96; 94; 43; 60; 61; 62; 124; 126;
   36;
   48; 49; 50; 51; 52; 53; 54; 55; 56; 57]%nat.

Fixpoint rankIn (l : list nat) (n : nat) (rank : nat) : option nat :=
  match l with
  | [] => None
  | m :: rest => if (m =? n)%nat then Some rank else rankIn rest n (S rank)
  end.

(** The primary weight of a character; 0 for an ignored one. *)
Definition primaryWeight (c : ascii) : nat :=
  let n := nat_of_ascii c in
  if ((97 <=? n) && (n <=? 122))%nat then (100 + (n - 97))%nat
  else if ((65 <=? n) && (n <=? 90))%nat then (100 + (n - 65))%nat
  else
    match rankIn collationOrder n 1 with
    | Some rank => rank
    | None => if (n <? 128)%nat then 0%nat else (200 + n)%nat
    end.

(** The weight of the last level: 2 for a capital letter, 1 otherwise. *)
Definition caseWeight (c : ascii) : nat :=
  let n := nat_of_ascii c in
  if ((65 <=? n) && (n <=? 90))%nat then 2%nat else 1%nat.

Fixpoint primaryKey (s : string) : list nat :=
  match s with
  | String c r =>
      if (primaryWeight c =? 0)%nat then primaryKey r
      else primaryWeight c :: primaryKey r
  | EmptyString => []
  end.

Fixpoint caseKey (s : string) : list nat :=
  match s with
  | String c r =>
      if (primaryWeight c =? 0)%nat then caseKey r
      else caseWeight c :: caseKey r
  | EmptyString => []
  end.

(** The sort key of a string: its primary weights, a separator below every
    weight, its weights of the last level. *)
Definition sortKey (s : string) : list nat :=
  (primaryKey s ++ 0%nat :: caseKey s)%list.

(** Sort keys are compared weight by weight from the left. *)
Fixpoint compareWeights (a b : list nat) : comparison :=
  match a, b with
  | [], [] => Eq
  | [], _ :: _ => Lt
  | _ :: _, [] => Gt
  | x :: a', y :: b' =>
      match Nat.compare x y with
      | Eq => compareWeights a' b'
      | o => o
      end
  end.

Definition collate (a b : string) : comparison :=
  compareWeights (sortKey a) (sortKey b).

(** [a.localeCompare(b)], as -1, 0 or 1. *)
Definition localeCompare (a b : string) : Z :=
  match collate a b with
  | Lt => -1
  | Eq => 0
  | Gt => 1
  end.

End JsString.

(** ** JavaScript object primitives used by the sources *)

Module JsObject.

(** An object made by an object literal and used as a map from strings:
    its own properties, in the order they were created.  The sources read
    and write such objects by key only. *)
Definition Obj (A : Type) : Type := list (string * A).

Fixpoint ownProperty {A : Type} (o : Obj A) (k : string) : option A :=
  match o with
  | [] => None
  | (k', v) :: rest => if (k' =? k)%string then Some v else ownProperty rest k
  end.

(** The properties every such object inherits from [Object.prototype]; each
    holds a function or an object, hence a truthy value. *)
Definition prototypeNames : list string :=
  [ "constructor"; "hasOwnProperty"; "isPrototypeOf"; "propertyIsEnumerable";
    "toLocaleString"; "toString"; "valueOf";
    "__defineGetter__"; "__defineSetter__"; "__lookupGetter__";
    "__lookupSetter__"; "__proto__" ].

Definition inherited (k : string) : bool :=
  existsb (String.eqb k) prototypeNames.

(** What the read [o[k]] finds. *)
Inductive Read (A : Type) : Type :=
| Own (v : A)
| FromPrototype
| NoProperty.

Arguments Own {A} v.
Arguments FromPrototype {A}.
Arguments NoProperty {A}.

Definition getProp {A : Type} (o : Obj A) (k : string) : Read A :=
  match ownProperty o k with
  | Some v => Own v
  | None => if inherited k then FromPrototype else NoProperty
  end.

(** The assignment [o[k] = v], for a key that is not inherited. *)
Fixpoint setProp {A : Type} (o : Obj A) (k : string) (v : A) : Obj A :=
  match o with
  | [] => [(k, v)]
  | (k', v') :: rest =>
      if (k' =? k)%string then (k, v) :: rest else (k', v') :: setProp rest k v
  end.

End JsObject.


(** ** utils/timeUtils.ts *)

Module TimeUtils.
Import JsString.

Record TimeParseResult : Type := mkTimeParseResult {
  success : bool;
  time : option string;   (* normalized 24-hour format HH:MM *)
  error : option string
}.

Definition failure (message : string) : TimeParseResult :=
  {| success := false; time := None; error := Some message |}.

Definition parsed (t : string) : TimeParseResult :=
  {| success := true; time := Some t; error := None |}.

(** The prefix [^(\d{1,2}):] shared by both patterns: the captured hour and
    what follows the colon.  The quantifier is greedy, and the two lengths
    exclude each other (after two digits and a colon the second character
    is a digit, not a colon), so first-match order is the whole of the
    backtracking. *)
Definition matchHourColon (s : string) : option (string * string) :=
  match s with
  | String h1 (String h2 (String c r)) =>
      if isDigit h1 && isDigit h2 && Ascii.eqb c ":" then
        Some (String h1 (String h2 ""), r)
      else if isDigit h1 && Ascii.eqb h2 ":" then
        Some (String h1 "", String c r)
      else None
  | String h1 (String h2 r) =>
      if isDigit h1 && Ascii.eqb h2 ":" then Some (String h1 "", r) else None
  | _ => None
  end.

(** The group [(\d{2})]: the captured minute and what follows it. *)
Definition matchMinute (s : string) : option (string * string) :=
  match s with
  | String m1 (String m2 r) =>
      if isDigit m1 && isDigit m2 then Some (String m1 (String m2 ""), r)
      else None
  | _ => None
  end.

(** The suffix [(AM|PM)$] under the flag [i]. *)
Definition matchPeriod (s : string) : option string :=
  match s with
  | String p (String m "") =>
      if (Ascii.eqb (upperChar p) "A" || Ascii.eqb (upperChar p) "P")
         && Ascii.eqb (upperChar m) "M"
      then Some s else None
  | _ => None
  end.

(** [trimmedInput.match(/^(\d{1,2}):(\d{2})\s*(AM|PM)$/i)]: the three
    captured groups.  No white space character starts a period, so the
    greedy [\s*] never gives a character back. *)
Definition matchAmPm (s : string) : option (string * string * string) :=
  match matchHourColon s with
  | Some (hourStr, afterColon) =>
      match matchMinute afterColon with
      | Some (minuteStr, afterMinute) =>
          match matchPeriod (trimStart afterMinute) with
          | Some period => Some (hourStr, minuteStr, period)
          | None => None
          end
      | None => None
      end
  | None => None
  end.

(** [trimmedInput.match(/^(\d{1,2}):(\d{2})$/)]: the two captured groups. *)
Definition matchTwentyFourHour (s : string) : option (string * string) :=
  match matchHourColon s with
  | Some (hourStr, afterColon) =>
      match matchMinute afterColon with
      | Some (minuteStr, "") => Some (hourStr, minuteStr)
      | _ => None
      end
  | None => None
  end.

(** The template [`${hour.toString().padStart(2, '0')}:${minute.toString().padStart(2, '0')}`] *)
Definition formatHourMinute (hour minute : Z) : string :=
  padStart (toString hour) 2 "0" ++ ":" ++ padStart (toString minute) 2 "0".

Definition invalidFormatMessage : string :=
  "Invalid time format. Use formats like " ++ quoted "9:30" ++ ", "
  ++ quoted "09:30" ++ ", " ++ quoted "9:30 AM" ++ ", or " ++ quoted "21:30".

(** Parses various time input formats and normalizes to 24-hour format. *)
Definition parseTime (input : string) : TimeParseResult :=
  if isEmpty input then failure "Time is required" else
  let trimmedInput := trim input in
  if (trimmedInput =? "")%string then failure "Time is required" else
  (* AM/PM format, with optional space *)
  match matchAmPm trimmedInput with
  | Some (hourStr, minuteStr, period) =>
      let hour := parseInt hourStr in
      let minute := parseInt minuteStr in
      if (hour <? 1) || (hour >? 12) then
        failure "Hour must be between 1 and 12 for AM/PM format"
      else if (minute <? 0) || (minute >? 59) then
        failure "Minutes must be between 00 and 59"
      else
        let hour :=
          if (toUpperCase period =? "PM")%string && negb (hour =? 12) then hour + 12
          else if (toUpperCase period =? "AM")%string && (hour =? 12) then 0
          else hour in
        parsed (formatHourMinute hour minute)
  | None =>
      (* 24-hour format *)
      match matchTwentyFourHour trimmedInput with
      | Some (hourStr, minuteStr) =>
          let hour := parseInt hourStr in
          let minute := parseInt minuteStr in
          if (hour <? 0) || (hour >? 23) then
            failure "Hour must be between 00 and 23 for 24-hour format"
          else if (minute <? 0) || (minute >? 59) then
            failure "Minutes must be between 00 and 59"
          else parsed (formatHourMinute hour minute)
      | None => failure invalidFormatMessage
      end
  end.

(** Validates if a time string is in the normalized format HH:MM. *)
Definition isValidTimeFormat (t : string) : bool :=
  if isEmpty t then false else
  let result := parseTime t in
  success result &&
  match time result with
  | Some t' => (t' =? t)%string
  | None => false
  end.

(** Formats a 24-hour time string to the 12-hour display format. *)
Definition formatTimeForDisplay (t : string) : string :=
  if negb (isValidTimeFormat t) then t else
  let pieces := split ":" t in
  let hourStr := nth 0 pieces "" in
  let minuteStr := nth 1 pieces "" in
  let hour := parseInt hourStr in
  let minute := parseInt minuteStr in
  let period := if hour >=? 12 then "PM" else "AM" in
  let displayHour :=
    if hour =? 0 then 12 else if hour >? 12 then hour - 12 else hour in
  toString displayHour ++ ":" ++ padStart (toString minute) 2 "0" ++ " " ++ period.

End TimeUtils.

(** ** types/index.ts *)

Module Types.

Inductive Priority : Type := low | medium | high.

Record Task : Type := mkTask {
  id : string;
  time : string;              (* format HH:MM, 24-hour *)
  title : string;
  priority : option Priority;
  createdAt : Z               (* timestamp for tiebreaking *)
}.

(** A value as a form hands it over at run time.  The declared type of the
    fields of [TaskFormData] is erased, and the validator tests for the
    values the type excludes, so they are part of its input.  [JsOther]
    stands for every value that is neither undefined, null nor a string. *)
Inductive JsValue : Type :=
| JsUndefined
| JsNull
| JsStr (s : string)
| JsOther.

Record TaskFormData : Type := mkTaskFormData {
  formTime : JsValue;
  formTitle : JsValue;
  formPriority : JsValue
}.

Record ValidationError : Type := mkValidationError {
  field : string;
  message : string
}.

End Types.

(** ** utils/validationUtils.ts *)

Module ValidationUtils.
Import JsString Types.

(** Validates the time field. *)
Definition validateTimeField (t : JsValue) : list ValidationError :=
  match t with
  | JsStr s =>
      if isEmpty s || (trim s =? "")%string then
        [ {| field := "time"; message := "Time is required" |} ]
      else
        let parseResult := TimeUtils.parseTime s in
        if negb (TimeUtils.success parseResult) then
          [ {| field := "time";
               message := match TimeUtils.error parseResult with
                          | Some e => if isEmpty e then "Invalid time format" else e
                          | None => "Invalid time format"
                          end |} ]
        else []
  | _ => [ {| field := "time"; message := "Time is required" |} ]
  end.

(** Validates the title field. *)
Definition validateTitleField (t : JsValue) : list ValidationError :=
  match t with
  | JsStr s =>
      let trimmedTitle := trim s in
      if (trimmedTitle =? "")%string then
        [ {| field := "title"; message := "Title cannot be empty" |} ]
      else
        (if (200 <? String.length trimmedTitle)%nat then
           [ {| field := "title"; message := "Title must be 200 characters or less" |} ]
         else [])
        ++
        (if (String.length trimmedTitle <? 1)%nat then
           [ {| field := "title"; message := "Title must be at least 1 character long" |} ]
         else [])
  | _ => [ {| field := "title"; message := "Title is required" |} ]
  end.

Definition validPriorities : list string := ["low"; "medium"; "high"].

(** Validates the priority field (optional). *)
Definition validatePriorityField (p : JsValue) : list ValidationError :=
  match p with
  | JsUndefined | JsNull => []
  | JsStr s =>
      if existsb (String.eqb s) validPriorities then []
      else [ {| field := "priority";
                message := "Priority must be one of: low, medium, high" |} ]
  | JsOther =>
      [ {| field := "priority";
           message := "Priority must be one of: low, medium, high" |} ]
  end.

(** Validates task form data and returns validation errors. *)
Definition validateTaskFormData (formData : TaskFormData) : list ValidationError :=
  validateTimeField (formTime formData)
  ++ validateTitleField (formTitle formData)
  ++ validatePriorityField (formPriority formData).

Definition isValidTaskFormData (formData : TaskFormData) : bool :=
  (List.length (validateTaskFormData formData) =? 0)%nat.

Definition trimmedOrEmpty (v : JsValue) : string :=
  match v with
  | JsStr s => trim s
  | _ => ""
  end.

(** Sanitizes task form data by trimming strings and normalizing the time. *)
Definition sanitizeTaskFormData (formData : TaskFormData) : TaskFormData :=
  let sanitizedTime := trimmedOrEmpty (formTime formData) in
  let sanitizedTitle := trimmedOrEmpty (formTitle formData) in
  let timeParseResult := TimeUtils.parseTime sanitizedTime in
  let normalizedTime :=
    match TimeUtils.time timeParseResult with
    | Some t =>
        if TimeUtils.success timeParseResult && negb (isEmpty t) then t
        else sanitizedTime
    | None => sanitizedTime
    end in
  {| formTime := JsStr normalizedTime;
     formTitle := JsStr sanitizedTitle;
     formPriority := formPriority formData |}.

Record ValidationResult : Type := mkValidationResult {
  sanitizedData : TaskFormData;
  errors : list ValidationError;
  isValid : bool
}.

(** Validates and sanitizes task form data in one step. *)
Definition validateAndSanitizeTaskFormData (formData : TaskFormData) : ValidationResult :=
  let sanitized := sanitizeTaskFormData formData in
  let errs := validateTaskFormData sanitized in
  {| sanitizedData := sanitized;
     errors := errs;
     isValid := (List.length errs =? 0)%nat |}.

(** Gets the error message to display for a field: that of the first error
    of the field. *)
Definition getErrorMessage (errs : list ValidationError) (f : string) : option string :=
  match find (fun e => (field e =? f)%string) errs with
  | Some fieldError => Some (message fieldError)
  | None => None
  end.

(** One round of the reduction of [getErrorsByField]; [None] stands for the
    TypeError thrown when [grouped[error.field]] is an inherited property,
    which has no [push]. *)
Definition groupError (grouped : option (JsObject.Obj (list string)))
  (e : ValidationError) : option (JsObject.Obj (list string)) :=
  match grouped with
  | None => None
  | Some grouped =>
      let grouped :=
        match JsObject.getProp grouped (field e) with
        | JsObject.NoProperty => JsObject.setProp grouped (field e) []
        | _ => grouped
        end in
      match JsObject.getProp grouped (field e) with
      | JsObject.Own messages =>
          Some (JsObject.setProp grouped (field e) (messages ++ [message e])%list)
      | _ => None
      end
  end.

(** Gets all error messages grouped by field. *)
Definition getErrorsByField (errs : list ValidationError)
  : option (JsObject.Obj (list string)) :=
  fold_left groupError errs (Some []).

(** Checks if there are any errors for a specific field. *)
Definition hasFieldError (errs : list ValidationError) (f : string) : bool :=
  existsb (fun e => (field e =? f)%string) errs.


End ValidationUtils.

(** ** JavaScript array primitives used by the sources *)

Module JsArray.

Section Sort.
Context {A : Type}.
Variable comparefn : A -> A -> Z.

(** Places [x] in front of the first element it does not come after; [x]
    stood before all of [sorted] in the array being sorted, so among equals
    it stays first. *)
Fixpoint insertSorted (x : A) (sorted : list A) : list A :=
  match sorted with
  | [] => [x]
  | y :: rest =>
      if comparefn x y <=? 0 then x :: sorted
      else y :: insertSorted x rest
  end.

(** [Array.prototype.sort(comparefn)] on a copy of the array.  The language
    fixes the result for a consistent comparator: the elements in
    ascending order, equal elements in their original order (the sort is
    stable).  Insertion from the right computes that arrangement. *)
Fixpoint sort (l : list A) : list A :=
  match l with
  | [] => []
  | x :: rest => insertSorted x (sort rest)
  end.

End Sort.

Section Search.
Context {A : Type}.
Variable p : A -> bool.

(** [Array.prototype.findIndex]; [None] stands for the result -1. *)
Fixpoint findIndex (l : list A) : option nat :=
  match l with
  | [] => None
  | x :: rest =>
      if p x then Some O
      else match findIndex rest with
           | Some i => Some (S i)
           | None => None
           end
  end.

End Search.

(** The assignment [a[i] = x] at an index inside the array. *)
Fixpoint assignAt {A : Type} (l : list A) (i : nat) (x : A) : list A :=
  match l, i with
  | [], _ => []
  | _ :: rest, O => x :: rest
  | y :: rest, S k => y :: assignAt rest k x
  end.

End JsArray.

(** ** utils/taskUtils.ts *)

Module TaskUtils.
Import JsString Types.

(** Priority order mapping for sorting (higher number = higher priority). *)
Definition PRIORITY_ORDER (p : Priority) : Z :=
  match p with
  | high => 3
  | medium => 2
  | low => 1
  end.

(** [task.priority || 'low'] *)
Definition priorityOrLow (t : Task) : Priority :=
  match priority t with
  | Some p => p
  | None => low
  end.

(** The comparator handed to the sort. *)
Definition compareTasks (a b : Task) : Z :=
  (* primary: by time *)
  let timeComparison := localeCompare (time a) (time b) in
  if negb (timeComparison =? 0) then timeComparison
  else
    (* secondary: by priority, high first *)
    let aPriority := PRIORITY_ORDER (priorityOrLow a) in
    let bPriority := PRIORITY_ORDER (priorityOrLow b) in
    if negb (aPriority =? bPriority) then bPriority - aPriority
    else
      (* tertiary: by creation time *)
      createdAt a - createdAt b.

(** Sorts tasks by time, then priority, then creation order. *)
Definition sortTasks (tasks : list Task) : list Task :=
  JsArray.sort compareTasks tasks.

(** Finds tasks that have the same time as the given one. *)
Definition findTasksWithSameTime (tasks : list Task) (targetTime : string) : list Task :=
  filter (fun task => (time task =? targetTime)%string) tasks.

(** One round of the loop of [isTaskListSorted]: whether [prev] and [curr],
    neighbours in the list, make it return false. *)
Definition outOfOrder (prev curr : Task) : bool :=
  let timeComparison := localeCompare (time prev) (time curr) in
  if timeComparison >? 0 then true
  else if timeComparison =? 0 then
    let prevPriority := PRIORITY_ORDER (priorityOrLow prev) in
    let currPriority := PRIORITY_ORDER (priorityOrLow curr) in
    if prevPriority <? currPriority then true
    else if (prevPriority =? currPriority) && (createdAt prev >? createdAt curr) then true
    else false
  else false.

(** Checks if a task list is sorted according to the sorting rules. *)
Fixpoint isTaskListSorted (tasks : list Task) : bool :=
  match tasks with
  | prev :: (curr :: _) as rest =>
      if outOfOrder prev curr then false else isTaskListSorted rest
  | _ => true
  end.

(** One round of the reduction of [groupTasksByTime]; [None] stands for the
    TypeError thrown when [groups[time]] is an inherited property, which has
    no [push]. *)
Definition groupTask (groups : option (JsObject.Obj (list Task))) (task : Task)
  : option (JsObject.Obj (list Task)) :=
  match groups with
  | None => None
  | Some groups =>
      let t := time task in
      let groups :=
        match JsObject.getProp groups t with
        | JsObject.NoProperty => JsObject.setProp groups t []
        | _ => groups
        end in
      match JsObject.getProp groups t with
      | JsObject.Own group => Some (JsObject.setProp groups t (group ++ [task])%list)
      | _ => None
      end
  end.

(** Groups tasks by time. *)
Definition groupTasksByTime (tasks : list Task) : option (JsObject.Obj (list Task)) :=
  fold_left groupTask tasks (Some []).


End TaskUtils.

(** ** hooks/useLocalStorage.ts *)

Module LocalStorage.
Import JsString.

(** What a call into the store may throw: an instance of [Error], with its
    name and message, or any other value. *)
Inductive Thrown : Type :=
| ErrorObject (name message : string)
| NotAnError.

(** [window.localStorage]: the items it holds and, for each call, the
    value it throws instead of returning, if any (quota, denied access, a
    test double). *)
Record Storage : Type := mkStorage {
  items : string -> option string;
  getItemFault : string -> option Thrown;
  setItemFault : string -> string -> option Thrown;
  removeItemFault : string -> option Thrown
}.

Definition withItems (s : Storage) (f : string -> option string) : Storage :=
  {| items := f;
     getItemFault := getItemFault s;
     setItemFault := setItemFault s;
     removeItemFault := removeItemFault s |}.

Definition getItem (s : Storage) (key : string) : Thrown + option string :=
  match getItemFault s key with
  | Some e => inl e
  | None => inr (items s key)
  end.

Definition setItem (s : Storage) (key value : string) : Thrown + Storage :=
  match setItemFault s key value with
  | Some e => inl e
  | None =>
      inr (withItems s (fun k => if (k =? key)%string then Some value else items s k))
  end.

Definition removeItem (s : Storage) (key : string) : Thrown + Storage :=
  match removeItemFault s key with
  | Some e => inl e
  | None =>
      inr (withItems s (fun k => if (k =? key)%string then None else items s k))
  end.

(** The message reported for a value caught while saving. *)
Definition saveErrorMessage (err : Thrown) : string :=
  match err with
  | ErrorObject name message =>
      if (name =? "QuotaExceededError")%string || includes message "quota" then
        "Storage quota exceeded. Please clear some data."
      else if includes message "access" then
        "Unable to access localStorage. Data will not persist."
      else
        "Failed to save data to localStorage"
  | NotAnError => "Unknown error occurred while saving data"
  end.

Section Hook.
Variable T : Type.
(** [JSON.parse], [None] when it throws; [JSON.stringify], which throws on
    values without a JSON form. *)
Variable JSON_parse : string -> option T.
Variable JSON_stringify : T -> Thrown + string.
Variable key : string.
Variable initialValue : T.

(** The two pieces of state of the hook, and the store it talks to. *)
Record Hook : Type := mkHook {
  storedValue : T;
  error : option string;
  localStorage : Storage
}.

Definition mount (storage : Storage) : Hook :=
  {| storedValue := initialValue; error := None; localStorage := storage |}.

(** The handler of the loading effect: clear the corrupted item, fall back
    to the initial value. *)
Definition resetCorrupted (h : Hook) : Hook :=
  match removeItem (localStorage h) key with
  | inr storage' =>
      {| storedValue := initialValue;
         error := Some "Data was corrupted and has been reset";
         localStorage := storage' |}
  | inl _ =>
      {| storedValue := initialValue;
         error := Some "Unable to access localStorage";
         localStorage := localStorage h |}
  end.

(** The effect that loads the initial value from the store. *)
Definition loadEffect (h : Hook) : Hook :=
  match getItem (localStorage h) key with
  | inr (Some item) =>
      if negb (isEmpty item) then
        match JSON_parse item with
        | Some parsedValue =>
            {| storedValue := parsedValue; error := None;
               localStorage := localStorage h |}
        | None => resetCorrupted h
        end
      else h
  | inr None => h
  | inl _ => resetCorrupted h
  end.

(** The hook after its first render and effect. *)
Definition useLocalStorage (storage : Storage) : Hook :=
  loadEffect (mount storage).

(** The function that saves a value to the store, called with a value
    that is not a function: [setStoredValue] makes such a value the state,
    and calling it again in the handler changes nothing more.  The call
    with a function is [setValueWith] below. *)
Definition setValue (value : T) (h : Hook) : Hook :=
  let h1 := {| storedValue := value; error := error h;
               localStorage := localStorage h |} in
  let caught (err : Thrown) :=
    {| storedValue := value;
       error := Some (saveErrorMessage err);
       localStorage := localStorage h1 |} in
  match JSON_stringify value with
  | inr text =>
      match setItem (localStorage h1) key text with
      | inr storage' =>
          {| storedValue := value; error := None; localStorage := storage' |}
      | inl err => caught err
      end
  | inl err => caught err
  end.

(** What the hook shows at the render that follows a call: its state, or
    nothing when an updater threw during that render, which unmounts the
    hook; the store stays as the call left it. *)
Inductive Render (E : Type) : Type :=
| Shown (h : Hook)
| Unmounted (e : E) (storage : Storage).

(** [setValue] called with a function, as useTasks calls it.
    [setStoredValue] takes a function as an updater: React applies it to
    the previous value at the next render, and what it throws surfaces
    there.  [JSON.stringify] of a function is [undefined], which [setItem]
    stores as the text undefined.  When [setItem] throws, the handler calls
    [setStoredValue] with the function once more, so that the render
    applies it twice. *)
Definition setValueWith {E : Type} (updater : T -> E + T) (h : Hook) : Render E :=
  match setItem (localStorage h) key "undefined" with
  | inr storage' =>
      match updater (storedValue h) with
      | inr value =>
          Shown E {| storedValue := value; error := None; localStorage := storage' |}
      | inl e => Unmounted E e storage'
      end
  | inl err =>
      match updater (storedValue h) with
      | inr value =>
          match updater value with
          | inr value' =>
              Shown E {| storedValue := value';
                         error := Some (saveErrorMessage err);
                         localStorage := localStorage h |}
          | inl e => Unmounted E e (localStorage h)
          end
      | inl e => Unmounted E e (localStorage h)
      end
  end.

(** Whether a run of the loading effect sets the state.  The value it sets
    is a fresh object (the parsed item, or the initial value of the
    render), so React renders again whenever it does. *)
Definition loadSetsState (h : Hook) : bool :=
  match getItem (localStorage h) key with
  | inr (Some item) => negb (isEmpty item)
  | inr None => false
  | inl _ => true
  end.

(** The renders that follow a render of a caller that passes a fresh
    [initialValue] at each render, as useTasks does with its [[]]: the
    dependency of the loading effect has changed, so the effect runs again
    after every render, and each run that sets the state causes one more
    render.  At most [fuel] of them are listed. *)
Fixpoint rerenders (fuel : nat) (h : Hook) : list Hook :=
  match fuel with
  | O => []
  | S fuel' =>
      if loadSetsState h then loadEffect h :: rerenders fuel' (loadEffect h)
      else []
  end.

End Hook.

Arguments storedValue {T} _.
Arguments error {T} _.
Arguments localStorage {T} _.
Arguments Shown {T E} h.
Arguments Unmounted {T E} e storage.

End LocalStorage.

(** ** hooks/useTasks.ts *)

Module Tasks.
Import JsString Types ValidationUtils TaskUtils.

Definition STORAGE_KEY : string := "dayPlannerTasks".

(** The two errors the operations throw. *)
Inductive TaskError : Type :=
| ValidationFailed (errs : list ValidationError)
| TaskNotFound (taskId : string).

Definition errorText (e : TaskError) : string :=
  match e with
  | ValidationFailed errs =>
      "Validation failed: " ++ join ", " (map message errs)
  | TaskNotFound taskId =>
      "Task with ID " ++ quoted taskId ++ " not found"
  end.

(** [JSON.parse] and [JSON.stringify] on task collections, with the facts
    about them that the hook relies on: the text undefined is not JSON, and
    the empty collection is written as [[]] and read back from it. *)
Record Json : Type := mkJson {
  JSON_parse : string -> option (list Task);
  JSON_stringify : list Task -> LocalStorage.Thrown + string;
  parse_undefined : JSON_parse "undefined" = None;
  stringify_empty : JSON_stringify [] = inr "[]";
  parse_empty : JSON_parse "[]" = Some []
}.

(** The state of [useLocalStorage<Task[]>(STORAGE_KEY, [])]. *)
Definition TasksHook : Type := LocalStorage.Hook (list Task).

(** The outcome of an operation: it throws, and the hook is as [h]; or it
    returns, and the next render shows a state or unmounts the hook. *)
Inductive Outcome : Type :=
| Threw (e : TaskError) (h : TasksHook)
| Returned (r : LocalStorage.Render (list Task) TaskError).

(** What an operation hands to [setTasks]: a collection, or a function of
    the previous collection. *)
Inductive SetTasksArgument : Type :=
| Collection (tasks : list Task)
| Updater (updater : list Task -> TaskError + list Task).

(** The sanitized fields at the type [Task] declares for them. *)
Definition stringField (v : JsValue) : string :=
  match v with
  | JsStr s => s
  | _ => ""
  end.

Definition priorityField (v : JsValue) : option Priority :=
  match v with
  | JsStr "low" => Some low
  | JsStr "medium" => Some medium
  | JsStr "high" => Some high
  | _ => None
  end.

(** The task [addTask] creates.  [newId] is what [generateTaskId()]
    returns and [now] what [Date.now()] returns during the call. *)
Definition newTaskOf (sanitized : TaskFormData) (newId : string) (now : Z) : Task :=
  {| id := newId;
     time := stringField (formTime sanitized);
     title := stringField (formTitle sanitized);
     priority := priorityField (formPriority sanitized);
     createdAt := now |}.

(** The task [updateTask] puts in the place of [existingTask]. *)
Definition updatedTaskOf (existingTask : Task) (sanitized : TaskFormData) : Task :=
  {| id := id existingTask;
     time := stringField (formTime sanitized);
     title := stringField (formTitle sanitized);
     priority := priorityField (formPriority sanitized);
     createdAt := createdAt existingTask |}.

(** The function [addTask] hands to [setTasks]. *)
Definition addUpdater (newTask : Task) (prevTasks : list Task)
  : TaskError + list Task :=
  inr (sortTasks (prevTasks ++ [newTask])).

(** The function [updateTask] hands to [setTasks]. *)
Definition updateUpdater (taskId : string) (sanitized : TaskFormData)
  (prevTasks : list Task) : TaskError + list Task :=
  match JsArray.findIndex (fun task => (id task =? taskId)%string) prevTasks with
  | None => inl (TaskNotFound taskId)
  | Some taskIndex =>
      (* [prevTasks[taskIndex]]; the index found lies inside the array *)
      match nth_error prevTasks taskIndex with
      | Some existingTask =>
          inr (sortTasks (JsArray.assignAt prevTasks taskIndex
                            (updatedTaskOf existingTask sanitized)))
      | None => inl (TaskNotFound taskId)
      end
  end.

(** The function [deleteTask] hands to [setTasks]. *)
Definition deleteUpdater (taskId : string) (prevTasks : list Task)
  : TaskError + list Task :=
  if negb (existsb (fun task => (id task =? taskId)%string) prevTasks) then
    inl (TaskNotFound taskId)
  else
    inr (filter (fun task => negb (id task =? taskId)%string) prevTasks).

Section Hook.
Variable json : Json.

(** [setTasks] is the [setValue] of [useLocalStorage]. *)
Definition setTasks (argument : SetTasksArgument) (h : TasksHook) : Outcome :=
  match argument with
  | Collection tasks =>
      Returned (LocalStorage.Shown
        (LocalStorage.setValue (list Task) (JSON_stringify json) STORAGE_KEY tasks h))
  | Updater updater =>
      Returned (LocalStorage.setValueWith (list Task) STORAGE_KEY updater h)
  end.

(** Adds a new task to the list. *)
Definition addTask (taskData : TaskFormData) (newId : string) (now : Z)
  (h : TasksHook) : Outcome :=
  let validationResult := validateAndSanitizeTaskFormData taskData in
  if negb (isValid validationResult) then
    Threw (ValidationFailed (errors validationResult)) h
  else
    let sanitized := sanitizedData validationResult in
    let newTask := newTaskOf sanitized newId now in
    setTasks (Updater (addUpdater newTask)) h.

(** Updates an existing task. *)
Definition updateTask (taskId : string) (taskData : TaskFormData)
  (h : TasksHook) : Outcome :=
  let validationResult := validateAndSanitizeTaskFormData taskData in
  if negb (isValid validationResult) then
    Threw (ValidationFailed (errors validationResult)) h
  else
    let sanitized := sanitizedData validationResult in
    setTasks (Updater (updateUpdater taskId sanitized)) h.

(** Deletes a task by ID. *)
Definition deleteTask (taskId : string) (h : TasksHook) : Outcome :=
  setTasks (Updater (deleteUpdater taskId)) h.

(** Clears all tasks from the list. *)
Definition clearAllTasks (h : TasksHook) : Outcome :=
  setTasks (Collection []) h.

(** The renders the loading effect causes after a render: useTasks passes a
    fresh [[]] as initial value at every render. *)
Definition rerenders (fuel : nat) (h : TasksHook) : list TasksHook :=
  LocalStorage.rerenders (list Task) (JSON_parse json) STORAGE_KEY [] fuel h.

(** The states rendered from a call on: the render that follows the call
    and the renders the loading effect causes, at most [fuel] of those.
    A call that throws sets no state and causes no render. *)
Definition rendered (fuel : nat) (o : Outcome) : list TasksHook :=
  match o with
  | Returned (LocalStorage.Shown h) => h :: rerenders fuel h
  | Returned (LocalStorage.Unmounted _ _) => []
  | Threw _ _ => []
  end.

End Hook.

(** Query operations, on the collection the hook shows. *)
Definition getTaskById (tasks : list Task) (taskId : string) : option Task :=
  find (fun task => (id task =? taskId)%string) tasks.

Definition getTasksByTime (tasks : list Task) (t : string) : list Task :=
  filter (fun task => (time task =? t)%string) tasks.

Definition taskExists (tasks : list Task) (taskId : string) : bool :=
  existsb (fun task => (id task =? taskId)%string) tasks.

(** A single mutation of the repository, with what the environment
    supplies to it. *)
Inductive Mutation : Type :=
| AddTask (taskData : TaskFormData) (newId : string) (now : Z)
| UpdateTask (taskId : string) (taskData : TaskFormData)
| DeleteTask (taskId : string)
| ClearAllTasks.

Definition apply (json : Json) (m : Mutation) (h : TasksHook) : Outcome :=
  match m with
  | AddTask taskData newId now => addTask json taskData newId now h
  | UpdateTask taskId taskData => updateTask json taskId taskData h
  | DeleteTask taskId => deleteTask json taskId h
  | ClearAllTasks => clearAllTasks json h
  end.

End Tasks.

(** ** hooks/useToast.ts *)

Module Toast.
Import JsString.

Inductive ToastType : Type := success | error | warning | info.

(** A property of an options object: missing, present with the value
    undefined, or present with a value. *)
Inductive Optional (A : Type) : Type :=
| Absent
| Undefined
| Present (a : A).

Arguments Absent {A}.
Arguments Undefined {A}.
Arguments Present {A} a.

(** [options?.property] *)
Definition valueOf {A : Type} (o : Optional A) : option A :=
  match o with
  | Present a => Some a
  | _ => None
  end.

Section Handlers.
(** What a click on the action of a toast runs. *)
Variable Handler : Type.
(** The handler of the action of the quota toast: confirm, remove the
    stored tasks, reload. *)
Variable clearData : Handler.

Record ToastAction : Type := mkToastAction {
  label : string;
  onClick : Handler
}.

Record ToastMessage : Type := mkToastMessage {
  id : string;
  message : string;
  type : ToastType;
  duration : option Z;
  action : option ToastAction
}.

Record Options : Type := mkOptions {
  optDuration : Optional Z;
  optAction : Optional ToastAction
}.

(** Adds a new toast message; [newId] is what [generateToastId()] returns.
    The result is the id and the list of toasts after the call. *)
Definition addToast (msg : string) (ty : option ToastType) (options : option Options)
  (newId : string) (toasts : list ToastMessage) : string * list ToastMessage :=
  let toast :=
    {| id := newId;
       message := msg;
       type := match ty with Some t => t | None => info end;
       duration := match options with
                   | Some o => valueOf (optDuration o)
                   | None => None
                   end;
       action := match options with
                 | Some o => valueOf (optAction o)
                 | None => None
                 end |} in
  (newId, (toasts ++ [toast])%list).

(** The object [{ duration: d, ...options }]: a property of [options],
    even one holding undefined, replaces the default. *)
Definition withDefaultDuration (d : Z) (options : option Options) : Options :=
  match options with
  | None => {| optDuration := Present d; optAction := Absent |}
  | Some o =>
      {| optDuration := match optDuration o with
                        | Absent => Present d
                        | other => other
                        end;
         optAction := optAction o |}
  end.

Definition showSuccess (msg : string) (options : option Options) :=
  addToast msg (Some success) options.

Definition showError (msg : string) (options : option Options) :=
  addToast msg (Some error) (Some (withDefaultDuration 7000 options)).

Definition showWarning (msg : string) (options : option Options) :=
  addToast msg (Some warning) (Some (withDefaultDuration 6000 options)).

Definition showInfo (msg : string) (options : option Options) :=
  addToast msg (Some info) options.

(** Dismisses a specific toast by ID. *)
Definition dismissToast (toastId : string) (toasts : list ToastMessage)
  : list ToastMessage :=
  filter (fun toast => negb (id toast =? toastId)%string) toasts.

(** Dismisses all toasts. *)
Definition dismissAllToasts (toasts : list ToastMessage) : list ToastMessage := [].

(** Shows a toast for localStorage errors with helpful actions. *)
Definition showStorageError (err : string) :=
  if includes err "quota" then
    showError "Storage is full. Some data may not be saved."
      (Some {| optDuration := Present 10000;
               optAction := Present {| label := "Clear Data"; onClick := clearData |} |})
  else if includes err "corrupted" then
    showWarning "Your saved data was corrupted and has been reset."
      (Some {| optDuration := Present 8000; optAction := Absent |})
  else if includes err "access" then
    showWarning "Cannot access storage. Your tasks will not be saved."
      (Some {| optDuration := Present 8000; optAction := Absent |})
  else
    showError err (Some {| optDuration := Present 6000; optAction := Absent |}).

End Handlers.

Arguments label {Handler} _.
Arguments onClick {Handler} _.
Arguments id {Handler} _.
Arguments message {Handler} _.
Arguments type {Handler} _.
Arguments duration {Handler} _.
Arguments action {Handler} _.

End Toast.


(** ** The vocabulary of the specification

    These definitions follow the words of the specification, not the
    sources; the theorems below relate the two. *)

Module Spec.
Import Types.

Definition digitChar (d : Z) : ascii := ascii_of_nat (48 + Z.to_nat d).

(** A number below one hundred written with two digits, zero-padded. *)
Definition twoDigits (n : Z) : string :=
  String (digitChar (n / 10)) (String (digitChar (n mod 10)) "").

(** A number below one hundred written without a leading zero. *)
Definition plainDigits (n : Z) : string :=
  if n <? 10 then String (digitChar n) "" else twoDigits n.

(** The canonical time string HH:MM for hour [h] and minute [m]. *)
Definition canonicalTime (h m : Z) : string :=
  twoDigits h ++ ":" ++ twoDigits m.

(** The strings of the exact form HH:MM with 00 <= HH <= 23 and
    00 <= MM <= 59. *)
Definition isCanonicalTime (s : string) : Prop :=
  exists h m, 0 <= h <= 23 /\ 0 <= m <= 59 /\ s = canonicalTime h m.

(** The meridiem rule: 12 AM is hour 0, 12 PM is hour 12, any other PM hour
    has 12 added, AM hours 1 to 11 are kept. *)
Definition meridiemHour (pm : bool) (h : Z) : Z :=
  if pm then (if h =? 12 then 12 else h + 12)
  else (if h =? 12 then 0 else h).

(** The spellings of a meridiem the parser accepts, with the half of the
    day each one names. *)
Definition periods : list (string * bool) :=
  [("AM", false); ("am", false); ("Am", false); ("aM", false);
   ("PM", true); ("pm", true); ("Pm", true); ("pM", true)].

(** The 12-hour display string H:MM AM/PM of hour [h] and minute [m]. *)
Definition displayTime (h m : Z) : string :=
  plainDigits ((h + 11) mod 12 + 1) ++ ":" ++ twoDigits m ++ " "
  ++ (if h <? 12 then "AM" else "PM").

(** Lexicographic comparison of strings: the first difference decides, and
    a proper prefix comes first. *)
Inductive lexLt : string -> string -> Prop :=
| lexLt_prefix c s : lexLt "" (String c s)
| lexLt_head c d s t :
    (nat_of_ascii c < nat_of_ascii d)%nat -> lexLt (String c s) (String d t)
| lexLt_tail c s t : lexLt s t -> lexLt (String c s) (String c t).

(** Priority weight: high 3, medium 2, low 1, missing priority 1. *)
Definition weight (p : option Priority) : Z :=
  match p with
  | Some high => 3
  | Some medium => 2
  | Some low => 1
  | None => 1
  end.

(** The total order of the sorter: [a] may stand before [b]. *)
Definition inOrder (a b : Task) : Prop :=
  lexLt (time a) (time b)
  \/ (time a = time b
      /\ (weight (priority a) > weight (priority b)
          \/ (weight (priority a) = weight (priority b)
              /\ createdAt a <= createdAt b))).

(** Tasks tied on all three keys. *)
Definition tied (a b : Task) : bool :=
  (time a =? time b)%string
  && (weight (priority a) =? weight (priority b))
  && (createdAt a =? createdAt b).

(** The four messages a failed write reports. *)
Definition quotaExceeded : string := "Storage quota exceeded. Please clear some data.".
Definition accessDenied : string := "Unable to access localStorage. Data will not persist.".
Definition genericFailure : string := "Failed to save data to localStorage".
Definition unknownFailure : string := "Unknown error occurred while saving data".

(** The two messages a failed read reports. *)
Definition corrupted : string := "Data was corrupted and has been reset".
Definition inaccessible : string := "Unable to access localStorage".

(** A small codec for whole numbers from zero up, to run the hook on
    concrete values: the decimal text of such a number parses to it, and
    no other text parses (the empty text included, on which [JSON.parse]
    throws). *)
Definition parseNumber (s : string) : option Z :=
  match s with
  | EmptyString => None
  | _ => if (JsString.toString (JsString.parseInt s) =? s)%string
         then Some (JsString.parseInt s) else None
  end.

Definition stringifyNumber (n : Z) : LocalStorage.Thrown + string :=
  inr (JsString.toString n).

(** Stores for concrete runs: one holding a single item, and faults. *)
Definition storeWith (key value : string) : LocalStorage.Storage :=
  {| LocalStorage.items := fun k => if (k =? key)%string then Some value else None;
     LocalStorage.getItemFault := fun _ => None;
     LocalStorage.setItemFault := fun _ _ => None;
     LocalStorage.removeItemFault := fun _ => None |}.

(** Three tasks at the times of the example of the sorter. *)
Definition taskA : Task :=
  {| id := "a"; time := "14:00"; title := "Review"; priority := Some low; createdAt := 1 |}.
Definition taskB : Task :=
  {| id := "b"; time := "09:00"; title := "Standup"; priority := None; createdAt := 2 |}.
Definition taskC : Task :=
  {| id := "c"; time := "12:00"; title := "Lunch"; priority := Some high; createdAt := 3 |}.
Definition exampleTasks : list Task := [taskA; taskB; taskC].

(** Two tasks at times that are not of one shape. *)
Definition taskAtTen : Task :=
  {| id := "ten"; time := "10:00"; title := "Call"; priority := None; createdAt := 1 |}.
Definition taskAtOne : Task :=
  {| id := "one"; time := "1:00"; title := "Nap"; priority := None; createdAt := 2 |}.

(** The form of the example of the validator, and one that fails twice. *)
Definition paddedForm : TaskFormData :=
  {| formTime := JsStr "  9:30 AM  "; formTitle := JsStr " Standup ";
     formPriority := JsStr "medium" |}.

Definition invalidForm : TaskFormData :=
  {| formTime := JsStr "25:00"; formTitle := JsStr ""; formPriority := JsStr "medium" |}.

Definition validForm : TaskFormData :=
  {| formTime := JsStr "10:15"; formTitle := JsStr "Call"; formPriority := JsUndefined |}.

Definition emptyStore : LocalStorage.Storage :=
  {| LocalStorage.items := fun _ => None;
     LocalStorage.getItemFault := fun _ => None;
     LocalStorage.setItemFault := fun _ _ => None;
     LocalStorage.removeItemFault := fun _ => None |}.

Definition failingWrites (e : LocalStorage.Thrown) : LocalStorage.Storage :=
  {| LocalStorage.items := fun _ => None;
     LocalStorage.getItemFault := fun _ => None;
     LocalStorage.setItemFault := fun _ _ => Some e;
     LocalStorage.removeItemFault := fun _ => None |}.

Definition failingRemoval (key value : string) : LocalStorage.Storage :=
  {| LocalStorage.items := fun k => if (k =? key)%string then Some value else None;
     LocalStorage.getItemFault := fun _ => None;
     LocalStorage.setItemFault := fun _ _ => None;
     LocalStorage.removeItemFault :=
       fun _ => Some (LocalStorage.ErrorObject "Error" "Access denied") |}.

(** The three tasks of the example in the order of the sorter. *)
Definition sortedTasks : list Task := [taskB; taskC; taskA].

(** A codec for concrete runs of the task hook.  Collections are written
    without escapes in the texts, which the runs below do not need; the
    reader knows the empty collection only, the one serialized collection
    the hook ever writes. *)
Definition stringifyTask (t : Task) : string :=
  "{" ++ JsString.quoted "id" ++ ":" ++ JsString.quoted (id t)
  ++ "," ++ JsString.quoted "time" ++ ":" ++ JsString.quoted (time t)
  ++ "," ++ JsString.quoted "title" ++ ":" ++ JsString.quoted (title t)
  ++ match priority t with
     | Some low => "," ++ JsString.quoted "priority" ++ ":" ++ JsString.quoted "low"
     | Some medium => "," ++ JsString.quoted "priority" ++ ":" ++ JsString.quoted "medium"
     | Some high => "," ++ JsString.quoted "priority" ++ ":" ++ JsString.quoted "high"
     | None => ""
     end
  ++ "," ++ JsString.quoted "createdAt" ++ ":" ++ JsString.toString (createdAt t)
  ++ "}".

Definition stringifyTasks (tasks : list Task) : LocalStorage.Thrown + string :=
  inr ("[" ++ JsString.join "," (map stringifyTask tasks) ++ "]").

Definition parseEmptyCollection (s : string) : option (list Task) :=
  if (s =? "[]")%string then Some [] else None.

Definition tasksJson : Tasks.Json :=
  {| Tasks.JSON_parse := parseEmptyCollection;
     Tasks.JSON_stringify := stringifyTasks;
     Tasks.parse_undefined := eq_refl;
     Tasks.stringify_empty := eq_refl;
     Tasks.parse_empty := eq_refl |}.

(** A hook that shows [tasks] over the store [storage]. *)
Definition hookShowing (tasks : list Task) (storage : LocalStorage.Storage)
  : Tasks.TasksHook :=
  LocalStorage.mkHook (list Task) tasks None storage.

(** A store that refuses every write for lack of room. *)
Definition fullStore : LocalStorage.Storage :=
  {| LocalStorage.items := fun _ => None;
     LocalStorage.getItemFault := fun _ => None;
     LocalStorage.setItemFault :=
       fun _ _ => Some (LocalStorage.ErrorObject "QuotaExceededError" "quota");
     LocalStorage.removeItemFault := fun _ => None |}.

(** The messages [parseTime] fails with. *)
Definition parseErrors : list string :=
  [ "Time is required";
    "Hour must be between 1 and 12 for AM/PM format";
    "Minutes must be between 00 and 59";
    "Hour must be between 00 and 23 for 24-hour format";
    TimeUtils.invalidFormatMessage ].

(** Minutes since midnight of hour [h] and minute [m]. *)
Definition minutesOfDay (h m : Z) : Z := 60 * h + m.

(** [a] is not later in the day than [b], for tasks at canonical times. *)
Definition notLater (a b : Task) : Prop :=
  forall h1 m1 h2 m2,
    0 <= h1 <= 23 -> 0 <= m1 <= 59 -> 0 <= h2 <= 23 -> 0 <= m2 <= 59 ->
    time a = canonicalTime h1 m1 -> time b = canonicalTime h2 m2 ->
    minutesOfDay h1 m1 <= minutesOfDay h2 m2.


(** The priority values the validator accepts. *)
Definition acceptedPriority (v : JsValue) : Prop :=
  v = JsUndefined \/ v = JsNull \/ v = JsStr "low" \/ v = JsStr "medium"
  \/ v = JsStr "high".


(** A task as the data model wants it: a canonical time and a trimmed title
    of 1 to 200 characters. *)
Definition wellFormed (t : Task) : Prop :=
  TimeUtils.isValidTimeFormat (time t) = true
  /\ JsString.trim (title t) = title t
  /\ (1 <= String.length (title t) <= 200)%nat.

(** No two tasks of the collection share an id. *)
Definition uniqueIds (tasks : list Task) : Prop := NoDup (map id tasks).

(** The priority a task gets from the value of the form. *)
Definition storedPriority (v : JsValue) (p : option Priority) : Prop :=
  match v with
  | JsStr "low" => p = Some low
  | JsStr "medium" => p = Some medium
  | JsStr "high" => p = Some high
  | _ => p = None
  end.


End Spec.

(** ** Auxiliary notions of the proofs *)

Module ProofNotions.

Definition upto (n : nat) : list Z := map Z.of_nat (seq 0 n).

Definition checkAll (hours minutes : nat) (P : Z -> Z -> bool) : bool :=
  forallb (fun h => forallb (P h) (upto minutes)) (upto hours).

(** The parser returns exactly the successful result [t]. *)
Definition parsesTo (input t : string) : bool :=
  match TimeUtils.parseTime input with
  | {| TimeUtils.success := true; TimeUtils.time := Some t'; TimeUtils.error := None |} =>
      (t' =? t)%string
  | _ => false
  end.

(** A string that does not start with white space. *)
Definition cleanStart (s : string) : Prop :=
  match s with
  | String c _ => JsString.isWhiteSpace c = false
  | EmptyString => True
  end.

(** A captured hour: one or two digits. *)
Definition hourDigits (s : string) : bool :=
  match s with
  | String a EmptyString => JsString.isDigit a
  | String a (String b EmptyString) => JsString.isDigit a && JsString.isDigit b
  | _ => false
  end.

(** A run of white space. *)
Definition whiteSpaceOnly (s : string) : bool :=
  forallb JsString.isWhiteSpace (list_ascii_of_string s).

(** [x] may stand before [y] for a comparator. *)
Definition precedes {A : Type} (comparefn : A -> A -> Z) (x y : A) : Prop :=
  comparefn x y <= 0.

(** [a] may stand before [b] for the comparator of the sorter. *)
Definition taskLe : Types.Task -> Types.Task -> Prop :=
  precedes TaskUtils.compareTasks.

Definition optionStringEqb (a b : option string) : bool :=
  match a, b with
  | Some x, Some y => (x =? y)%string
  | None, None => true
  | _, _ => false
  end.

(** Equality test on parse results. *)
Definition resultEqb (a b : TimeUtils.TimeParseResult) : bool :=
  Bool.eqb (TimeUtils.success a) (TimeUtils.success b)
  && optionStringEqb (TimeUtils.time a) (TimeUtils.time b)
  && optionStringEqb (TimeUtils.error a) (TimeUtils.error b).

(** What the specification of the 24-hour grammar expects for hour [h] and
    minute [m]. *)
Definition twentyFourHourResult (h m : Z) : TimeUtils.TimeParseResult :=
  if 23 <? h then
    TimeUtils.failure "Hour must be between 00 and 23 for 24-hour format"
  else if 59 <? m then
    TimeUtils.failure "Minutes must be between 00 and 59"
  else TimeUtils.parsed (Spec.canonicalTime h m).


Definition comparisonEqb (a b : comparison) : bool :=
  match a, b with
  | Eq, Eq | Lt, Lt | Gt, Gt => true
  | _, _ => false
  end.


(** The reduction step shared by [groupTasksByTime] and [getErrorsByField]:
    the element [x] is filed as [val x] under the key [key x]. *)
Definition groupStep {A B : Type} (key : A -> string) (val : A -> B)
  (acc : option (JsObject.Obj (list B))) (x : A) : option (JsObject.Obj (list B)) :=
  match acc with
  | None => None
  | Some o =>
      let o :=
        match JsObject.getProp o (key x) with
        | JsObject.NoProperty => JsObject.setProp o (key x) []
        | _ => o
        end in
      match JsObject.getProp o (key x) with
      | JsObject.Own group => Some (JsObject.setProp o (key x) (group ++ [val x])%list)
      | _ => None
      end
  end.

(** The values filed under the key [k], in the order of the list. *)
Definition groupOf {A B : Type} (key : A -> string) (val : A -> B)
  (k : string) (l : list A) : list B :=
  map val (filter (fun x => (key x =? k)%string) l).

(** A property holds the group of its key when there is one. *)
Definition nonEmpty {B : Type} (g : list B) : option (list B) :=
  match g with
  | [] => None
  | _ => Some g
  end.


(** The object holds, under each key, the group of the elements filed so
    far, and nothing under a key without elements. *)
Definition holdsGroups {A B : Type} (key : A -> string) (val : A -> B)
  (o : JsObject.Obj (list B)) (l : list A) : Prop :=
  forall k, JsObject.ownProperty o k = nonEmpty (groupOf key val k l).

(** The collection the store holds under the key of the tasks, when the
    item there is a serialized collection, satisfies [P]. *)
Definition storedCollection (json : Tasks.Json) (P : list Types.Task -> Prop)
  (h : Tasks.TasksHook) : Prop :=
  forall item tasks,
    LocalStorage.getItem (LocalStorage.localStorage h) Tasks.STORAGE_KEY
    = inr (Some item) ->
    Tasks.JSON_parse json item = Some tasks -> P tasks.

(** The store takes the text the hook writes for a function. *)
Definition acceptsUpdater (h : Tasks.TasksHook) : Prop :=
  exists storage',
    LocalStorage.setItem (LocalStorage.localStorage h) Tasks.STORAGE_KEY "undefined"
    = inr storage'.

(** The collection is sorted for [isTaskListSorted]. *)
Definition sorted (tasks : list Types.Task) : Prop :=
  TaskUtils.isTaskListSorted tasks = true.

End ProofNotions.

(** * Properties *)

(** ** Strings *)

Module JsStringFacts.
Import JsString ProofNotions.

Lemma isEmpty_eqb s : isEmpty s = (s =? "")%string.
Proof. destruct s; reflexivity. Qed.

Lemma isEmpty_true s : isEmpty s = true -> s = "".
Proof. destruct s; [reflexivity | discriminate]. Qed.

Lemma trimEnd_idempotent s : trimEnd (trimEnd s) = trimEnd s.
Proof.
  induction s as [|c r IH]; [reflexivity|].
  simpl. destruct (isWhiteSpace c) eqn:Hc; simpl.
  - destruct (isEmpty (trimEnd r)) eqn:He; [reflexivity|].
    simpl. rewrite IH, Hc, He. reflexivity.
  - simpl. rewrite IH, Hc. reflexivity.
Qed.

Lemma trimStart_clean s : cleanStart (trimStart s).
Proof.
  induction s as [|c r IH]; simpl; [exact I|].
  destruct (isWhiteSpace c) eqn:Hc; [exact IH | simpl; exact Hc].
Qed.

Lemma trimStart_of_clean s : cleanStart s -> trimStart s = s.
Proof. destruct s as [|c r]; simpl; [reflexivity | intros ->; reflexivity]. Qed.

Lemma trimEnd_clean s : cleanStart s -> cleanStart (trimEnd s).
Proof.
  destruct s as [|c r]; simpl; [trivial|].
  intros Hc. rewrite Hc. simpl. exact Hc.
Qed.

Lemma trim_idempotent s : trim (trim s) = trim s.
Proof.
  unfold trim.
  rewrite (trimStart_of_clean (trimEnd (trimStart s))).
  - apply trimEnd_idempotent.
  - apply trimEnd_clean, trimStart_clean.
Qed.

Lemma trimEnd_last s c :
  isWhiteSpace c = false -> trimEnd (s ++ String c "") = s ++ String c "".
Proof.
  intros Hc. induction s as [|d r IH]; simpl.
  - rewrite Hc. reflexivity.
  - rewrite IH. destruct (r ++ String c "") eqn:E.
    + destruct r; discriminate.
    + simpl. rewrite andb_false_r. reflexivity.
Qed.

(** A string that neither starts nor ends with white space is its own
    trimmed form. *)
Lemma trim_fixed a s c :
  isWhiteSpace a = false -> isWhiteSpace c = false ->
  trim (String a (s ++ String c "")) = String a (s ++ String c "").
Proof.
  intros Ha Hc. unfold trim. simpl trimStart. rewrite Ha.
  change (String a (s ++ String c "")) with (String a s ++ String c "").
  apply trimEnd_last, Hc.
Qed.

Lemma append_assoc (a b c : string) : (a ++ b) ++ c = a ++ (b ++ c).
Proof. induction a as [|x a IH]; simpl; [reflexivity | rewrite IH; reflexivity]. Qed.

Lemma isDigit_not_whiteSpace c : isDigit c = true -> isWhiteSpace c = false.
Proof.
  unfold isDigit, isWhiteSpace. cbv zeta. intros H.
  apply andb_true_iff in H as [H1 H2].
  apply Nat.leb_le in H1, H2.
  repeat (apply orb_false_iff; split).
  - apply andb_false_iff. right. apply Nat.leb_gt. lia.
  - apply Nat.eqb_neq. lia.
  - apply Nat.eqb_neq. lia.
Qed.

Lemma trimEnd_append s t :
  isEmpty (trimEnd t) = false -> trimEnd (s ++ t) = s ++ trimEnd t.
Proof.
  intros Ht. induction s as [|c r IH]; simpl; [reflexivity|].
  rewrite IH. destruct (r ++ trimEnd t) eqn:E.
  - destruct r; simpl in E; [rewrite E in Ht|]; discriminate.
  - simpl. rewrite andb_false_r. reflexivity.
Qed.

End JsStringFacts.

(** ** The time parser *)

Module TimeFacts.
Import JsString TimeUtils ProofNotions JsStringFacts.

Lemma upto_In (n : nat) (z : Z) : 0 <= z < Z.of_nat n -> In z (upto n).
Proof.
  intros Hz. unfold upto. apply in_map_iff.
  exists (Z.to_nat z). split; [lia|]. apply in_seq. lia.
Qed.

Lemma checkAll_sound (hours minutes : nat) (P : Z -> Z -> bool) :
  checkAll hours minutes P = true ->
  forall h m, 0 <= h < Z.of_nat hours -> 0 <= m < Z.of_nat minutes ->
  P h m = true.
Proof.
  unfold checkAll. intros Hall h m Hh Hm.
  rewrite forallb_forall in Hall.
  specialize (Hall h (upto_In _ _ Hh)).
  rewrite forallb_forall in Hall.
  exact (Hall m (upto_In _ _ Hm)).
Qed.

Lemma parsesTo_sound input t :
  parsesTo input t = true -> parseTime input = parsed t.
Proof.
  unfold parsesTo, parsed.
  destruct (parseTime input) as [[|] [t'|] [e|]]; try discriminate.
  intros H. apply String.eqb_eq in H. subst. reflexivity.
Qed.

(** The template yields the canonical string on the hours and minutes of a
    day. *)
Lemma formatHourMinute_canonical h m :
  0 <= h <= 23 -> 0 <= m <= 59 ->
  formatHourMinute h m = Spec.canonicalTime h m.
Proof.
  intros Hh Hm.
  assert (Hall : checkAll 24 60
            (fun h m => (formatHourMinute h m =? Spec.canonicalTime h m)%string) = true)
    by (vm_compute; reflexivity).
  apply String.eqb_eq.
  apply (checkAll_sound _ _ _ Hall); simpl; lia.
Qed.

(** Whatever the input, a successful parse returns the template applied to
    an hour and a minute of the day. *)
Lemma parseTime_success_shape input :
  success (parseTime input) = true ->
  exists h m, 0 <= h <= 23 /\ 0 <= m <= 59 /\
              parseTime input = parsed (formatHourMinute h m).
Proof.
  unfold parseTime.
  destruct (isEmpty input); [discriminate|].
  destruct (trim input =? "")%string; [discriminate|].
  destruct (matchAmPm (trim input)) as [[[hourStr minuteStr] period]|].
  - destruct ((parseInt hourStr <? 1) || (parseInt hourStr >? 12)) eqn:Hh;
      [discriminate|].
    destruct ((parseInt minuteStr <? 0) || (parseInt minuteStr >? 59)) eqn:Hm;
      [discriminate|].
    intros _.
    apply orb_false_iff in Hh as [Hh1 Hh2].
    apply orb_false_iff in Hm as [Hm1 Hm2].
    apply Z.ltb_ge in Hh1, Hm1.
    rewrite Z.gtb_ltb in Hh2, Hm2. apply Z.ltb_ge in Hh2, Hm2.
    eexists _, (parseInt minuteStr). split; [|split; [lia | reflexivity]].
    destruct ((toUpperCase period =? "PM")%string && negb (parseInt hourStr =? 12))
      eqn:Hpm.
    + apply andb_true_iff in Hpm as [_ Hne].
      apply negb_true_iff, Z.eqb_neq in Hne. lia.
    + destruct ((toUpperCase period =? "AM")%string && (parseInt hourStr =? 12)); lia.
  - destruct (matchTwentyFourHour (trim input)) as [[hourStr minuteStr]|];
      [|discriminate].
    destruct ((parseInt hourStr <? 0) || (parseInt hourStr >? 23)) eqn:Hh;
      [discriminate|].
    destruct ((parseInt minuteStr <? 0) || (parseInt minuteStr >? 59)) eqn:Hm;
      [discriminate|].
    intros _.
    apply orb_false_iff in Hh as [Hh1 Hh2].
    apply orb_false_iff in Hm as [Hm1 Hm2].
    apply Z.ltb_ge in Hh1, Hm1.
    rewrite Z.gtb_ltb in Hh2, Hm2. apply Z.ltb_ge in Hh2, Hm2.
    exists (parseInt hourStr), (parseInt minuteStr).
    split; [lia | split; [lia | reflexivity]].
Qed.

Lemma parseTime_success_canonical input :
  success (parseTime input) = true ->
  exists t, Spec.isCanonicalTime t /\ parseTime input = parsed t.
Proof.
  intros H. destruct (parseTime_success_shape _ H) as (h & m & Hh & Hm & E).
  exists (Spec.canonicalTime h m). split.
  - exists h, m. auto.
  - rewrite E, formatHourMinute_canonical by assumption. reflexivity.
Qed.

(** Every canonical string parses to itself. *)
Lemma parseTime_canonical h m :
  0 <= h <= 23 -> 0 <= m <= 59 ->
  parseTime (Spec.canonicalTime h m) = parsed (Spec.canonicalTime h m).
Proof.
  intros Hh Hm.
  assert (Hall : checkAll 24 60
            (fun h m => parsesTo (Spec.canonicalTime h m) (Spec.canonicalTime h m)) = true)
    by (vm_compute; reflexivity).
  apply parsesTo_sound.
  apply (checkAll_sound _ _ _ Hall); simpl; lia.
Qed.

Lemma canonicalTime_not_empty h m : isEmpty (Spec.canonicalTime h m) = false.
Proof. reflexivity. Qed.

(** The validity test accepts the canonical strings and only them. *)
Lemma isValidTimeFormat_iff t :
  isValidTimeFormat t = true <-> Spec.isCanonicalTime t.
Proof.
  unfold isValidTimeFormat. split.
  - destruct (isEmpty t); [discriminate|].
    intros H. apply andb_true_iff in H as [Hs Ht].
    destruct (parseTime_success_canonical _ Hs) as (c & Hc & E).
    rewrite E in Ht. unfold parsed in Ht. cbn [time] in Ht.
    apply String.eqb_eq in Ht. subst. exact Hc.
  - intros (h & m & Hh & Hm & ->).
    rewrite canonicalTime_not_empty, parseTime_canonical by assumption.
    unfold parsed. cbn [success time andb]. apply String.eqb_refl.
Qed.

Lemma isValidTimeFormat_false t :
  isValidTimeFormat t = false <-> ~ Spec.isCanonicalTime t.
Proof.
  rewrite <- isValidTimeFormat_iff.
  destruct (isValidTimeFormat t); split; intros H; congruence.
Qed.

(** C3. Every string of the exact form HH:MM with 00 <= HH <= 23 and
    00 <= MM <= 59 is parsed successfully to itself; [isValidTimeFormat]
    is true on exactly these strings; it is false on 9:30 and on 9:30 AM,
    which [parseTime] nevertheless accepts. *)
Theorem canonical_times_parse_to_themselves :
  (forall t, Spec.isCanonicalTime t -> parseTime t = parsed t)
  /\ (forall t, isValidTimeFormat t = true <-> Spec.isCanonicalTime t)
  /\ isValidTimeFormat "9:30" = false
  /\ isValidTimeFormat "9:30 AM" = false
  /\ parseTime "9:30" = parsed "09:30"
  /\ parseTime "9:30 AM" = parsed "09:30".
Proof.
  split; [|split; [|repeat apply conj; vm_compute; reflexivity]].
  - intros t (h & m & Hh & Hm & ->). apply parseTime_canonical; assumption.
  - apply isValidTimeFormat_iff.
Qed.

Lemma canonical_times_parse_to_themselves_witness :
  Spec.isCanonicalTime "09:30" /\ parseTime "09:30" = parsed "09:30".
Proof.
  assert (H : Spec.isCanonicalTime "09:30").
  { exists 9, 30. split; [lia | split; [lia | reflexivity]]. }
  split; [exact H|].
  exact (proj1 canonical_times_parse_to_themselves "09:30" H).
Defined.

(** *** The meridiem grammar *)

Lemma matchHourColon_one a c r :
  isDigit a = true ->
  matchHourColon (String a (String ":" (String c r))) = Some (String a "", String c r).
Proof. intros Ha. simpl. rewrite Ha. reflexivity. Qed.

Lemma matchHourColon_two a b r :
  isDigit a = true -> isDigit b = true ->
  matchHourColon (String a (String b (String ":" r))) = Some (String a (String b ""), r).
Proof. intros Ha Hb. simpl. rewrite Ha, Hb. reflexivity. Qed.

Lemma trimStart_whiteSpace ws s :
  whiteSpaceOnly ws = true ->
  trimStart (ws ++ s) = trimStart s.
Proof.
  unfold whiteSpaceOnly.
  induction ws as [|c r IH]; simpl; [reflexivity|].
  intros H. apply andb_true_iff in H as [Hc Hr]. rewrite Hc. auto.
Qed.

Lemma period_cases p pm :
  In (p, pm) Spec.periods ->
  matchPeriod p = Some p
  /\ (toUpperCase p =? "PM")%string = pm
  /\ (toUpperCase p =? "AM")%string = negb pm
  /\ exists x y, p = String x (String y "") /\ isWhiteSpace x = false
                 /\ isWhiteSpace y = false.
Proof.
  unfold Spec.periods. simpl.
  intros H.
  repeat (destruct H as [H|H];
          [inversion H; subst; repeat split; eexists _, _; repeat split|]).
  contradiction.
Qed.

(** A meridiem input read by the first pattern: what the parser makes of
    the captured hour and minute. *)
Lemma parseTime_meridiem hs c d ws p pm :
  hourDigits hs = true -> isDigit c = true -> isDigit d = true ->
  whiteSpaceOnly ws = true -> In (p, pm) Spec.periods ->
  parseTime ((hs ++ String ":" (String c (String d ws))) ++ p) =
    let hour := parseInt hs in
    let minute := parseInt (String c (String d "")) in
    if (hour <? 1) || (hour >? 12) then
      failure "Hour must be between 1 and 12 for AM/PM format"
    else if (minute <? 0) || (minute >? 59) then
      failure "Minutes must be between 00 and 59"
    else parsed (formatHourMinute (Spec.meridiemHour pm hour) minute).
Proof.
  intros Hhs Hc Hd Hws Hp.
  destruct (period_cases _ _ Hp) as (Hmatch & Hpm & Ham & x & y & Ep & Hx & Hy).
  set (input := (hs ++ String ":" (String c (String d ws))) ++ p).
  assert (Htrim : trim input = input).
  { unfold trim, input.
    assert (Hstart : cleanStart ((hs ++ String ":" (String c (String d ws))) ++ p)).
    { destruct hs as [|a [|b [|? ?]]]; try discriminate; simpl in *.
      - apply isDigit_not_whiteSpace, Hhs.
      - apply andb_true_iff in Hhs as [Ha _]. apply isDigit_not_whiteSpace, Ha. }
    rewrite (trimStart_of_clean _ Hstart).
    assert (Hend : trimEnd p = p).
    { subst p. simpl. rewrite Hy. simpl. rewrite andb_false_r. reflexivity. }
    rewrite trimEnd_append; rewrite Hend; [reflexivity|].
    subst p. reflexivity. }
  assert (Hm : matchAmPm input = Some (hs, String c (String d ""), p)).
  { unfold matchAmPm, input.
    destruct hs as [|a [|b [|? ?]]]; try discriminate; simpl in Hhs.
    - change ((String a "" ++ String ":" (String c (String d ws))) ++ p)
        with (String a (String ":" (String c (String d (ws ++ p))))).
      rewrite matchHourColon_one by assumption.
      simpl matchMinute. rewrite Hc, Hd. simpl.
      rewrite trimStart_whiteSpace by assumption.
      rewrite (trimStart_of_clean p) by (subst p; exact Hx).
      rewrite Hmatch. reflexivity.
    - apply andb_true_iff in Hhs as [Ha Hb].
      change ((String a (String b "") ++ String ":" (String c (String d ws))) ++ p)
        with (String a (String b (String ":" (String c (String d (ws ++ p)))))).
      rewrite matchHourColon_two by assumption.
      simpl matchMinute. rewrite Hc, Hd. simpl.
      rewrite trimStart_whiteSpace by assumption.
      rewrite (trimStart_of_clean p) by (subst p; exact Hx).
      rewrite Hmatch. reflexivity. }
  unfold parseTime. fold input. rewrite Htrim, Hm.
  assert (Hne : isEmpty input = false).
  { unfold input. destruct hs as [|a r]; [discriminate | reflexivity]. }
  rewrite Hne, <- isEmpty_eqb, Hne.
  cbv zeta.
  destruct ((parseInt hs <? 1) || (parseInt hs >? 12)); [reflexivity|].
  destruct ((parseInt (String c (String d "")) <? 0)
            || (parseInt (String c (String d "")) >? 59)); [reflexivity|].
  rewrite Hpm, Ham. unfold Spec.meridiemHour.
  destruct pm; destruct (Z.eqb_spec (parseInt hs) 12) as [E|E];
    cbn [negb andb]; rewrite ?E; reflexivity.
Qed.

Lemma upto_forallb (n : nat) (P : Z -> bool) :
  forallb P (upto n) = true -> forall z, 0 <= z < Z.of_nat n -> P z = true.
Proof.
  intros Hall z Hz. rewrite forallb_forall in Hall. apply Hall, upto_In, Hz.
Qed.

(** Numbers below one hundred, written with or without a leading zero, are
    read back by [parseInt]. *)
Lemma digits_read_back n :
  0 <= n <= 99 ->
  hourDigits (Spec.plainDigits n) = true
  /\ hourDigits (Spec.twoDigits n) = true
  /\ parseInt (Spec.plainDigits n) = n
  /\ parseInt (Spec.twoDigits n) = n
  /\ isDigit (Spec.digitChar (n / 10)) = true
  /\ isDigit (Spec.digitChar (n mod 10)) = true.
Proof.
  intros Hn.
  assert (Hall : forallb (fun n =>
            hourDigits (Spec.plainDigits n) && hourDigits (Spec.twoDigits n)
            && (parseInt (Spec.plainDigits n) =? n) && (parseInt (Spec.twoDigits n) =? n)
            && isDigit (Spec.digitChar (n / 10)) && isDigit (Spec.digitChar (n mod 10)))
            (upto 100) = true) by (vm_compute; reflexivity).
  pose proof (upto_forallb _ _ Hall n ltac:(simpl; lia)) as H.
  repeat (apply andb_true_iff in H as [H ?]).
  repeat split; try assumption; apply Z.eqb_eq; assumption.
Qed.

(** C4. A 12-hour input (hour of one or two digits, colon, minute of two
    digits, optional white space, AM or PM in either case) is converted by
    the meridiem rule: 12 AM is hour 0, 12 PM is hour 12, any other PM
    hour has 12 added, AM hours 1 to 11 are kept; an hour outside 1 to 12
    fails with the hour-range error of the 12-hour format and, the hour
    being in range, a minute above 59 fails with the minute-range error.
    The five examples of the specification evaluate as stated. *)
Theorem meridiem_conversion_and_range_errors :
  (forall h m hs ws p pm,
     0 <= h <= 99 -> 0 <= m <= 99 ->
     hs = Spec.plainDigits h \/ hs = Spec.twoDigits h ->
     whiteSpaceOnly ws = true -> In (p, pm) Spec.periods ->
     parseTime (hs ++ ":" ++ Spec.twoDigits m ++ ws ++ p) =
       if (h <? 1) || (12 <? h) then
         failure "Hour must be between 1 and 12 for AM/PM format"
       else if 59 <? m then
         failure "Minutes must be between 00 and 59"
       else parsed (Spec.canonicalTime (Spec.meridiemHour pm h) m))
  /\ parseTime "9:30 PM" = parsed "21:30"
  /\ parseTime "12:00 AM" = parsed "00:00"
  /\ parseTime "12:00 PM" = parsed "12:00"
  /\ parseTime "25:00" = failure "Hour must be between 00 and 23 for 24-hour format"
  /\ parseTime "09:60" = failure "Minutes must be between 00 and 59".
Proof.
  split; [|repeat apply conj; vm_compute; reflexivity].
  intros h m hs ws p pm Hh Hm Hhs Hws Hp.
  destruct (digits_read_back h Hh) as (Hd1 & Hd2 & Hp1 & Hp2 & _).
  destruct (digits_read_back m Hm) as (_ & _ & _ & Hpm & Hc & Hd).
  assert (Hdig : hourDigits hs = true) by (destruct Hhs; subst; assumption).
  assert (Hval : parseInt hs = h) by (destruct Hhs; subst; assumption).
  replace (hs ++ ":" ++ Spec.twoDigits m ++ ws ++ p)
    with ((hs ++ String ":" (String (Spec.digitChar (m / 10))
                               (String (Spec.digitChar (m mod 10)) ws))) ++ p)
    by (rewrite append_assoc; reflexivity).
  rewrite (parseTime_meridiem _ _ _ _ _ pm Hdig Hc Hd Hws Hp).
  cbv zeta. fold (Spec.twoDigits m). rewrite Hval, Hpm.
  rewrite (Z.gtb_ltb h 12), (Z.gtb_ltb m 59).
  destruct ((h <? 1) || (12 <? h)) eqn:Eh; [reflexivity|].
  replace (m <? 0) with false by (symmetry; apply Z.ltb_ge; lia).
  cbn [orb].
  destruct (59 <? m) eqn:Em; [reflexivity|].
  apply orb_false_iff in Eh as [Eh1 Eh2].
  apply Z.ltb_ge in Eh1, Eh2, Em.
  rewrite formatHourMinute_canonical; [reflexivity| |lia].
  unfold Spec.meridiemHour. destruct pm; destruct (Z.eqb_spec h 12); lia.
Qed.

Lemma meridiem_conversion_and_range_errors_witness :
  parseTime ("7" ++ ":" ++ Spec.twoDigits 5 ++ "  " ++ "pm") = parsed "19:05".
Proof.
  exact (proj1 meridiem_conversion_and_range_errors 7 5 "7" "  " "pm" true
           ltac:(lia) ltac:(lia) (or_introl eq_refl) eq_refl
           ltac:(simpl; tauto)).
Defined.

(** *** The display format *)

Lemma formatTimeForDisplay_canonical h m :
  0 <= h <= 23 -> 0 <= m <= 59 ->
  formatTimeForDisplay (Spec.canonicalTime h m) = Spec.displayTime h m.
Proof.
  intros Hh Hm.
  assert (Hall : checkAll 24 60 (fun h m =>
            (formatTimeForDisplay (Spec.canonicalTime h m) =? Spec.displayTime h m)%string)
          = true) by (vm_compute; reflexivity).
  apply String.eqb_eq, (checkAll_sound _ _ _ Hall); simpl; lia.
Qed.

Lemma parseTime_displayTime h m :
  0 <= h <= 23 -> 0 <= m <= 59 ->
  parseTime (Spec.displayTime h m) = parsed (Spec.canonicalTime h m).
Proof.
  intros Hh Hm.
  assert (Hall : checkAll 24 60 (fun h m =>
            parsesTo (Spec.displayTime h m) (Spec.canonicalTime h m)) = true)
    by (vm_compute; reflexivity).
  apply parsesTo_sound, (checkAll_sound _ _ _ Hall); simpl; lia.
Qed.

Lemma formatTimeForDisplay_invalid t :
  isValidTimeFormat t = false -> formatTimeForDisplay t = t.
Proof. unfold formatTimeForDisplay. intros ->. reflexivity. Qed.

(** C9. For every canonical time T = HH:MM, [formatTimeForDisplay T] is
    the 12-hour string H:MM AM/PM (hour from 1 to 12 without a leading
    zero, minute with two digits, AM before noon), and parsing that string
    gives back exactly T; on every input that is not a canonical time
    [formatTimeForDisplay] returns its input. *)
Theorem display_round_trip :
  (forall h m, 0 <= h <= 23 -> 0 <= m <= 59 ->
     formatTimeForDisplay (Spec.canonicalTime h m) = Spec.displayTime h m
     /\ 1 <= (h + 11) mod 12 + 1 <= 12
     /\ parseTime (formatTimeForDisplay (Spec.canonicalTime h m))
        = parsed (Spec.canonicalTime h m))
  /\ (forall t, ~ Spec.isCanonicalTime t -> formatTimeForDisplay t = t).
Proof.
  split.
  - intros h m Hh Hm. rewrite formatTimeForDisplay_canonical by assumption.
    split; [reflexivity|]. split.
    + pose proof (Z.mod_pos_bound (h + 11) 12). lia.
    + apply parseTime_displayTime; assumption.
  - intros t Ht. apply formatTimeForDisplay_invalid, isValidTimeFormat_false, Ht.
Qed.

Lemma display_round_trip_witness :
  (formatTimeForDisplay "13:30" = "1:30 PM"
   /\ parseTime (formatTimeForDisplay "13:30") = parsed "13:30")
  /\ formatTimeForDisplay "9:30" = "9:30".
Proof.
  split.
  - pose proof (proj1 display_round_trip 13 30 ltac:(lia) ltac:(lia)) as H.
    exact (conj (proj1 H) (proj2 (proj2 H))).
  - apply (proj2 display_round_trip), isValidTimeFormat_false.
    vm_compute. reflexivity.
Defined.

End TimeFacts.

(** ** Sorting with a comparator *)

Module SortFacts.
Import JsArray ProofNotions.

Section Comparator.
Context {A : Type}.
Variable comparefn : A -> A -> Z.

Lemma insertSorted_permutation x l : Permutation (x :: l) (insertSorted comparefn x l).
Proof.
  induction l as [|y rest IH]; simpl; [reflexivity|].
  destruct (comparefn x y <=? 0); [reflexivity|].
  rewrite perm_swap. apply perm_skip, IH.
Qed.

Lemma sort_permutation l : Permutation l (sort comparefn l).
Proof.
  induction l as [|x rest IH]; simpl; [constructor|].
  rewrite <- insertSorted_permutation. apply perm_skip, IH.
Qed.

Lemma insertSorted_Forall (P : A -> Prop) x l :
  P x -> Forall P l -> Forall P (insertSorted comparefn x l).
Proof.
  intros Hx Hl. apply (Permutation_Forall (insertSorted_permutation x l)).
  constructor; assumption.
Qed.

(** The comparator is consistent: any two elements compare one way or the
    other, and the comparison is transitive. *)
Hypothesis le_total :
  forall x y, precedes comparefn x y \/ precedes comparefn y x.
Hypothesis le_trans :
  forall x y z,
    precedes comparefn x y -> precedes comparefn y z -> precedes comparefn x z.

Lemma insertSorted_sorted x l :
  StronglySorted (precedes comparefn) l ->
  StronglySorted (precedes comparefn) (insertSorted comparefn x l).
Proof.
  induction 1 as [|y rest Hs IH Hy]; simpl.
  - repeat constructor.
  - destruct (Z.leb_spec (comparefn x y) 0) as [Hxy|Hxy].
    + constructor; [constructor; assumption|].
      constructor; [exact Hxy|].
      eapply Forall_impl; [|exact Hy]. intros z Hz. exact (le_trans _ _ _ Hxy Hz).
    + constructor; [exact IH|].
      apply insertSorted_Forall; [|exact Hy].
      destruct (le_total x y) as [H|H]; [unfold precedes in H; lia | exact H].
Qed.

Lemma sort_sorted l : StronglySorted (precedes comparefn) (sort comparefn l).
Proof.
  induction l as [|x rest IH]; simpl; [constructor|].
  apply insertSorted_sorted, IH.
Qed.

End Comparator.

Section Stability.
Context {A : Type}.
Variable comparefn : A -> A -> Z.
(** A class of elements that compare equal to one another. *)
Variable class : A -> bool.
Hypothesis class_equal :
  forall x y, class x = true -> class y = true -> comparefn x y = 0.

Lemma insertSorted_stable x l :
  filter class (insertSorted comparefn x l) = filter class (x :: l).
Proof.
  induction l as [|y rest IH]; [reflexivity|].
  simpl insertSorted.
  destruct (Z.leb_spec (comparefn x y) 0) as [Hxy|Hxy]; [reflexivity|].
  change (filter class (y :: insertSorted comparefn x rest))
    with (if class y then y :: filter class (insertSorted comparefn x rest)
          else filter class (insertSorted comparefn x rest)).
  rewrite IH. simpl.
  destruct (class x) eqn:Hx, (class y) eqn:Hy; try reflexivity.
  rewrite (class_equal x y Hx Hy) in Hxy. lia.
Qed.

Lemma sort_stable l : filter class (sort comparefn l) = filter class l.
Proof.
  induction l as [|x rest IH]; [reflexivity|].
  simpl sort. rewrite insertSorted_stable. simpl. rewrite IH. reflexivity.
Qed.

End Stability.

Lemma StronglySorted_filter {A : Type} (R : A -> A -> Prop) (f : A -> bool) l :
  StronglySorted R l -> StronglySorted R (filter f l).
Proof.
  induction 1 as [|x rest Hs IH Hx]; simpl; [constructor|].
  destruct (f x); [|exact IH].
  constructor; [exact IH|].
  rewrite Forall_forall in *. intros y Hy. apply filter_In in Hy. apply Hx, Hy.
Qed.

End SortFacts.

(** ** The task sorter *)

Module TaskFacts.
Import JsString Types TaskUtils ProofNotions TimeFacts.

(** *** The order of code units *)

Lemma nat_of_ascii_injective c d : nat_of_ascii c = nat_of_ascii d -> c = d.
Proof.
  intros H. rewrite <- (ascii_nat_embedding c), <- (ascii_nat_embedding d), H.
  reflexivity.
Qed.

Lemma compareCodeUnits_refl a : compareCodeUnits a a = Eq.
Proof.
  induction a as [|c a IH]; simpl; [reflexivity|].
  rewrite Nat.compare_refl. exact IH.
Qed.

Lemma compareCodeUnits_eq a b : compareCodeUnits a b = Eq -> a = b.
Proof.
  revert b. induction a as [|c a IH]; intros [|d b]; simpl; try discriminate;
    [reflexivity|].
  destruct (Nat.compare_spec (nat_of_ascii c) (nat_of_ascii d)) as [E|E|E];
    try discriminate.
  intros H. apply nat_of_ascii_injective in E. f_equal; auto.
Qed.

Lemma compareCodeUnits_antisym a b :
  compareCodeUnits b a = CompOpp (compareCodeUnits a b).
Proof.
  revert b. induction a as [|c a IH]; intros [|d b]; simpl; try reflexivity.
  rewrite (Nat.compare_antisym (nat_of_ascii c) (nat_of_ascii d)).
  destruct (nat_of_ascii c ?= nat_of_ascii d)%nat; simpl; auto.
Qed.

Lemma compareCodeUnits_lexLt a b :
  compareCodeUnits a b = Lt <-> Spec.lexLt a b.
Proof.
  split.
  - revert b. induction a as [|c a IH]; intros [|d b]; simpl; try discriminate.
    + constructor.
    + destruct (Nat.compare_spec (nat_of_ascii c) (nat_of_ascii d)) as [E|E|E];
        try discriminate.
      * apply nat_of_ascii_injective in E. subst d. intros H.
        apply Spec.lexLt_tail. auto.
      * intros _. apply Spec.lexLt_head. exact E.
  - induction 1 as [c s|c d s t Hcd|c s t Hst IH]; simpl.
    + reflexivity.
    + apply Nat.compare_lt_iff in Hcd. rewrite Hcd. reflexivity.
    + rewrite Nat.compare_refl. exact IH.
Qed.

Lemma lexLt_trans a b c : Spec.lexLt a b -> Spec.lexLt b c -> Spec.lexLt a c.
Proof.
  intros Hab. revert c.
  induction Hab as [x s|x y s t Hxy|x s t Hst IH]; intros c Hbc; inversion Hbc; subst.
  - constructor.
  - constructor.
  - constructor. lia.
  - constructor. assumption.
  - constructor. assumption.
  - apply Spec.lexLt_tail. auto.
Qed.

Lemma lexLt_irrefl a : ~ Spec.lexLt a a.
Proof.
  intros H. apply compareCodeUnits_lexLt in H.
  rewrite compareCodeUnits_refl in H. discriminate.
Qed.

Lemma lexLt_asym a b : Spec.lexLt a b -> ~ Spec.lexLt b a.
Proof. intros H1 H2. exact (lexLt_irrefl a (lexLt_trans _ _ _ H1 H2)). Qed.

(** *** Collation *)

Lemma compareWeights_refl a : compareWeights a a = Eq.
Proof.
  induction a as [|x a IH]; simpl; [reflexivity|].
  rewrite Nat.compare_refl. exact IH.
Qed.

Lemma compareWeights_eq a b : compareWeights a b = Eq -> a = b.
Proof.
  revert b. induction a as [|x a IH]; intros [|y b]; simpl; try discriminate;
    [reflexivity|].
  destruct (Nat.compare_spec x y) as [E|E|E]; try discriminate.
  intros H. subst y. f_equal. auto.
Qed.

Lemma compareWeights_antisym a b :
  compareWeights b a = CompOpp (compareWeights a b).
Proof.
  revert b. induction a as [|x a IH]; intros [|y b]; simpl; try reflexivity.
  rewrite (Nat.compare_antisym x y).
  destruct (x ?= y)%nat; simpl; auto.
Qed.

Lemma compareWeights_lt_trans a b c :
  compareWeights a b = Lt -> compareWeights b c = Lt -> compareWeights a c = Lt.
Proof.
  revert b c. induction a as [|x a IH]; intros [|y b] [|z c]; simpl;
    try discriminate; try reflexivity.
  destruct (Nat.compare_spec x y) as [E1|E1|E1]; try discriminate;
    destruct (Nat.compare_spec y z) as [E2|E2|E2]; try discriminate; intros H1 H2.
  - subst. rewrite Nat.compare_refl. eapply IH; eassumption.
  - subst. apply Nat.compare_lt_iff in E2. rewrite E2. reflexivity.
  - subst. apply Nat.compare_lt_iff in E1. rewrite E1. reflexivity.
  - assert (E : (x < z)%nat) by lia. apply Nat.compare_lt_iff in E. rewrite E.
    reflexivity.
Qed.

Lemma compareWeights_app a b s t :
  length a = length b ->
  compareWeights (a ++ s) (b ++ t) =
    match compareWeights a b with
    | Eq => compareWeights s t
    | o => o
    end.
Proof.
  revert b. induction a as [|x a IH]; intros [|y b] Hlen; simpl in Hlen;
    try discriminate; [reflexivity|].
  simpl. destruct (x ?= y)%nat; try reflexivity.
  apply IH. lia.
Qed.

Lemma collate_refl a : collate a a = Eq.
Proof. apply compareWeights_refl. Qed.

Lemma collate_antisym a b : collate b a = CompOpp (collate a b).
Proof. apply compareWeights_antisym. Qed.

(** Strings that collate equal collate alike with any third one. *)
Lemma collate_eq_left a b c : collate a b = Eq -> collate a c = collate b c.
Proof.
  unfold collate. intros H. apply compareWeights_eq in H. rewrite H. reflexivity.
Qed.

Lemma collate_eq_right a b c : collate b c = Eq -> collate a b = collate a c.
Proof.
  unfold collate. intros H. apply compareWeights_eq in H. rewrite H. reflexivity.
Qed.

Lemma collate_lt_trans a b c :
  collate a b = Lt -> collate b c = Lt -> collate a c = Lt.
Proof. apply compareWeights_lt_trans. Qed.

Lemma primaryKey_app s t : primaryKey (s ++ t) = (primaryKey s ++ primaryKey t)%list.
Proof.
  induction s as [|c s IH]; [reflexivity|].
  cbn [append primaryKey]. destruct (primaryWeight c =? 0)%nat; [exact IH|].
  rewrite IH. reflexivity.
Qed.

Lemma caseKey_app s t : caseKey (s ++ t) = (caseKey s ++ caseKey t)%list.
Proof.
  induction s as [|c s IH]; [reflexivity|].
  cbn [append caseKey]. destruct (primaryWeight c =? 0)%nat; [exact IH|].
  rewrite IH. reflexivity.
Qed.

(** *** Canonical times in the order of the day *)

Lemma comparisonEqb_eq a b : comparisonEqb a b = true -> a = b.
Proof. destruct a, b; simpl; congruence. Qed.

Lemma twoDigits_compare x y :
  0 <= x <= 99 -> 0 <= y <= 99 ->
  compareCodeUnits (Spec.twoDigits x) (Spec.twoDigits y) = (x ?= y).
Proof.
  intros Hx Hy.
  assert (Hall : checkAll 100 100 (fun x y =>
            comparisonEqb (compareCodeUnits (Spec.twoDigits x) (Spec.twoDigits y))
                          (x ?= y)) = true) by (vm_compute; reflexivity).
  apply comparisonEqb_eq, (checkAll_sound _ _ _ Hall); simpl; lia.
Qed.

Lemma compareCodeUnits_two_then a b s c d t :
  compareCodeUnits (String a (String b s)) (String c (String d t)) =
    match compareCodeUnits (String a (String b "")) (String c (String d "")) with
    | Eq => compareCodeUnits s t
    | o => o
    end.
Proof.
  simpl. destruct (nat_of_ascii a ?= nat_of_ascii c)%nat; try reflexivity.
  destruct (nat_of_ascii b ?= nat_of_ascii d)%nat; reflexivity.
Qed.

Lemma minutes_compare h1 m1 h2 m2 :
  0 <= m1 <= 59 -> 0 <= m2 <= 59 ->
  match h1 ?= h2 with
  | Eq => m1 ?= m2
  | o => o
  end = (Spec.minutesOfDay h1 m1 ?= Spec.minutesOfDay h2 m2).
Proof.
  intros Hm1 Hm2. unfold Spec.minutesOfDay.
  destruct (Z.compare_spec h1 h2) as [E|E|E].
  - subst. destruct (Z.compare_spec m1 m2) as [E|E|E]; symmetry.
    + apply Z.compare_eq_iff. lia.
    + apply Z.compare_lt_iff. lia.
    + apply Z.compare_gt_iff. lia.
  - symmetry. apply Z.compare_lt_iff. lia.
  - symmetry. apply Z.compare_gt_iff. lia.
Qed.

Lemma canonicalTime_compare h1 m1 h2 m2 :
  0 <= h1 <= 23 -> 0 <= m1 <= 59 -> 0 <= h2 <= 23 -> 0 <= m2 <= 59 ->
  compareCodeUnits (Spec.canonicalTime h1 m1) (Spec.canonicalTime h2 m2)
  = (Spec.minutesOfDay h1 m1 ?= Spec.minutesOfDay h2 m2).
Proof.
  intros Hh1 Hm1 Hh2 Hm2.
  change (Spec.canonicalTime h1 m1)
    with (String (Spec.digitChar (h1 / 10)) (String (Spec.digitChar (h1 mod 10))
            (String ":" (Spec.twoDigits m1)))).
  change (Spec.canonicalTime h2 m2)
    with (String (Spec.digitChar (h2 / 10)) (String (Spec.digitChar (h2 mod 10))
            (String ":" (Spec.twoDigits m2)))).
  rewrite compareCodeUnits_two_then.
  fold (Spec.twoDigits h1). fold (Spec.twoDigits h2).
  rewrite (twoDigits_compare h1 h2) by lia.
  change (compareCodeUnits (String ":" (Spec.twoDigits m1)) (String ":" (Spec.twoDigits m2)))
    with (compareCodeUnits (Spec.twoDigits m1) (Spec.twoDigits m2)).
  rewrite (twoDigits_compare m1 m2) by lia.
  apply minutes_compare; assumption.
Qed.

Lemma twoDigits_primaryKey x y :
  0 <= x <= 99 -> 0 <= y <= 99 ->
  compareWeights (primaryKey (Spec.twoDigits x)) (primaryKey (Spec.twoDigits y))
  = (x ?= y).
Proof.
  intros Hx Hy.
  assert (Hall : checkAll 100 100 (fun x y =>
            comparisonEqb
              (compareWeights (primaryKey (Spec.twoDigits x))
                              (primaryKey (Spec.twoDigits y)))
              (x ?= y)) = true) by (vm_compute; reflexivity).
  apply comparisonEqb_eq, (checkAll_sound _ _ _ Hall); simpl; lia.
Qed.

Lemma twoDigits_keys x :
  0 <= x <= 99 ->
  length (primaryKey (Spec.twoDigits x)) = 2%nat
  /\ caseKey (Spec.twoDigits x) = caseKey "00".
Proof.
  intros Hx.
  assert (Hall : checkAll 100 1 (fun x _ =>
            (length (primaryKey (Spec.twoDigits x)) =? 2)%nat
            && comparisonEqb
                 (compareWeights (caseKey (Spec.twoDigits x)) (caseKey "00")) Eq)
          = true) by (vm_compute; reflexivity).
  pose proof (checkAll_sound _ _ _ Hall x 0 ltac:(simpl; lia) ltac:(simpl; lia)) as H.
  cbv beta in H. apply andb_true_iff in H as [H1 H2].
  apply Nat.eqb_eq in H1. apply comparisonEqb_eq, compareWeights_eq in H2.
  split; assumption.
Qed.

(** On canonical times collation is the order of the day. *)
Lemma canonicalTime_collate h1 m1 h2 m2 :
  0 <= h1 <= 23 -> 0 <= m1 <= 59 -> 0 <= h2 <= 23 -> 0 <= m2 <= 59 ->
  collate (Spec.canonicalTime h1 m1) (Spec.canonicalTime h2 m2)
  = (Spec.minutesOfDay h1 m1 ?= Spec.minutesOfDay h2 m2).
Proof.
  intros Hh1 Hm1 Hh2 Hm2.
  destruct (twoDigits_keys h1 ltac:(lia)) as [Lh1 Ch1].
  destruct (twoDigits_keys h2 ltac:(lia)) as [Lh2 Ch2].
  destruct (twoDigits_keys m1 ltac:(lia)) as [Lm1 Cm1].
  destruct (twoDigits_keys m2 ltac:(lia)) as [Lm2 Cm2].
  unfold collate, sortKey, Spec.canonicalTime.
  rewrite !primaryKey_app, !caseKey_app, Ch1, Ch2, Cm1, Cm2.
  rewrite <- !app_assoc.
  rewrite compareWeights_app by congruence.
  rewrite (twoDigits_primaryKey h1 h2) by lia.
  change (primaryKey ":") with [primaryWeight ":"].
  cbn [app compareWeights]. rewrite Nat.compare_refl.
  rewrite compareWeights_app by congruence.
  rewrite (twoDigits_primaryKey m1 m2) by lia.
  rewrite compareWeights_refl.
  rewrite <- (minutes_compare h1 m1 h2 m2) by assumption.
  destruct (h1 ?= h2); [|reflexivity|reflexivity].
  destruct (m1 ?= m2); reflexivity.
Qed.

(** On canonical times collation and comparison of code units agree. *)
Lemma canonical_collate a b :
  Spec.isCanonicalTime a -> Spec.isCanonicalTime b ->
  collate a b = compareCodeUnits a b.
Proof.
  intros (h1 & m1 & Hh1 & Hm1 & ->) (h2 & m2 & Hh2 & Hm2 & ->).
  rewrite canonicalTime_collate, canonicalTime_compare by assumption.
  reflexivity.
Qed.

(** [localeCompare] of canonical times in the words of the specification. *)
Lemma localeCompare_cases a b :
  Spec.isCanonicalTime a -> Spec.isCanonicalTime b ->
  (localeCompare a b = -1 /\ Spec.lexLt a b)
  \/ (localeCompare a b = 0 /\ a = b)
  \/ (localeCompare a b = 1 /\ Spec.lexLt b a).
Proof.
  intros Ha Hb. unfold localeCompare. rewrite (canonical_collate a b Ha Hb).
  destruct (compareCodeUnits a b) eqn:E.
  - right. left. split; [reflexivity | apply compareCodeUnits_eq, E].
  - left. split; [reflexivity | apply compareCodeUnits_lexLt, E].
  - right. right. split; [reflexivity|]. apply compareCodeUnits_lexLt.
    rewrite compareCodeUnits_antisym, E. reflexivity.
Qed.

(** *** The comparator *)

Lemma priority_weight t : PRIORITY_ORDER (priorityOrLow t) = Spec.weight (priority t).
Proof. unfold priorityOrLow. destruct (priority t) as [[| |]|]; reflexivity. Qed.

(** The comparator puts [a] no later than [b] when the time of [a]
    collates first, or the times collate equal and the weight of [a] is
    higher, or those are equal too and [a] was created no later. *)
Lemma compareTasks_cases a b :
  taskLe a b <->
  collate (time a) (time b) = Lt
  \/ (collate (time a) (time b) = Eq
      /\ (Spec.weight (priority a) > Spec.weight (priority b)
          \/ (Spec.weight (priority a) = Spec.weight (priority b)
              /\ createdAt a <= createdAt b))).
Proof.
  unfold taskLe, precedes, compareTasks, localeCompare. cbv zeta.
  rewrite !priority_weight.
  destruct (collate (time a) (time b)); cbn [Z.eqb negb].
  - destruct (Z.eqb_spec (Spec.weight (priority a)) (Spec.weight (priority b)))
      as [Ew|Ew]; cbn [negb].
    + split.
      * intros Hc. right. split; [reflexivity|]. right. split; [exact Ew | lia].
      * intros [Hlt|[_ [Hw|[_ Hc]]]]; [discriminate|lia|lia].
    + split.
      * intros Hc. right. split; [reflexivity|]. left. lia.
      * intros [Hlt|[_ [Hw|[Hw _]]]]; [discriminate|lia|contradiction].
  - split; [intros _; left; reflexivity | lia].
  - split; [lia|]. intros [H|[H _]]; discriminate.
Qed.

Lemma taskLe_total a b : taskLe a b \/ taskLe b a.
Proof.
  rewrite !compareTasks_cases. rewrite (collate_antisym (time a) (time b)).
  destruct (collate (time a) (time b)); cbn [CompOpp].
  - destruct (Z.lt_total (Spec.weight (priority a)) (Spec.weight (priority b)))
      as [Hw|[Hw|Hw]].
    + right. right. split; [reflexivity|]. left. lia.
    + destruct (Z.le_ge_cases (createdAt a) (createdAt b)).
      * left. right. split; [reflexivity|]. right. split; assumption.
      * right. right. split; [reflexivity|]. right. split; [auto | lia].
    + left. right. split; [reflexivity|]. left. lia.
  - left. left. reflexivity.
  - right. left. reflexivity.
Qed.

Lemma taskLe_trans a b c : taskLe a b -> taskLe b c -> taskLe a c.
Proof.
  rewrite !compareTasks_cases.
  intros [H1|[E1 H1]] [H2|[E2 H2]].
  - left. exact (collate_lt_trans _ _ _ H1 H2).
  - left. rewrite <- (collate_eq_right _ _ _ E2). exact H1.
  - left. rewrite (collate_eq_left _ _ _ E1). exact H2.
  - right. split; [|lia].
    rewrite (collate_eq_left _ _ _ E1). exact E2.
Qed.

(** On canonical times the comparator puts [a] no later than [b] exactly
    when the order of the specification does. *)
Lemma compareTasks_inOrder a b :
  Spec.isCanonicalTime (time a) -> Spec.isCanonicalTime (time b) ->
  (taskLe a b <-> Spec.inOrder a b).
Proof.
  intros Ha Hb. rewrite compareTasks_cases. unfold Spec.inOrder.
  rewrite (canonical_collate _ _ Ha Hb), compareCodeUnits_lexLt.
  split.
  - intros [H|[E H]]; [left; exact H|].
    right. split; [apply compareCodeUnits_eq, E | exact H].
  - intros [H|[E H]]; [left; exact H|].
    right. split; [rewrite E; apply compareCodeUnits_refl | exact H].
Qed.

(** Tasks tied on the three keys compare equal. *)
Lemma tied_compare_equal t x y :
  Spec.tied t x = true -> Spec.tied t y = true -> compareTasks x y = 0.
Proof.
  unfold Spec.tied. intros Hx Hy.
  apply andb_true_iff in Hx as [Hx Hxc]. apply andb_true_iff in Hx as [Hxt Hxw].
  apply andb_true_iff in Hy as [Hy Hyc]. apply andb_true_iff in Hy as [Hyt Hyw].
  apply String.eqb_eq in Hxt, Hyt. apply Z.eqb_eq in Hxw, Hxc, Hyw, Hyc.
  unfold compareTasks. cbv zeta. rewrite !priority_weight.
  unfold localeCompare. rewrite <- Hxt, <- Hyt, collate_refl.
  cbn [Z.eqb negb].
  replace (Spec.weight (priority x) =? Spec.weight (priority y)) with true
    by (symmetry; apply Z.eqb_eq; lia).
  cbn [negb]. lia.
Qed.

(** *** The sortedness check *)

Lemma outOfOrder_compare prev curr :
  outOfOrder prev curr = negb (compareTasks prev curr <=? 0).
Proof.
  unfold outOfOrder, compareTasks, localeCompare. cbv zeta.
  destruct (collate (time prev) (time curr)); try reflexivity.
  cbn [Z.gtb Z.compare Z.eqb negb].
  destruct (Z.eqb_spec (PRIORITY_ORDER (priorityOrLow prev))
                       (PRIORITY_ORDER (priorityOrLow curr))) as [Ew|Ew]; cbn [negb andb].
  - rewrite Ew, Z.ltb_irrefl, Z.gtb_ltb.
    destruct (Z.ltb_spec (createdAt curr) (createdAt prev));
      destruct (Z.leb_spec (createdAt prev - createdAt curr) 0); try reflexivity; lia.
  - destruct (Z.ltb_spec (PRIORITY_ORDER (priorityOrLow prev))
                         (PRIORITY_ORDER (priorityOrLow curr)));
      destruct (Z.leb_spec (PRIORITY_ORDER (priorityOrLow curr)
                            - PRIORITY_ORDER (priorityOrLow prev)) 0);
      try reflexivity; lia.
Qed.

Lemma isTaskListSorted_Sorted l :
  isTaskListSorted l = true <-> Sorted taskLe l.
Proof.
  induction l as [|prev [|curr rest] IH].
  - split; [constructor | reflexivity].
  - split; [repeat constructor | reflexivity].
  - change (isTaskListSorted (prev :: curr :: rest))
      with (if outOfOrder prev curr then false else isTaskListSorted (curr :: rest)).
    rewrite outOfOrder_compare.
    destruct (Z.leb_spec (compareTasks prev curr) 0) as [H|H]; cbn [negb].
    + rewrite IH. split.
      * intros Hs. constructor; [exact Hs | constructor; exact H].
      * intros Hs. inversion Hs; assumption.
    + split; [discriminate|].
      intros Hs. inversion Hs as [|? ? _ Hh]. inversion Hh as [|? ? Hle].
      unfold taskLe, precedes in Hle. lia.
Qed.

Lemma isTaskListSorted_StronglySorted l :
  isTaskListSorted l = true <-> StronglySorted taskLe l.
Proof.
  rewrite isTaskListSorted_Sorted. split.
  - apply Sorted_StronglySorted. intros a b c. apply taskLe_trans.
  - apply StronglySorted_Sorted.
Qed.

Lemma sortTasks_sorted l : StronglySorted taskLe (sortTasks l).
Proof.
  apply SortFacts.sort_sorted; [apply taskLe_total | apply taskLe_trans].
Qed.

Lemma isTaskListSorted_sortTasks l : isTaskListSorted (sortTasks l) = true.
Proof. apply isTaskListSorted_StronglySorted, sortTasks_sorted. Qed.

Lemma isTaskListSorted_filter f l :
  isTaskListSorted l = true -> isTaskListSorted (filter f l) = true.
Proof.
  rewrite !isTaskListSorted_StronglySorted. apply SortFacts.StronglySorted_filter.
Qed.

Lemma StronglySorted_impl {A : Type} (R S : A -> A -> Prop) l :
  (forall x y, R x y -> S x y) -> StronglySorted R l -> StronglySorted S l.
Proof.
  intros HRS. induction 1 as [|x rest Hs IH Hx]; constructor; [exact IH|].
  eapply Forall_impl; [|exact Hx]. intros y. apply HRS.
Qed.

Lemma StronglySorted_impl_on {A : Type} (P : A -> Prop) (R S : A -> A -> Prop) l :
  (forall x y, P x -> P y -> R x y -> S x y) ->
  Forall P l -> StronglySorted R l -> StronglySorted S l.
Proof.
  intros HRS HP. induction 1 as [|x rest Hs IH Hx]; [constructor|].
  inversion HP as [|? ? Px Prest]; subst.
  constructor; [exact (IH Prest)|].
  rewrite Forall_forall in *. intros y Hy. apply HRS; auto.
Qed.

(** C2, as the code has it.  [sortTasks] rearranges any list of tasks, and
    tasks tied on all three keys keep their original relative order.  When
    the [time] strings are canonical HH:MM strings, every task of the
    result stands before every later one in the order: ascending by
    lexicographic comparison of [time]; for equal [time], descending by
    priority weight (high 3, medium 2, low 1, missing 1); for equal [time]
    and weight, ascending by [createdAt].  Tasks at times 14:00, 09:00,
    12:00 come out at 09:00, 12:00, 14:00. *)
Theorem sortTasks_total_order_and_stability :
  (forall tasks,
     Permutation tasks (sortTasks tasks)
     /\ (Forall (fun task => Spec.isCanonicalTime (time task)) tasks ->
         StronglySorted Spec.inOrder (sortTasks tasks))
     /\ (forall t, filter (Spec.tied t) (sortTasks tasks) = filter (Spec.tied t) tasks))
  /\ (forall a b c,
        time a = "14:00" -> time b = "09:00" -> time c = "12:00" ->
        map time (sortTasks [a; b; c]) = ["09:00"; "12:00"; "14:00"]).
Proof.
  split.
  - intros tasks. split; [|split].
    + apply SortFacts.sort_permutation.
    + intros Hcanonical.
      apply (StronglySorted_impl_on
               (fun task => Spec.isCanonicalTime (time task)) taskLe).
      * intros x y Hx Hy. apply compareTasks_inOrder; assumption.
      * apply (Permutation_Forall (SortFacts.sort_permutation compareTasks tasks)).
        exact Hcanonical.
      * apply sortTasks_sorted.
    + intros t. apply SortFacts.sort_stable. apply tied_compare_equal.
  - intros a b c Ha Hb Hc.
    assert (Hbc : compareTasks b c = -1)
      by (unfold compareTasks; rewrite Hb, Hc; reflexivity).
    assert (Hab : compareTasks a b = 1)
      by (unfold compareTasks; rewrite Ha, Hb; reflexivity).
    assert (Hac : compareTasks a c = 1)
      by (unfold compareTasks; rewrite Ha, Hc; reflexivity).
    unfold sortTasks. cbn [JsArray.sort JsArray.insertSorted].
    rewrite Hbc. cbn [Z.leb Z.compare JsArray.insertSorted].
    rewrite Hab. cbn [Z.leb Z.compare JsArray.insertSorted].
    rewrite Hac. cbn [Z.leb Z.compare JsArray.insertSorted map].
    rewrite Ha, Hb, Hc. reflexivity.
Qed.

Lemma sortTasks_total_order_and_stability_witness :
  StronglySorted Spec.inOrder (sortTasks Spec.exampleTasks)
  /\ map time (sortTasks Spec.exampleTasks) = ["09:00"; "12:00"; "14:00"].
Proof.
  split.
  - apply (proj1 (proj2 (proj1 sortTasks_total_order_and_stability Spec.exampleTasks))).
    repeat constructor.
    + exists 14, 0. repeat split; try lia.
    + exists 9, 0. repeat split; try lia.
    + exists 12, 0. repeat split; try lia.
  - exact (proj2 sortTasks_total_order_and_stability Spec.taskA Spec.taskB Spec.taskC
             eq_refl eq_refl eq_refl).
Defined.

(** C2 as stated fails on times that are not of one shape: collation puts
    the colon before the digits, so the task at 1:00 comes out before the
    task at 10:00, against the lexicographic comparison of the two
    strings. *)
Lemma sortTasks_collates_times :
  map time (sortTasks [Spec.taskAtTen; Spec.taskAtOne]) = ["1:00"; "10:00"]
  /\ Spec.lexLt "10:00" "1:00"
  /\ ~ StronglySorted Spec.inOrder (sortTasks [Spec.taskAtTen; Spec.taskAtOne]).
Proof.
  split; [vm_compute; reflexivity|]. split.
  - apply compareCodeUnits_lexLt. vm_compute. reflexivity.
  - change (sortTasks [Spec.taskAtTen; Spec.taskAtOne])
      with [Spec.taskAtOne; Spec.taskAtTen].
    intros Hs. inversion Hs as [|? ? _ Hall]; subst.
    inversion Hall as [|? ? Hin _]; subst.
    destruct Hin as [Hlt|[Heq _]].
    + apply compareCodeUnits_lexLt in Hlt. vm_compute in Hlt. discriminate.
    + vm_compute in Heq. discriminate.
Qed.

End TaskFacts.

(** ** The validator *)

Module ValidationFacts.
Import JsString Types TimeUtils ValidationUtils ProofNotions JsStringFacts TimeFacts.

Lemma trim_empty s : isEmpty s = true -> trim s = "".
Proof. intros H. apply isEmpty_true in H. subst. reflexivity. Qed.

(** Parsing trims first, so trimming beforehand changes nothing. *)
Lemma parseTime_trim s : parseTime (trim s) = parseTime s.
Proof.
  unfold parseTime. rewrite trim_idempotent, <- !isEmpty_eqb.
  destruct (isEmpty s) eqn:Hs.
  - rewrite (trim_empty _ Hs). reflexivity.
  - destruct (isEmpty (trim s)); reflexivity.
Qed.

Lemma canonicalTime_trim h m :
  0 <= h <= 23 -> 0 <= m <= 59 ->
  (trim (Spec.canonicalTime h m) =? "")%string = false.
Proof.
  intros Hh Hm.
  assert (Hall : checkAll 24 60 (fun h m =>
            negb (trim (Spec.canonicalTime h m) =? "")%string) = true)
    by (vm_compute; reflexivity).
  apply negb_true_iff, (checkAll_sound _ _ _ Hall); simpl; lia.
Qed.

Lemma validateTimeField_canonical c :
  Spec.isCanonicalTime c -> validateTimeField (JsStr c) = [].
Proof.
  intros (h & m & Hh & Hm & ->). unfold validateTimeField.
  rewrite canonicalTime_not_empty, canonicalTime_trim, parseTime_canonical
    by assumption.
  reflexivity.
Qed.

Lemma validateTimeField_unparsed s :
  success (parseTime s) = false -> validateTimeField (JsStr (trim s)) <> [].
Proof.
  intros H. unfold validateTimeField.
  destruct (isEmpty (trim s) || (trim (trim s) =? "")%string); [discriminate|].
  rewrite parseTime_trim, H. discriminate.
Qed.

Lemma sanitize_time_parsed fd c :
  parseTime (trimmedOrEmpty (formTime fd)) = parsed c -> isEmpty c = false ->
  formTime (sanitizeTaskFormData fd) = JsStr c.
Proof.
  intros H Hc. unfold sanitizeTaskFormData. cbv zeta. rewrite H.
  unfold parsed. cbn [time success formTime andb]. rewrite Hc. reflexivity.
Qed.

Lemma sanitize_time_unparsed fd :
  success (parseTime (trimmedOrEmpty (formTime fd))) = false ->
  formTime (sanitizeTaskFormData fd) = JsStr (trimmedOrEmpty (formTime fd)).
Proof.
  intros H. unfold sanitizeTaskFormData. cbv zeta. rewrite H. cbn [formTime andb].
  destruct (time (parseTime (trimmedOrEmpty (formTime fd)))); reflexivity.
Qed.

Lemma trimmedOrEmpty_trim v : trim (trimmedOrEmpty v) = trimmedOrEmpty v.
Proof. destruct v; try reflexivity. apply trim_idempotent. Qed.

Lemma isValid_iff fd :
  isValid (validateAndSanitizeTaskFormData fd) = true
  <-> errors (validateAndSanitizeTaskFormData fd) = [].
Proof.
  unfold validateAndSanitizeTaskFormData. cbn [isValid errors].
  destruct (validateTaskFormData (sanitizeTaskFormData fd)); simpl; split;
    intros H; try reflexivity; discriminate.
Qed.

(** C7. [validateAndSanitizeTaskFormData] validates the sanitized data:
    its errors are those of [validateTaskFormData] on
    [sanitizeTaskFormData formData].  Sanitizing trims time and title; when
    the trimmed time parses, the time becomes the canonical string the
    parser returns and the time field passes validation; when it does not
    parse, the trimmed time is kept and validation fails.  [isValid] is
    true exactly when there is no error.  With time "  9:30 AM  " the
    sanitized time is 09:30 and the form is valid. *)
Theorem validation_runs_on_sanitized_data :
  (forall fd,
     sanitizedData (validateAndSanitizeTaskFormData fd) = sanitizeTaskFormData fd
     /\ errors (validateAndSanitizeTaskFormData fd)
        = validateTaskFormData (sanitizeTaskFormData fd)
     /\ (isValid (validateAndSanitizeTaskFormData fd) = true
         <-> errors (validateAndSanitizeTaskFormData fd) = [])
     /\ formTitle (sanitizeTaskFormData fd) = JsStr (trimmedOrEmpty (formTitle fd))
     /\ formPriority (sanitizeTaskFormData fd) = formPriority fd)
  /\ (forall s, parseTime (trim s) = parseTime s)
  /\ (forall fd,
        success (parseTime (trimmedOrEmpty (formTime fd))) = true ->
        exists c, Spec.isCanonicalTime c
          /\ parseTime (trimmedOrEmpty (formTime fd)) = parsed c
          /\ formTime (sanitizeTaskFormData fd) = JsStr c
          /\ validateTimeField (formTime (sanitizeTaskFormData fd)) = []
          /\ errors (validateAndSanitizeTaskFormData fd)
             = (validateTitleField (formTitle (sanitizeTaskFormData fd))
                ++ validatePriorityField (formPriority fd))%list)
  /\ (forall fd,
        success (parseTime (trimmedOrEmpty (formTime fd))) = false ->
        formTime (sanitizeTaskFormData fd) = JsStr (trimmedOrEmpty (formTime fd))
        /\ validateTimeField (formTime (sanitizeTaskFormData fd)) <> []
        /\ isValid (validateAndSanitizeTaskFormData fd) = false)
  /\ validateAndSanitizeTaskFormData Spec.paddedForm
     = {| sanitizedData := {| formTime := JsStr "09:30"; formTitle := JsStr "Standup";
                              formPriority := JsStr "medium" |};
          errors := [];
          isValid := true |}.
Proof.
  split; [|split; [|split; [|split]]].
  - intros fd. repeat split; try apply isValid_iff.
  - apply parseTime_trim.
  - intros fd H.
    destruct (parseTime_success_canonical _ H) as (c & Hc & E).
    assert (Hne : isEmpty c = false)
      by (destruct Hc as (h & m & _ & _ & ->); reflexivity).
    pose proof (sanitize_time_parsed fd c E Hne) as Hs.
    exists c. repeat split; try assumption.
    + rewrite Hs. apply validateTimeField_canonical, Hc.
    + unfold validateAndSanitizeTaskFormData. cbn [errors].
      unfold validateTaskFormData. rewrite Hs, (validateTimeField_canonical c Hc).
      reflexivity.
  - intros fd H. pose proof (sanitize_time_unparsed fd H) as Hs.
    assert (Hv : validateTimeField (formTime (sanitizeTaskFormData fd)) <> []).
    { rewrite Hs, <- trimmedOrEmpty_trim. apply validateTimeField_unparsed.
      exact H. }
    repeat split; try assumption.
    unfold validateAndSanitizeTaskFormData. cbn [isValid].
    unfold validateTaskFormData.
    destruct (validateTimeField (formTime (sanitizeTaskFormData fd)));
      [contradiction | reflexivity].
  - vm_compute. reflexivity.
Qed.

Lemma validation_runs_on_sanitized_data_witness :
  (exists c, Spec.isCanonicalTime c
     /\ formTime (sanitizeTaskFormData Spec.paddedForm) = JsStr c)
  /\ isValid (validateAndSanitizeTaskFormData Spec.invalidForm) = false.
Proof.
  split.
  - destruct (proj1 (proj2 (proj2 validation_runs_on_sanitized_data))
                Spec.paddedForm ltac:(vm_compute; reflexivity))
      as (c & Hc & _ & Hs & _).
    exists c. split; assumption.
  - apply (proj1 (proj2 (proj2 (proj2 validation_runs_on_sanitized_data)))
             Spec.invalidForm ltac:(vm_compute; reflexivity)).
Defined.

(** C10. [validateTitleField] returns at most one error and never the
    message 'Title must be at least 1 character long': a title that is not
    empty after trimming has length at least one, so the test guarding that
    message is false whenever it is reached. *)
Theorem validateTitleField_single_error :
  (forall v,
     (List.length (validateTitleField v) <= 1)%nat
     /\ forall e, In e (validateTitleField v) ->
          message e <> "Title must be at least 1 character long")
  /\ (forall s, (trim s =? "")%string = false ->
        (String.length (trim s) <? 1)%nat = false).
Proof.
  assert (Hdead : forall s, (trim s =? "")%string = false ->
                    (String.length (trim s) <? 1)%nat = false).
  { intros s H. destruct (trim s); [discriminate | reflexivity]. }
  split; [|exact Hdead].
  intros v. destruct v as [| |s|];
    try (split; [simpl; lia | intros e [<-|[]]; discriminate]).
  unfold validateTitleField. cbv zeta.
  destruct (trim s =? "")%string eqn:E.
  - split; [simpl; lia | intros e [<-|[]]; discriminate].
  - rewrite (Hdead s E).
    destruct (200 <? String.length (trim s))%nat.
    + split; [simpl; lia | intros e [<-|[]]; discriminate].
    + split; [simpl; lia | intros e []].
Qed.

Lemma validateTitleField_single_error_witness :
  (String.length (trim "  plan  ") <? 1)%nat = false.
Proof.
  exact (proj2 validateTitleField_single_error "  plan  " eq_refl).
Defined.

End ValidationFacts.

(** ** The task repository *)

Module RepositoryFacts.
Import JsString Types ValidationUtils TaskUtils Tasks ProofNotions TaskFacts.

Implicit Types (h : TasksHook) (json : Json).

Lemma findIndex_none {A : Type} (p : A -> bool) l :
  JsArray.findIndex p l = None <-> existsb p l = false.
Proof.
  induction l as [|x rest IH]; simpl; [tauto|].
  destruct (p x); simpl; [split; discriminate|].
  destruct (JsArray.findIndex p rest); split; intros H; try discriminate.
  - apply IH in H. discriminate.
  - apply IH. reflexivity.
  - reflexivity.
Qed.

Lemma findIndex_in_range {A : Type} (p : A -> bool) l i :
  JsArray.findIndex p l = Some i -> exists x, nth_error l i = Some x /\ p x = true.
Proof.
  revert i. induction l as [|x rest IH]; simpl; [discriminate|].
  intros i. destruct (p x) eqn:Hx.
  - intros [= <-]. exists x. split; [reflexivity | exact Hx].
  - destruct (JsArray.findIndex p rest) as [j|]; [|discriminate].
    intros [= <-]. apply IH. reflexivity.
Qed.

(** *** The functions handed to [setTasks] *)

(** What the function of [updateTask] returns, by whether the id exists. *)
Lemma updateUpdater_cases taskId sanitized tasks :
  (taskExists tasks taskId = false
   /\ updateUpdater taskId sanitized tasks = inl (TaskNotFound taskId))
  \/ (taskExists tasks taskId = true
      /\ exists i existing,
           JsArray.findIndex (fun task => (id task =? taskId)%string) tasks = Some i
           /\ nth_error tasks i = Some existing
           /\ id existing = taskId
           /\ updateUpdater taskId sanitized tasks
              = inr (sortTasks (JsArray.assignAt tasks i
                                  (updatedTaskOf existing sanitized)))).
Proof.
  unfold updateUpdater, taskExists.
  destruct (JsArray.findIndex (fun task => (id task =? taskId)%string) tasks)
    as [i|] eqn:Hi.
  - right. destruct (findIndex_in_range _ _ _ Hi) as (x & Hx & Hp).
    split.
    + destruct (existsb (fun task => (id task =? taskId)%string) tasks) eqn:E;
        [reflexivity|].
      apply findIndex_none in E. congruence.
    + exists i, x. rewrite Hx. apply String.eqb_eq in Hp. auto.
  - left. split; [apply findIndex_none, Hi | reflexivity].
Qed.

Lemma deleteUpdater_cases taskId tasks :
  (taskExists tasks taskId = false
   /\ deleteUpdater taskId tasks = inl (TaskNotFound taskId))
  \/ (taskExists tasks taskId = true
      /\ deleteUpdater taskId tasks
         = inr (filter (fun task => negb (id task =? taskId)%string) tasks)).
Proof.
  unfold deleteUpdater, taskExists.
  destruct (existsb (fun task => (id task =? taskId)%string) tasks);
    [right | left]; split; reflexivity.
Qed.

Lemma taskExists_filter_same tasks j :
  taskExists (filter (fun task => negb (id task =? j)%string) tasks) j = false.
Proof.
  unfold taskExists. induction tasks as [|t rest IH]; [reflexivity|].
  simpl. destruct (id t =? j)%string eqn:E; simpl; [exact IH|].
  rewrite E. exact IH.
Qed.

Lemma taskExists_In tasks i :
  taskExists tasks i = true <-> exists t, In t tasks /\ id t = i.
Proof.
  unfold taskExists. rewrite existsb_exists. split.
  - intros (t & Hin & E). apply String.eqb_eq in E. eauto.
  - intros (t & Hin & E). exists t. split; [exact Hin | apply String.eqb_eq, E].
Qed.

Lemma In_assignAt (tasks : list Task) i existing updated :
  nth_error tasks i = Some existing -> In updated (JsArray.assignAt tasks i updated).
Proof.
  revert i. induction tasks as [|t rest IH]; intros [|i]; simpl; try discriminate.
  - intros _. left. reflexivity.
  - intros H. right. apply (IH _ H).
Qed.

Lemma sortTasks_permutation l : Permutation l (sortTasks l).
Proof. apply SortFacts.sort_permutation. Qed.

(** The id a task was updated under still exists afterwards. *)
Lemma updateUpdater_keeps_id taskId sanitized tasks next :
  updateUpdater taskId sanitized tasks = inr next -> taskExists next taskId = true.
Proof.
  destruct (updateUpdater_cases taskId sanitized tasks)
    as [[_ ->]|[_ (i & x & _ & Hnth & Hid & ->)]]; [discriminate|].
  intros [= <-]. apply taskExists_In.
  exists (updatedTaskOf x sanitized). split; [|exact Hid].
  apply (Permutation_in _ (sortTasks_permutation _)), (In_assignAt _ _ x), Hnth.
Qed.

(** *** The render that follows a call of [setTasks] *)

Lemma setTasks_accepted json updater h storage' :
  LocalStorage.setItem (LocalStorage.localStorage h) STORAGE_KEY "undefined"
  = inr storage' ->
  setTasks json (Updater updater) h
  = Returned
      match updater (LocalStorage.storedValue h) with
      | inr next => LocalStorage.Shown (LocalStorage.mkHook _ next None storage')
      | inl e => LocalStorage.Unmounted e storage'
      end.
Proof.
  intros Hw. unfold setTasks, LocalStorage.setValueWith. rewrite Hw. reflexivity.
Qed.

Lemma setTasks_refused json updater h err :
  LocalStorage.setItem (LocalStorage.localStorage h) STORAGE_KEY "undefined"
  = inl err ->
  setTasks json (Updater updater) h
  = Returned
      match updater (LocalStorage.storedValue h) with
      | inr next =>
          match updater next with
          | inr next' =>
              LocalStorage.Shown
                (LocalStorage.mkHook _ next'
                   (Some (LocalStorage.saveErrorMessage err))
                   (LocalStorage.localStorage h))
          | inl e => LocalStorage.Unmounted e (LocalStorage.localStorage h)
          end
      | inl e => LocalStorage.Unmounted e (LocalStorage.localStorage h)
      end.
Proof.
  intros Hw. unfold setTasks, LocalStorage.setValueWith. rewrite Hw. reflexivity.
Qed.


Lemma addTask_valid json fd newId now h :
  isValid (validateAndSanitizeTaskFormData fd) = true ->
  addTask json fd newId now h
  = setTasks json
      (Updater (addUpdater
         (newTaskOf (sanitizedData (validateAndSanitizeTaskFormData fd)) newId now))) h.
Proof. intros H. unfold addTask. cbv zeta. rewrite H. reflexivity. Qed.

Lemma updateTask_valid json taskId fd h :
  isValid (validateAndSanitizeTaskFormData fd) = true ->
  updateTask json taskId fd h
  = setTasks json
      (Updater (updateUpdater taskId
         (sanitizedData (validateAndSanitizeTaskFormData fd)))) h.
Proof. intros H. unfold updateTask. cbv zeta. rewrite H. reflexivity. Qed.

Lemma addTask_invalid json fd newId now h :
  isValid (validateAndSanitizeTaskFormData fd) = false ->
  addTask json fd newId now h
  = Threw (ValidationFailed (errors (validateAndSanitizeTaskFormData fd))) h.
Proof. intros H. unfold addTask. cbv zeta. rewrite H. reflexivity. Qed.

Lemma updateTask_invalid json taskId fd h :
  isValid (validateAndSanitizeTaskFormData fd) = false ->
  updateTask json taskId fd h
  = Threw (ValidationFailed (errors (validateAndSanitizeTaskFormData fd))) h.
Proof. intros H. unfold updateTask. cbv zeta. rewrite H. reflexivity. Qed.

(** *** What every rendered collection satisfies *)

Section Invariant.
Variable json : Json.
Variable P : list Task -> Prop.
Hypothesis P_empty : P [].

Lemma stored_after_write h text storage' value e :
  LocalStorage.setItem (LocalStorage.localStorage h) STORAGE_KEY text = inr storage' ->
  (forall tasks, JSON_parse json text = Some tasks -> P tasks) ->
  storedCollection json P (LocalStorage.mkHook _ value e storage').
Proof.
  intros Hw Hp item tasks Hg Hi. cbn [LocalStorage.localStorage] in Hg.
  unfold LocalStorage.setItem in Hw.
  destruct (LocalStorage.setItemFault (LocalStorage.localStorage h) STORAGE_KEY text);
    [discriminate|].
  injection Hw as <-. unfold LocalStorage.getItem in Hg.
  cbn [LocalStorage.withItems LocalStorage.getItemFault LocalStorage.items] in Hg.
  destruct (LocalStorage.getItemFault (LocalStorage.localStorage h) STORAGE_KEY);
    [discriminate|].
  rewrite String.eqb_refl in Hg. injection Hg as <-. apply Hp, Hi.
Qed.

Lemma stored_same_store h value e :
  storedCollection json P h ->
  storedCollection json P
    (LocalStorage.mkHook _ value e (LocalStorage.localStorage h)).
Proof. intros H item tasks Hg Hi. exact (H item tasks Hg Hi). Qed.

Lemma resetCorrupted_keeps h :
  storedCollection json P h ->
  P (LocalStorage.storedValue (LocalStorage.resetCorrupted (list Task) STORAGE_KEY [] h))
  /\ storedCollection json P
       (LocalStorage.resetCorrupted (list Task) STORAGE_KEY [] h).
Proof.
  intros Hs. unfold LocalStorage.resetCorrupted.
  destruct (LocalStorage.removeItem (LocalStorage.localStorage h) STORAGE_KEY)
    as [e|storage'] eqn:Hr.
  - split; [exact P_empty | apply stored_same_store, Hs].
  - split; [exact P_empty|].
    intros item tasks Hg Hi. cbn [LocalStorage.localStorage] in Hg.
    unfold LocalStorage.removeItem in Hr.
    destruct (LocalStorage.removeItemFault (LocalStorage.localStorage h) STORAGE_KEY);
      [discriminate|].
    injection Hr as <-. unfold LocalStorage.getItem in Hg.
    cbn [LocalStorage.withItems LocalStorage.getItemFault LocalStorage.items] in Hg.
    destruct (LocalStorage.getItemFault (LocalStorage.localStorage h) STORAGE_KEY);
      [discriminate|].
    rewrite String.eqb_refl in Hg. discriminate.
Qed.

Lemma loadEffect_keeps h :
  P (LocalStorage.storedValue h) -> storedCollection json P h ->
  P (LocalStorage.storedValue
       (LocalStorage.loadEffect (list Task) (JSON_parse json) STORAGE_KEY [] h))
  /\ storedCollection json P
       (LocalStorage.loadEffect (list Task) (JSON_parse json) STORAGE_KEY [] h).
Proof.
  intros Hp Hs. unfold LocalStorage.loadEffect.
  destruct (LocalStorage.getItem (LocalStorage.localStorage h) STORAGE_KEY)
    as [e|[item|]] eqn:Hg.
  - apply resetCorrupted_keeps, Hs.
  - destruct (negb (isEmpty item)); [|split; assumption].
    destruct (JSON_parse json item) as [tasks|] eqn:Hi.
    + split; [exact (Hs item tasks Hg Hi) | apply stored_same_store, Hs].
    + apply resetCorrupted_keeps, Hs.
  - split; assumption.
Qed.

Lemma rerenders_keep fuel h :
  P (LocalStorage.storedValue h) -> storedCollection json P h ->
  Forall (fun h' => P (LocalStorage.storedValue h')) (rerenders json fuel h).
Proof.
  unfold rerenders. revert h. induction fuel as [|fuel IH]; intros h Hp Hs;
    [constructor|].
  cbn [LocalStorage.rerenders].
  destruct (LocalStorage.loadSetsState (list Task) STORAGE_KEY h); [|constructor].
  destruct (loadEffect_keeps h Hp Hs) as [Hp' Hs'].
  constructor; [exact Hp' | apply IH; assumption].
Qed.

Lemma rendered_keeps fuel r :
  (forall h', r = LocalStorage.Shown h' ->
     P (LocalStorage.storedValue h') /\ storedCollection json P h') ->
  Forall (fun h' => P (LocalStorage.storedValue h')) (rendered json fuel (Returned r)).
Proof.
  intros H. destruct r as [h'|e storage]; [|constructor].
  destruct (H h' eq_refl) as [Hp Hs]. cbn [rendered].
  constructor; [exact Hp | apply rerenders_keep; assumption].
Qed.

(** A function that keeps [P] keeps it in every render, whether the store
    takes the write or not. *)
Lemma setTasks_keeps updater h fuel :
  (forall prev next, P prev -> updater prev = inr next -> P next) ->
  P (LocalStorage.storedValue h) -> storedCollection json P h ->
  Forall (fun h' => P (LocalStorage.storedValue h'))
    (rendered json fuel (setTasks json (Updater updater) h)).
Proof.
  intros Hu Hp Hs.
  destruct (LocalStorage.setItem (LocalStorage.localStorage h) STORAGE_KEY "undefined")
    as [err|storage'] eqn:Hw.
  - rewrite (setTasks_refused _ _ _ _ Hw). apply rendered_keeps.
    destruct (updater (LocalStorage.storedValue h)) as [e|next] eqn:E1;
      [discriminate|].
    destruct (updater next) as [e|next'] eqn:E2; [discriminate|].
    intros h' [= <-]. split; [|apply stored_same_store, Hs].
    cbn [LocalStorage.storedValue]. eauto.
  - rewrite (setTasks_accepted _ _ _ _ Hw). apply rendered_keeps.
    destruct (updater (LocalStorage.storedValue h)) as [e|next] eqn:E1;
      [discriminate|].
    intros h' [= <-]. split; [cbn [LocalStorage.storedValue]; eauto|].
    apply (stored_after_write h "undefined"); [exact Hw|].
    intros tasks Ht. rewrite (parse_undefined json) in Ht. discriminate.
Qed.

(** The same for a function that keeps [P] for the collection shown, when
    the store takes the write. *)
Lemma setTasks_accepted_keeps updater h fuel :
  acceptsUpdater h ->
  (forall next, updater (LocalStorage.storedValue h) = inr next -> P next) ->
  Forall (fun h' => P (LocalStorage.storedValue h'))
    (rendered json fuel (setTasks json (Updater updater) h)).
Proof.
  intros [storage' Hw] Hu.
  rewrite (setTasks_accepted _ _ _ _ Hw). apply rendered_keeps.
  destruct (updater (LocalStorage.storedValue h)) as [e|next] eqn:E1;
    [discriminate|].
  intros h' [= <-]. split; [cbn [LocalStorage.storedValue]; eauto|].
  apply (stored_after_write h "undefined"); [exact Hw|].
  intros tasks Ht. rewrite (parse_undefined json) in Ht. discriminate.
Qed.

Lemma clearAllTasks_shown h :
  exists e storage,
    clearAllTasks json h
    = Returned (LocalStorage.Shown (LocalStorage.mkHook _ [] e storage))
    /\ (storage = LocalStorage.localStorage h
        \/ LocalStorage.setItem (LocalStorage.localStorage h) STORAGE_KEY "[]"
           = inr storage).
Proof.
  unfold clearAllTasks, setTasks, LocalStorage.setValue. cbv zeta.
  rewrite (stringify_empty json). cbn [LocalStorage.localStorage].
  destruct (LocalStorage.setItem (LocalStorage.localStorage h) STORAGE_KEY "[]")
    as [err|storage'].
  - eexists _, _. split; [reflexivity | left; reflexivity].
  - eexists _, _. split; [reflexivity | right; reflexivity].
Qed.

Lemma clearAllTasks_keeps h fuel :
  storedCollection json P h ->
  Forall (fun h' => P (LocalStorage.storedValue h'))
    (rendered json fuel (clearAllTasks json h)).
Proof.
  intros Hs. destruct (clearAllTasks_shown h) as (e & storage & -> & Hst).
  apply rendered_keeps. intros h' [= <-]. split; [exact P_empty|].
  destruct Hst as [->|Hw]; [apply stored_same_store, Hs|].
  apply (stored_after_write h "[]"); [exact Hw|].
  intros tasks Ht. rewrite (parse_empty json) in Ht. injection Ht as <-.
  exact P_empty.
Qed.

End Invariant.







End RepositoryFacts.

(** ** The persistent store *)

Module StorageFacts.
Import JsString LocalStorage.

Section Hook.
Variable T : Type.
Variable JSON_parse : string -> option T.
Variable JSON_stringify : T -> Thrown + string.
Variable key : string.
Variable initialValue : T.



Lemma setValue_saved value h text storage' :
  JSON_stringify value = inr text ->
  setItem (localStorage h) key text = inr storage' ->
  setValue T JSON_stringify key value h
  = {| storedValue := value; error := None; localStorage := storage' |}.
Proof.
  intros Hs Hw. unfold setValue. cbv zeta. rewrite Hs. cbn [localStorage].
  rewrite Hw. reflexivity.
Qed.

Lemma setItem_stores storage text storage' :
  setItem storage key text = inr storage' -> items storage' key = Some text.
Proof.
  unfold setItem. destruct (setItemFault storage key text); [discriminate|].
  intros [= <-]. cbn. rewrite String.eqb_refl. reflexivity.
Qed.

Lemma removeItem_clears storage storage' :
  removeItem storage key = inr storage' -> items storage' key = None.
Proof.
  unfold removeItem. destruct (removeItemFault storage key); [discriminate|].
  intros [= <-]. cbn. rewrite String.eqb_refl. reflexivity.
Qed.

Lemma load_unreadable storage item :
  getItem storage key = inr (Some item) -> isEmpty item = false ->
  JSON_parse item = None ->
  useLocalStorage T JSON_parse key initialValue storage
  = resetCorrupted T key initialValue (mount T initialValue storage).
Proof.
  intros Hg Hi Hp. unfold useLocalStorage, loadEffect.
  cbn [localStorage mount]. rewrite Hg, Hi, Hp. reflexivity.
Qed.

End Hook.




(** C8, as the code has it. When the item under the key is a non-empty
    text that cannot be deserialized, the read removes the key from the
    store, reports the corrupted-data error and yields the default value;
    when the removal throws, it reports the inaccessible-store error
    instead, still with the default value and the store as it was.  When
    the key is absent, and likewise when it holds the empty text, the read
    yields the default value with no error and leaves the store as it
    was. *)
Theorem read_recovers_from_corrupted_data :
  forall (T : Type) (JSON_parse : string -> option T) (key : string)
         (initialValue : T) (storage : Storage),
    (forall item,
       getItem storage key = inr (Some item) -> item <> "" ->
       JSON_parse item = None ->
       (forall storage',
          removeItem storage key = inr storage' ->
          useLocalStorage T JSON_parse key initialValue storage
          = {| storedValue := initialValue; error := Some Spec.corrupted;
               localStorage := storage' |}
          /\ items storage' key = None)
       /\ (forall e,
             removeItem storage key = inl e ->
             useLocalStorage T JSON_parse key initialValue storage
             = {| storedValue := initialValue; error := Some Spec.inaccessible;
                  localStorage := storage |}))
    /\ (getItem storage key = inr None ->
        useLocalStorage T JSON_parse key initialValue storage
        = {| storedValue := initialValue; error := None; localStorage := storage |})
    /\ (getItem storage key = inr (Some "") ->
        useLocalStorage T JSON_parse key initialValue storage
        = {| storedValue := initialValue; error := None; localStorage := storage |}).
Proof.
  intros T JSON_parse key initialValue storage. split; [|split].
  - intros item Hg Hne Hp.
    assert (Hi : isEmpty item = false)
      by (destruct item; [exfalso; apply Hne; reflexivity | reflexivity]).
    rewrite (load_unreadable _ _ _ _ _ _ Hg Hi Hp).
    unfold resetCorrupted. cbn [localStorage mount]. split.
    + intros storage' Hr. rewrite Hr. split; [reflexivity|].
      exact (removeItem_clears _ _ _ Hr).
    + intros e Hr. rewrite Hr. reflexivity.
  - intros Hg. unfold useLocalStorage, loadEffect. cbn [localStorage mount].
    rewrite Hg. reflexivity.
  - intros Hg. unfold useLocalStorage, loadEffect. cbn [localStorage mount].
    rewrite Hg. reflexivity.
Qed.

Lemma read_recovers_from_corrupted_data_witness :
  error (useLocalStorage Z Spec.parseNumber "k" 0 (Spec.storeWith "k" "invalid-json{"))
  = Some Spec.corrupted
  /\ error (useLocalStorage Z Spec.parseNumber "k" 0
              (Spec.failingRemoval "k" "invalid-json{"))
     = Some Spec.inaccessible
  /\ error (useLocalStorage Z Spec.parseNumber "k" 0 Spec.emptyStore) = None.
Proof.
  pose proof (read_recovers_from_corrupted_data Z Spec.parseNumber "k" 0) as H.
  split; [|split].
  - destruct (H (Spec.storeWith "k" "invalid-json{")) as (Hc & _).
    destruct (Hc "invalid-json{" eq_refl ltac:(discriminate) eq_refl) as (Hr & _).
    destruct (Hr _ eq_refl) as (E & _). rewrite E. reflexivity.
  - destruct (H (Spec.failingRemoval "k" "invalid-json{")) as (Hc & _).
    destruct (Hc "invalid-json{" eq_refl ltac:(discriminate) eq_refl) as (_ & Hr).
    rewrite (Hr _ eq_refl). reflexivity.
  - destruct (H Spec.emptyStore) as (_ & Ha & _).
    rewrite (Ha eq_refl). reflexivity.
Defined.

(** C8, as stated, fails: an empty text under the key exists and cannot be
    deserialized, yet the read neither removes it nor reports an error. *)
Lemma read_ignores_empty_item :
  getItem (Spec.storeWith "k" "") "k" = inr (Some "")
  /\ Spec.parseNumber "" = None
  /\ error (useLocalStorage Z Spec.parseNumber "k" 0 (Spec.storeWith "k" "")) = None
  /\ items (localStorage (useLocalStorage Z Spec.parseNumber "k" 0
                            (Spec.storeWith "k" ""))) "k" = Some ""
  /\ storedValue (useLocalStorage Z Spec.parseNumber "k" 0 (Spec.storeWith "k" "")) = 0.
Proof. repeat split. Qed.

End StorageFacts.

(** ** More on the time parser *)

Module TimeExtras.
Import JsString TimeUtils ProofNotions JsStringFacts TimeFacts.

Lemma optionStringEqb_eq a b : optionStringEqb a b = true -> a = b.
Proof.
  destruct a, b; simpl; try discriminate; try reflexivity.
  intros H. apply String.eqb_eq in H. congruence.
Qed.

Lemma resultEqb_eq a b : resultEqb a b = true -> a = b.
Proof.
  unfold resultEqb. intros H.
  apply andb_true_iff in H as [H He]. apply andb_true_iff in H as [Hs Ht].
  apply Bool.eqb_prop in Hs. apply optionStringEqb_eq in Ht, He.
  destruct a, b; simpl in *; congruence.
Qed.

(** A failed parse carries one of the five messages and no time. *)
Lemma parseTime_failure_shape input :
  success (parseTime input) = false ->
  exists e, In e Spec.parseErrors /\ parseTime input = failure e.
Proof.
  unfold parseTime, Spec.parseErrors.
  destruct (isEmpty input); [intros _; eexists; split; [|reflexivity]; simpl; tauto|].
  destruct (trim input =? "")%string;
    [intros _; eexists; split; [|reflexivity]; simpl; tauto|].
  destruct (matchAmPm (trim input)) as [[[hourStr minuteStr] period]|].
  - destruct ((parseInt hourStr <? 1) || (parseInt hourStr >? 12));
      [intros _; eexists; split; [|reflexivity]; simpl; tauto|].
    destruct ((parseInt minuteStr <? 0) || (parseInt minuteStr >? 59));
      [intros _; eexists; split; [|reflexivity]; simpl; tauto|].
    discriminate.
  - destruct (matchTwentyFourHour (trim input)) as [[hourStr minuteStr]|];
      [|intros _; eexists; split; [|reflexivity]; simpl; tauto].
    destruct ((parseInt hourStr <? 0) || (parseInt hourStr >? 23));
      [intros _; eexists; split; [|reflexivity]; simpl; tauto|].
    destruct ((parseInt minuteStr <? 0) || (parseInt minuteStr >? 59));
      [intros _; eexists; split; [|reflexivity]; simpl; tauto|].
    discriminate.
Qed.

(** X1. Whatever the input, [parseTime] returns either a success that
    carries a canonical time and no error, or a failure that carries no
    time and one of five fixed messages. *)
Theorem parseTime_result_is_coherent :
  forall input,
    (exists t, Spec.isCanonicalTime t /\ parseTime input = parsed t)
    \/ (exists e, In e Spec.parseErrors /\ parseTime input = failure e).
Proof.
  intros input. destruct (success (parseTime input)) eqn:H.
  - left. apply parseTime_success_canonical, H.
  - right. apply parseTime_failure_shape, H.
Qed.

(** X2. The output of a successful parse is a fixed point of the parser:
    parsing it again returns it unchanged, and [isValidTimeFormat] accepts
    it. *)
Theorem parseTime_output_is_fixed_point :
  forall input t,
    parseTime input = parsed t ->
    parseTime t = parsed t /\ isValidTimeFormat t = true.
Proof.
  intros input t H.
  assert (Hs : success (parseTime input) = true) by (rewrite H; reflexivity).
  destruct (parseTime_success_canonical _ Hs) as (c & Hc & E).
  assert (c = t) by (rewrite E in H; unfold parsed in H; congruence). subst c.
  split.
  - destruct Hc as (h & m & Hh & Hm & ->). apply parseTime_canonical; assumption.
  - apply isValidTimeFormat_iff, Hc.
Qed.

Lemma parseTime_output_is_fixed_point_witness :
  parseTime "21:30" = parsed "21:30" /\ isValidTimeFormat "21:30" = true.
Proof.
  exact (parseTime_output_is_fixed_point "9:30 pm" "21:30" eq_refl).
Defined.

(** X3. The 24-hour grammar: an hour written with one or two digits, a
    colon and a minute of two digits parse to the canonical time when the
    hour is at most 23 and the minute at most 59; otherwise the hour is
    reported first, then the minute. *)
Theorem parseTime_twenty_four_hour :
  forall h m hs,
    0 <= h <= 99 -> 0 <= m <= 99 ->
    hs = Spec.plainDigits h \/ hs = Spec.twoDigits h ->
    parseTime (hs ++ ":" ++ Spec.twoDigits m) =
      if 23 <? h then
        failure "Hour must be between 00 and 23 for 24-hour format"
      else if 59 <? m then
        failure "Minutes must be between 00 and 59"
      else parsed (Spec.canonicalTime h m).
Proof.
  intros h m hs Hh Hm Hhs.
  assert (Hall : checkAll 100 100 (fun h m =>
            resultEqb (parseTime (Spec.plainDigits h ++ ":" ++ Spec.twoDigits m))
                      (twentyFourHourResult h m)
            && resultEqb (parseTime (Spec.twoDigits h ++ ":" ++ Spec.twoDigits m))
                         (twentyFourHourResult h m)) = true)
    by (vm_compute; reflexivity).
  pose proof (checkAll_sound _ _ _ Hall h m ltac:(simpl; lia) ltac:(simpl; lia)) as H.
  apply andb_true_iff in H as [H1 H2].
  apply resultEqb_eq in H1, H2.
  destruct Hhs; subst hs; [exact H1 | exact H2].
Qed.

Lemma parseTime_twenty_four_hour_witness :
  parseTime ("7" ++ ":" ++ Spec.twoDigits 5) = parsed "07:05".
Proof.
  exact (parseTime_twenty_four_hour 7 5 "7" ltac:(lia) ltac:(lia) (or_introl eq_refl)).
Defined.

(** *** White space around the input *)

Lemma trimEnd_whiteSpace ws : whiteSpaceOnly ws = true -> trimEnd ws = "".
Proof.
  unfold whiteSpaceOnly. induction ws as [|c r IH]; simpl; [reflexivity|].
  intros H. apply andb_true_iff in H as [Hc Hr].
  rewrite (IH Hr), Hc. reflexivity.
Qed.

Lemma trimEnd_padding s ws :
  whiteSpaceOnly ws = true -> trimEnd (s ++ ws) = trimEnd s.
Proof.
  intros H. induction s as [|c r IH]; simpl.
  - apply trimEnd_whiteSpace, H.
  - rewrite IH. reflexivity.
Qed.

Lemma trimStart_trimEnd s : trimStart (trimEnd s) = trimEnd (trimStart s).
Proof.
  induction s as [|c r IH]; [reflexivity|].
  simpl trimEnd at 1. simpl trimStart at 2.
  destruct (isWhiteSpace c) eqn:Hc.
  - cbn [andb]. destruct (isEmpty (trimEnd r)) eqn:He.
    + rewrite <- IH. apply isEmpty_true in He. rewrite He. reflexivity.
    + simpl. rewrite Hc. exact IH.
  - cbn [andb]. simpl. rewrite Hc. reflexivity.
Qed.

Lemma trim_padding ws1 s ws2 :
  whiteSpaceOnly ws1 = true -> whiteSpaceOnly ws2 = true ->
  trim (ws1 ++ s ++ ws2) = trim s.
Proof.
  intros H1 H2. unfold trim.
  rewrite (trimStart_whiteSpace ws1 (s ++ ws2) H1).
  rewrite <- !trimStart_trimEnd, trimEnd_padding by assumption.
  reflexivity.
Qed.

(** X4. [parseTime] ignores white space around its input, and an input of
    white space only (the empty string included) fails with 'Time is
    required'. *)
Theorem parseTime_ignores_surrounding_white_space :
  (forall ws1 s ws2,
     whiteSpaceOnly ws1 = true -> whiteSpaceOnly ws2 = true ->
     parseTime (ws1 ++ s ++ ws2) = parseTime s)
  /\ (forall ws, whiteSpaceOnly ws = true -> parseTime ws = failure "Time is required").
Proof.
  pose proof ValidationFacts.parseTime_trim as Htrim.
  split.
  - intros ws1 s ws2 H1 H2.
    rewrite <- (Htrim (ws1 ++ s ++ ws2)), trim_padding, Htrim by assumption.
    reflexivity.
  - intros ws H. rewrite <- (Htrim ws). unfold trim.
    rewrite <- trimStart_trimEnd, (trimEnd_whiteSpace ws H). reflexivity.
Qed.

Lemma parseTime_ignores_surrounding_white_space_witness :
  parseTime ("  " ++ "9:30 AM" ++ " ") = parseTime "9:30 AM"
  /\ parseTime "   " = failure "Time is required".
Proof.
  split.
  - exact (proj1 parseTime_ignores_surrounding_white_space "  " "9:30 AM" " "
             eq_refl eq_refl).
  - exact (proj2 parseTime_ignores_surrounding_white_space "   " eq_refl).
Defined.

(** *** Display strings *)

Lemma displayTime_not_canonical h m :
  0 <= h <= 23 -> 0 <= m <= 59 ->
  isValidTimeFormat (Spec.displayTime h m) = false.
Proof.
  intros Hh Hm.
  assert (Hall : checkAll 24 60 (fun h m =>
            negb (isValidTimeFormat (Spec.displayTime h m))) = true)
    by (vm_compute; reflexivity).
  apply negb_true_iff, (checkAll_sound _ _ _ Hall); simpl; lia.
Qed.

(** X26. [formatTimeForDisplay] is idempotent and loses nothing: a display
    string is never a canonical time, so formatting it again returns it
    unchanged, and two canonical times with the same display string are the
    same time. *)
Theorem formatTimeForDisplay_idempotent_and_injective :
  (forall t, formatTimeForDisplay (formatTimeForDisplay t) = formatTimeForDisplay t)
  /\ (forall t u,
        isValidTimeFormat t = true -> isValidTimeFormat u = true ->
        formatTimeForDisplay t = formatTimeForDisplay u -> t = u).
Proof.
  split.
  - intros t. destruct (isValidTimeFormat t) eqn:Hv.
    + apply isValidTimeFormat_iff in Hv as (h & m & Hh & Hm & ->).
      rewrite formatTimeForDisplay_canonical by assumption.
      apply formatTimeForDisplay_invalid, displayTime_not_canonical; assumption.
    + rewrite (formatTimeForDisplay_invalid t Hv).
      apply formatTimeForDisplay_invalid, Hv.
  - intros t u Ht Hu E.
    apply isValidTimeFormat_iff in Ht as (h & m & Hh & Hm & ->).
    apply isValidTimeFormat_iff in Hu as (h' & m' & Hh' & Hm' & ->).
    assert (Hp : parseTime (formatTimeForDisplay (Spec.canonicalTime h m))
                 = parseTime (formatTimeForDisplay (Spec.canonicalTime h' m')))
      by (rewrite E; reflexivity).
    rewrite !formatTimeForDisplay_canonical, !parseTime_displayTime in Hp
      by assumption.
    unfold parsed in Hp. congruence.
Qed.

Lemma formatTimeForDisplay_idempotent_and_injective_witness :
  formatTimeForDisplay (formatTimeForDisplay "13:30") = formatTimeForDisplay "13:30"
  /\ "09:05" = "09:05".
Proof.
  split.
  - exact (proj1 formatTimeForDisplay_idempotent_and_injective "13:30").
  - exact (proj2 formatTimeForDisplay_idempotent_and_injective "09:05" "09:05"
             eq_refl eq_refl eq_refl).
Defined.

End TimeExtras.

(** ** More on sorting with a comparator *)

Module SortExtras.
Import JsArray ProofNotions.

Section Comparator.
Context {A : Type}.
Variable comparefn : A -> A -> Z.
Hypothesis le_total :
  forall x y, precedes comparefn x y \/ precedes comparefn y x.
Hypothesis le_trans :
  forall x y z,
    precedes comparefn x y -> precedes comparefn y z -> precedes comparefn x z.

Lemma insertSorted_first x l :
  Forall (precedes comparefn x) l -> insertSorted comparefn x l = x :: l.
Proof.
  intros H. destruct l as [|y rest]; [reflexivity|].
  inversion H as [|? ? Hxy _]; subst. simpl.
  destruct (Z.leb_spec (comparefn x y) 0); [reflexivity|].
  unfold precedes in Hxy. lia.
Qed.

(** Sorting a sorted list changes nothing. *)
Lemma sort_of_sorted l :
  StronglySorted (precedes comparefn) l -> sort comparefn l = l.
Proof.
  induction 1 as [|x rest Hs IH Hx]; [reflexivity|].
  simpl. rewrite IH. apply insertSorted_first, Hx.
Qed.

Lemma filter_insertSorted (f : A -> bool) x l :
  StronglySorted (precedes comparefn) l ->
  filter f (insertSorted comparefn x l)
  = if f x then insertSorted comparefn x (filter f l) else filter f l.
Proof.
  induction 1 as [|y rest Hs IH Hy].
  - simpl. destruct (f x); reflexivity.
  - simpl insertSorted.
    destruct (Z.leb_spec (comparefn x y) 0) as [Hxy|Hxy].
    + change (filter f (x :: y :: rest))
        with (if f x then x :: filter f (y :: rest) else filter f (y :: rest)).
      destruct (f x); [|reflexivity].
      symmetry. apply insertSorted_first.
      apply Forall_forall. intros z Hz. apply filter_In in Hz as [Hz _].
      destruct Hz as [<-|Hz]; [exact Hxy|].
      rewrite Forall_forall in Hy. exact (le_trans _ _ _ Hxy (Hy z Hz)).
    + change (filter f (y :: insertSorted comparefn x rest))
        with (if f y then y :: filter f (insertSorted comparefn x rest)
              else filter f (insertSorted comparefn x rest)).
      rewrite IH. simpl filter.
      destruct (f x), (f y); try reflexivity.
      simpl. destruct (Z.leb_spec (comparefn x y) 0); [lia | reflexivity].
Qed.

(** Filtering commutes with sorting. *)
Lemma filter_sort (f : A -> bool) l :
  filter f (sort comparefn l) = sort comparefn (filter f l).
Proof.
  induction l as [|x rest IH]; [reflexivity|].
  simpl sort. rewrite filter_insertSorted
    by (apply SortFacts.sort_sorted; assumption).
  rewrite IH. simpl filter. destruct (f x); reflexivity.
Qed.

End Comparator.

End SortExtras.


(** ** More on the task sorter *)

Module TaskExtras.
Import JsString Types TaskUtils ProofNotions TimeFacts TaskFacts.

(** *** Canonical times in the order of the day *)

Lemma taskLe_notLater a b : taskLe a b -> Spec.notLater a b.
Proof.
  intros Hle h1 m1 h2 m2 Hh1 Hm1 Hh2 Hm2 Ea Eb.
  pose proof (canonicalTime_collate h1 m1 h2 m2 Hh1 Hm1 Hh2 Hm2) as Hc.
  rewrite <- Ea, <- Eb in Hc.
  apply compareTasks_cases in Hle. destruct Hle as [Hlt|[Heq _]].
  - rewrite Hlt in Hc. symmetry in Hc. apply -> Z.compare_lt_iff in Hc. lia.
  - rewrite Heq in Hc. symmetry in Hc. apply -> Z.compare_eq_iff in Hc. lia.
Qed.

(** X5. On canonical times the string comparison of the sorter is the
    order of the day: [localeCompare] of HH:MM strings has the sign of the
    difference of their minutes since midnight.  Hence in the output of
    [sortTasks] no task at a canonical time stands before a task at an
    earlier canonical time. *)
Theorem sortTasks_is_chronological :
  (forall h1 m1 h2 m2,
     0 <= h1 <= 23 -> 0 <= m1 <= 59 -> 0 <= h2 <= 23 -> 0 <= m2 <= 59 ->
     localeCompare (Spec.canonicalTime h1 m1) (Spec.canonicalTime h2 m2)
     = Z.sgn (Spec.minutesOfDay h1 m1 - Spec.minutesOfDay h2 m2))
  /\ (forall tasks, StronglySorted Spec.notLater (sortTasks tasks)).
Proof.
  split.
  - intros h1 m1 h2 m2 Hh1 Hm1 Hh2 Hm2. unfold localeCompare.
    rewrite canonicalTime_collate by assumption.
    destruct (Z.compare_spec (Spec.minutesOfDay h1 m1) (Spec.minutesOfDay h2 m2));
      symmetry.
    + apply Z.sgn_null_iff. lia.
    + apply Z.sgn_neg_iff. lia.
    + apply Z.sgn_pos_iff. lia.
  - intros tasks. apply (StronglySorted_impl taskLe); [|apply sortTasks_sorted].
    apply taskLe_notLater.
Qed.

Lemma sortTasks_is_chronological_witness :
  localeCompare "09:05" "14:00" = -1.
Proof.
  exact (proj1 sortTasks_is_chronological 9 5 14 0
           ltac:(lia) ltac:(lia) ltac:(lia) ltac:(lia)).
Defined.

(** *** Sorting again, and sorting a selection *)

(** X6. [sortTasks] is idempotent, and the lists [isTaskListSorted]
    accepts are exactly the lists [sortTasks] leaves unchanged. *)
Theorem sortTasks_fixed_points :
  (forall tasks, sortTasks (sortTasks tasks) = sortTasks tasks)
  /\ (forall tasks, isTaskListSorted tasks = true <-> sortTasks tasks = tasks).
Proof.
  assert (Hfix : forall tasks, StronglySorted taskLe tasks -> sortTasks tasks = tasks).
  { intros tasks. apply SortExtras.sort_of_sorted. }
  split.
  - intros tasks. apply Hfix, sortTasks_sorted.
  - intros tasks. split.
    + intros H. apply Hfix, isTaskListSorted_StronglySorted, H.
    + intros H. rewrite <- H. apply isTaskListSorted_sortTasks.
Qed.

(** X7. Selecting tasks commutes with sorting them: the tasks of one time
    taken from the sorted list are the sorted tasks of that time, and the
    same holds for any other selection by a test on single tasks. *)
Theorem sortTasks_commutes_with_selection :
  (forall tasks t,
     findTasksWithSameTime (sortTasks tasks) t
     = sortTasks (findTasksWithSameTime tasks t))
  /\ (forall (f : Task -> bool) tasks,
        filter f (sortTasks tasks) = sortTasks (filter f tasks)).
Proof.
  assert (H : forall (f : Task -> bool) tasks,
            filter f (sortTasks tasks) = sortTasks (filter f tasks)).
  { intros f tasks. apply SortExtras.filter_sort;
      [apply taskLe_total | apply taskLe_trans]. }
  split; [|exact H].
  intros tasks t. apply H.
Qed.

End TaskExtras.

(** ** Objects used as maps *)

Module ObjectFacts.
Import JsObject ProofNotions.

Lemma ownProperty_setProp_same {A : Type} (o : Obj A) k v :
  ownProperty (setProp o k v) k = Some v.
Proof.
  induction o as [|[k' v'] rest IH]; simpl.
  - rewrite String.eqb_refl. reflexivity.
  - destruct (k' =? k)%string eqn:E; simpl.
    + rewrite String.eqb_refl. reflexivity.
    + rewrite E. exact IH.
Qed.

Lemma ownProperty_setProp_other {A : Type} (o : Obj A) k v k' :
  k <> k' -> ownProperty (setProp o k v) k' = ownProperty o k'.
Proof.
  intros Hne. induction o as [|[k0 v0] rest IH]; simpl.
  - destruct (String.eqb_spec k k'); [contradiction | reflexivity].
  - destruct (String.eqb_spec k0 k) as [->|Hk]; simpl.
    + destruct (String.eqb_spec k k'); [contradiction | reflexivity].
    + rewrite IH. reflexivity.
Qed.

Section Grouping.
Context {A B : Type}.
Variable key : A -> string.
Variable val : A -> B.

Lemma groupOf_snoc k l x :
  groupOf key val k (l ++ [x])
  = (groupOf key val k l ++ if (key x =? k)%string then [val x] else [])%list.
Proof.
  unfold groupOf. rewrite filter_app, map_app. simpl.
  destruct (key x =? k)%string; reflexivity.
Qed.

Lemma groupOf_absent k l :
  (forall y, In y l -> key y <> k) -> groupOf key val k l = [].
Proof.
  unfold groupOf. induction l as [|y rest IH]; intros H; [reflexivity|]. simpl.
  destruct (String.eqb_spec (key y) k) as [E|E].
  - destruct (H y (or_introl eq_refl) E).
  - apply IH. intros z Hz. apply H. right. exact Hz.
Qed.

Lemma groupStep_files o l x :
  inherited (key x) = false -> holdsGroups key val o l ->
  exists o', groupStep key val (Some o) x = Some o' /\ holdsGroups key val o' (l ++ [x]).
Proof.
  intros Hx Hinv. unfold groupStep, getProp. cbv zeta.
  pose proof (Hinv (key x)) as Hk.
  destruct (groupOf key val (key x) l) as [|b g] eqn:Hg; simpl in Hk; rewrite Hk, Hx.
  - rewrite ownProperty_setProp_same.
    eexists. split; [reflexivity|].
    intros k. rewrite groupOf_snoc.
    destruct (String.eqb_spec (key x) k) as [<-|Hne].
    + rewrite ownProperty_setProp_same, Hg. reflexivity.
    + rewrite !ownProperty_setProp_other by assumption.
      rewrite app_nil_r. apply Hinv.
  - rewrite Hk. eexists. split; [reflexivity|].
    intros k. rewrite groupOf_snoc.
    destruct (String.eqb_spec (key x) k) as [<-|Hne].
    + rewrite ownProperty_setProp_same, Hg. reflexivity.
    + rewrite ownProperty_setProp_other by assumption.
      rewrite app_nil_r. apply Hinv.
Qed.

Lemma groupStep_throws o l x :
  inherited (key x) = true -> forallb (fun y => negb (inherited (key y))) l = true ->
  holdsGroups key val o l -> groupStep key val (Some o) x = None.
Proof.
  intros Hx Hl Hinv. unfold groupStep, getProp. cbv zeta.
  assert (Hg : groupOf key val (key x) l = []).
  { apply groupOf_absent. intros y Hy E.
    rewrite forallb_forall in Hl. specialize (Hl y Hy).
    rewrite E, Hx in Hl. discriminate. }
  pose proof (Hinv (key x)) as Hk. rewrite Hg in Hk. simpl in Hk.
  rewrite Hk, Hx. cbn. rewrite Hk. reflexivity.
Qed.

Lemma fold_groupStep_thrown l : fold_left (groupStep key val) l None = None.
Proof. induction l as [|x rest IH]; [reflexivity | exact IH]. Qed.

(** The reduction files every element under its key, unless one of the
    keys is an inherited property, in which case it throws. *)
Lemma fold_groupStep l :
  if forallb (fun y => negb (inherited (key y))) l
  then exists o, fold_left (groupStep key val) l (Some []) = Some o
                 /\ holdsGroups key val o l
  else fold_left (groupStep key val) l (Some []) = None.
Proof.
  induction l as [|x l IH] using rev_ind.
  - simpl. exists []. split; [reflexivity|]. intros k. reflexivity.
  - rewrite forallb_app, fold_left_app. simpl.
    destruct (forallb (fun y => negb (inherited (key y))) l) eqn:Hl.
    + destruct IH as (o & Ho & Hinv). rewrite Ho.
      destruct (inherited (key x)) eqn:Hx; simpl.
      * apply (groupStep_throws o l x Hx Hl Hinv).
      * apply (groupStep_files o l x Hx Hinv).
    + rewrite IH. reflexivity.
Qed.

End Grouping.

End ObjectFacts.

(** ** More on the validator *)

Module ValidationExtras.
Import JsString Types ValidationUtils ProofNotions JsStringFacts TimeFacts.
Import ValidationFacts.

Lemma parseErrors_not_empty e : In e Spec.parseErrors -> isEmpty e = false.
Proof.
  unfold Spec.parseErrors. simpl.
  intros [<-|[<-|[<-|[<-|[<-|[]]]]]]; reflexivity.
Qed.

Lemma parseTime_blank s :
  isEmpty s || (trim s =? "")%string = true ->
  TimeUtils.parseTime s = TimeUtils.failure "Time is required".
Proof.
  unfold TimeUtils.parseTime. destruct (isEmpty s); [reflexivity|].
  simpl. intros ->. reflexivity.
Qed.

Lemma validateTimeField_cases s :
  (exists t, TimeUtils.parseTime s = TimeUtils.parsed t
             /\ validateTimeField (JsStr s) = [])
  \/ (exists e, TimeUtils.parseTime s = TimeUtils.failure e
                /\ validateTimeField (JsStr s)
                   = [ {| field := "time"; message := e |} ]).
Proof.
  unfold validateTimeField.
  destruct (isEmpty s || (trim s =? "")%string) eqn:Hb.
  - right. exists "Time is required". split; [apply parseTime_blank, Hb | reflexivity].
  - destruct (TimeUtils.success (TimeUtils.parseTime s)) eqn:Hs.
    + left. destruct (parseTime_success_canonical _ Hs) as (t & _ & E).
      exists t. split; [exact E | reflexivity].
    + right. destruct (TimeExtras.parseTime_failure_shape _ Hs) as (e & He & E).
      exists e. split; [exact E|]. rewrite E.
      cbn [negb TimeUtils.error TimeUtils.failure].
      rewrite (parseErrors_not_empty e He). reflexivity.
Qed.

Lemma validateTimeField_passes s :
  validateTimeField (JsStr s) = [] <-> TimeUtils.success (TimeUtils.parseTime s) = true.
Proof.
  destruct (validateTimeField_cases s) as [(t & E & V)|(e & E & V)];
    rewrite E, V; split; intros H; try reflexivity; discriminate.
Qed.

(** X9. On a string the time field is judged by the parser alone: no
    error when [parseTime] succeeds, and otherwise the single error whose
    message is the parser's, word for word.  A value that is not a string
    gets 'Time is required'. *)
Theorem validateTimeField_follows_parser :
  (forall s,
     (exists t, TimeUtils.parseTime s = TimeUtils.parsed t
                /\ validateTimeField (JsStr s) = [])
     \/ (exists e, TimeUtils.parseTime s = TimeUtils.failure e
                   /\ validateTimeField (JsStr s)
                      = [ {| field := "time"; message := e |} ]))
  /\ (forall v, (forall s, v <> JsStr s) ->
        validateTimeField v = [ {| field := "time"; message := "Time is required" |} ]).
Proof.
  split; [exact validateTimeField_cases|].
  intros v Hv. destruct v as [| |s|]; try reflexivity. destruct (Hv s eq_refl).
Qed.

Lemma validateTimeField_follows_parser_witness :
  validateTimeField JsUndefined
  = [ {| field := "time"; message := "Time is required" |} ].
Proof.
  apply (proj2 validateTimeField_follows_parser). discriminate.
Defined.

(** *** The three field validators together *)

Lemma validateTitleField_cases s :
  validateTitleField (JsStr s) =
    if (trim s =? "")%string then
      [ {| field := "title"; message := "Title cannot be empty" |} ]
    else if (200 <? String.length (trim s))%nat then
      [ {| field := "title"; message := "Title must be 200 characters or less" |} ]
    else [].
Proof.
  unfold validateTitleField. cbv zeta.
  destruct (trim s =? "")%string eqn:E; [reflexivity|].
  replace (String.length (trim s) <? 1)%nat with false
    by (destruct (trim s); [discriminate | reflexivity]).
  rewrite app_nil_r. reflexivity.
Qed.

Lemma validateTitleField_passes v :
  validateTitleField v = []
  <-> exists s, v = JsStr s /\ (1 <= String.length (trim s) <= 200)%nat.
Proof.
  destruct v as [| |s|]; try (split; [discriminate | intros (s & H & _); discriminate]).
  rewrite validateTitleField_cases. split.
  - destruct (String.eqb_spec (trim s) "") as [E|E]; [discriminate|].
    destruct (Nat.ltb_spec 200 (String.length (trim s))); [discriminate|].
    intros _. exists s. split; [reflexivity|].
    destruct (trim s); [contradiction | simpl in *; lia].
  - intros (s' & [= <-] & Hlen).
    destruct (String.eqb_spec (trim s) "") as [E|E].
    + rewrite E in Hlen. simpl in Hlen. lia.
    + destruct (Nat.ltb_spec 200 (String.length (trim s))); [lia | reflexivity].
Qed.

Lemma validatePriorityField_passes v :
  validatePriorityField v = [] <-> Spec.acceptedPriority v.
Proof.
  unfold Spec.acceptedPriority. destruct v as [| |s|]; simpl.
  - split; [auto | reflexivity].
  - split; [auto | reflexivity].
  - rewrite orb_false_r.
    destruct (String.eqb_spec s "low") as [->|H1]; simpl;
      [split; [auto | reflexivity]|].
    destruct (String.eqb_spec s "medium") as [->|H2]; simpl;
      [split; [auto 6 | reflexivity]|].
    destruct (String.eqb_spec s "high") as [->|H3]; simpl;
      [split; [auto 6 | reflexivity]|].
    split; [discriminate|].
    intros [H|[H|[H|[H|H]]]]; congruence.
  - split; [discriminate|].
    intros [H|[H|[H|[H|H]]]]; discriminate.
Qed.

Lemma validateTimeField_passes_value v :
  validateTimeField v = []
  <-> exists s, v = JsStr s /\ TimeUtils.success (TimeUtils.parseTime s) = true.
Proof.
  destruct v as [| |s|]; try (split; [discriminate | intros (s & H & _); discriminate]).
  rewrite validateTimeField_passes. split.
  - intros H. exists s. auto.
  - intros (s' & [= <-] & H). exact H.
Qed.

(** X10. A form is valid exactly when its time is a string the parser
    accepts, its title is a string of 1 to 200 characters once trimmed, and
    its priority is undefined, null, or one of low, medium and high in
    lower case. *)
Theorem valid_forms :
  forall fd,
    isValidTaskFormData fd = true
    <-> (exists s, formTime fd = JsStr s
                   /\ TimeUtils.success (TimeUtils.parseTime s) = true)
        /\ (exists s, formTitle fd = JsStr s
                      /\ (1 <= String.length (trim s) <= 200)%nat)
        /\ Spec.acceptedPriority (formPriority fd).
Proof.
  intros fd. unfold isValidTaskFormData, validateTaskFormData.
  rewrite <- validateTimeField_passes_value, <- validateTitleField_passes,
    <- validatePriorityField_passes, Nat.eqb_eq, !length_app.
  destruct (validateTimeField (formTime fd)), (validateTitleField (formTitle fd)),
    (validatePriorityField (formPriority fd)); simpl; split;
    try (intros H; discriminate); try (intros (H1 & H2 & H3); discriminate);
    try lia; auto.
Qed.

Lemma field_validators_single_error fd :
  (List.length (validateTimeField (formTime fd)) <= 1)%nat
  /\ (List.length (validateTitleField (formTitle fd)) <= 1)%nat
  /\ (List.length (validatePriorityField (formPriority fd)) <= 1)%nat
  /\ Forall (fun e => field e = "time") (validateTimeField (formTime fd))
  /\ Forall (fun e => field e = "title") (validateTitleField (formTitle fd))
  /\ Forall (fun e => field e = "priority") (validatePriorityField (formPriority fd)).
Proof.
  assert (Ht : (List.length (validateTimeField (formTime fd)) <= 1)%nat
               /\ Forall (fun e => field e = "time") (validateTimeField (formTime fd))).
  { destruct (formTime fd) as [| |s|]; try (split; [simpl; lia | repeat constructor]).
    destruct (validateTimeField_cases s) as [(t & _ & ->)|(e & _ & ->)];
      split; simpl; try lia; repeat constructor. }
  assert (Hi : (List.length (validateTitleField (formTitle fd)) <= 1)%nat
               /\ Forall (fun e => field e = "title") (validateTitleField (formTitle fd))).
  { destruct (formTitle fd) as [| |s|]; try (split; [simpl; lia | repeat constructor]).
    rewrite validateTitleField_cases.
    destruct (trim s =? "")%string; [split; [simpl; lia | repeat constructor]|].
    destruct (200 <? String.length (trim s))%nat;
      split; simpl; try lia; repeat constructor. }
  assert (Hp : (List.length (validatePriorityField (formPriority fd)) <= 1)%nat
               /\ Forall (fun e => field e = "priority")
                    (validatePriorityField (formPriority fd))).
  { destruct (formPriority fd) as [| |s|];
      try (split; [simpl; lia | repeat constructor]).
    unfold validatePriorityField.
    destruct (existsb (String.eqb s) validPriorities);
      split; simpl; try lia; repeat constructor. }
  tauto.
Qed.

Lemma getErrorMessage_app errs1 errs2 f :
  getErrorMessage (errs1 ++ errs2) f =
    match getErrorMessage errs1 f with
    | Some m => Some m
    | None => getErrorMessage errs2 f
    end.
Proof.
  unfold getErrorMessage. induction errs1 as [|e rest IH]; [reflexivity|].
  simpl. destruct (field e =? f)%string; [reflexivity | exact IH].
Qed.

Lemma getErrorMessage_other errs f g :
  Forall (fun e => field e = g) errs -> g <> f -> getErrorMessage errs f = None.
Proof.
  unfold getErrorMessage. induction 1 as [|e rest He _ IH]; intros Hne; [reflexivity|].
  simpl. rewrite He. destruct (String.eqb_spec g f); [contradiction | auto].
Qed.

Lemma getErrorMessage_own errs f :
  Forall (fun e => field e = f) errs ->
  getErrorMessage errs f = hd_error (map message errs).
Proof.
  unfold getErrorMessage. intros H. destruct H as [|e rest He _]; [reflexivity|].
  simpl. rewrite He, String.eqb_refl. reflexivity.
Qed.

(** X11. [validateTaskFormData] reports at most one error per field, hence
    at most three, in the order time, title, priority; [getErrorMessage]
    then returns, for each of the three fields, the message of that
    field's validator, and nothing for any other field. *)
Theorem validateTaskFormData_one_error_per_field :
  forall fd,
    (List.length (validateTaskFormData fd) <= 3)%nat
    /\ (forall f,
          (List.length (filter (fun e => (field e =? f)%string)
                          (validateTaskFormData fd)) <= 1)%nat)
    /\ getErrorMessage (validateTaskFormData fd) "time"
       = hd_error (map message (validateTimeField (formTime fd)))
    /\ getErrorMessage (validateTaskFormData fd) "title"
       = hd_error (map message (validateTitleField (formTitle fd)))
    /\ getErrorMessage (validateTaskFormData fd) "priority"
       = hd_error (map message (validatePriorityField (formPriority fd)))
    /\ (forall f, f <> "time" -> f <> "title" -> f <> "priority" ->
          getErrorMessage (validateTaskFormData fd) f = None).
Proof.
  intros fd.
  destruct (field_validators_single_error fd) as (Lt & Li & Lp & Ft & Fi & Fp).
  unfold validateTaskFormData.
  split; [rewrite !length_app; lia|]. split; [|split; [|split; [|split]]].
  - intros f. rewrite !filter_app, !length_app.
    assert (Hcount : forall g errs,
              Forall (fun e => field e = g) errs -> g <> f ->
              List.length (filter (fun e => (field e =? f)%string) errs) = 0%nat).
    { intros g errs HF Hne. induction HF as [|e rest He _ IH]; [reflexivity|].
      simpl. rewrite He. destruct (String.eqb_spec g f); [contradiction | exact IH]. }
    pose proof (filter_length_le (fun e => (field e =? f)%string)
                  (validateTimeField (formTime fd))) as Bt.
    pose proof (filter_length_le (fun e => (field e =? f)%string)
                  (validateTitleField (formTitle fd))) as Bi.
    pose proof (filter_length_le (fun e => (field e =? f)%string)
                  (validatePriorityField (formPriority fd))) as Bp.
    destruct (String.eqb_spec "time" f) as [<-|Nt].
    + rewrite (Hcount _ _ Fi), (Hcount _ _ Fp) by discriminate. lia.
    + rewrite (Hcount _ _ Ft Nt).
      destruct (String.eqb_spec "title" f) as [<-|Ni].
      * rewrite (Hcount _ _ Fp) by discriminate. lia.
      * rewrite (Hcount _ _ Fi Ni). lia.
  - rewrite getErrorMessage_app, (getErrorMessage_own _ _ Ft).
    destruct (validateTimeField (formTime fd)) as [|e rest]; [|reflexivity].
    rewrite getErrorMessage_app, (getErrorMessage_other _ "time" _ Fi),
      (getErrorMessage_other _ "time" _ Fp) by discriminate.
    reflexivity.
  - rewrite getErrorMessage_app, (getErrorMessage_other _ "title" _ Ft) by discriminate.
    rewrite getErrorMessage_app, (getErrorMessage_own _ _ Fi).
    destruct (validateTitleField (formTitle fd)) as [|e rest]; [|reflexivity].
    rewrite (getErrorMessage_other _ "title" _ Fp) by discriminate. reflexivity.
  - rewrite getErrorMessage_app, (getErrorMessage_other _ "priority" _ Ft) by discriminate.
    rewrite getErrorMessage_app, (getErrorMessage_other _ "priority" _ Fi) by discriminate.
    apply getErrorMessage_own, Fp.
  - intros f H1 H2 H3.
    rewrite getErrorMessage_app, (getErrorMessage_other _ f _ Ft) by congruence.
    rewrite getErrorMessage_app, (getErrorMessage_other _ f _ Fi) by congruence.
    apply (getErrorMessage_other _ f _ Fp). congruence.
Qed.

(** *** Sanitizing twice *)

Lemma canonicalTime_trimmed c : Spec.isCanonicalTime c -> trim c = c.
Proof.
  intros (h & m & Hh & Hm & ->).
  assert (Hall : checkAll 24 60 (fun h m =>
            (trim (Spec.canonicalTime h m) =? Spec.canonicalTime h m)%string) = true)
    by (vm_compute; reflexivity).
  apply String.eqb_eq, (checkAll_sound _ _ _ Hall); simpl; lia.
Qed.

Lemma sanitize_time_fixed fd :
  formTime (sanitizeTaskFormData (sanitizeTaskFormData fd))
  = formTime (sanitizeTaskFormData fd).
Proof.
  destruct (TimeUtils.success (TimeUtils.parseTime (trimmedOrEmpty (formTime fd))))
    eqn:Hs.
  - destruct (parseTime_success_canonical _ Hs) as (c & Hc & E).
    assert (Hne : isEmpty c = false)
      by (destruct Hc as (h & m & _ & _ & ->); reflexivity).
    pose proof (sanitize_time_parsed fd c E Hne) as H1. rewrite H1.
    apply sanitize_time_parsed; [|exact Hne].
    rewrite H1. cbn [trimmedOrEmpty]. rewrite (canonicalTime_trimmed c Hc).
    destruct Hc as (h & m & Hh & Hm & ->). apply parseTime_canonical; assumption.
  - pose proof (sanitize_time_unparsed fd Hs) as H1.
    pose proof (sanitize_time_unparsed (sanitizeTaskFormData fd)) as H2.
    rewrite H1 in H2. cbn [trimmedOrEmpty] in H2.
    rewrite trimmedOrEmpty_trim in H2. rewrite H1. exact (H2 Hs).
Qed.

Lemma sanitize_idempotent fd :
  sanitizeTaskFormData (sanitizeTaskFormData fd) = sanitizeTaskFormData fd.
Proof.
  assert (Hrec : forall d,
            sanitizeTaskFormData d
            = {| formTime := formTime (sanitizeTaskFormData d);
                 formTitle := JsStr (trimmedOrEmpty (formTitle d));
                 formPriority := formPriority d |}) by reflexivity.
  rewrite (Hrec (sanitizeTaskFormData fd)), sanitize_time_fixed.
  rewrite (Hrec fd) at 4.
  cbn [formTitle formPriority sanitizeTaskFormData trimmedOrEmpty].
  rewrite trimmedOrEmpty_trim. reflexivity.
Qed.

Lemma validateAndSanitize_sanitized fd :
  validateAndSanitizeTaskFormData (sanitizedData (validateAndSanitizeTaskFormData fd))
  = validateAndSanitizeTaskFormData fd.
Proof.
  unfold validateAndSanitizeTaskFormData. cbn [sanitizedData].
  rewrite sanitize_idempotent. reflexivity.
Qed.

(** X12. Sanitizing is idempotent: sanitized data is left as it is by a
    second sanitizing, so validating the sanitized data of a form (as the
    form component hands it on) gives the very result the form got. *)
Theorem sanitizing_twice_changes_nothing :
  forall fd,
    sanitizeTaskFormData (sanitizeTaskFormData fd) = sanitizeTaskFormData fd
    /\ validateAndSanitizeTaskFormData
         (sanitizedData (validateAndSanitizeTaskFormData fd))
       = validateAndSanitizeTaskFormData fd.
Proof.
  intros fd. split; [apply sanitize_idempotent | apply validateAndSanitize_sanitized].
Qed.

Lemma validateTaskFormData_one_error_per_field_witness :
  getErrorMessage (validateTaskFormData Spec.invalidForm) "general" = None.
Proof.
  apply (proj2 (proj2 (proj2 (proj2 (proj2
           (validateTaskFormData_one_error_per_field Spec.invalidForm))))));
    discriminate.
Defined.

End ValidationExtras.


(** ** Grouping tasks and errors *)

Module GroupingExtras.
Import JsString Types ValidationUtils TaskUtils JsObject ProofNotions.
Import TimeFacts ObjectFacts.

Lemma forallb_negb_existsb {A : Type} (p : A -> bool) l :
  forallb (fun y => negb (p y)) l = negb (existsb p l).
Proof.
  induction l as [|x rest IH]; [reflexivity|]. simpl.
  rewrite IH. destruct (p x); reflexivity.
Qed.

(** What a reduction by [groupStep] returns, by whether a key is
    inherited. *)
Lemma grouping_outcome {A B : Type} (key : A -> string) (val : A -> B) l :
  (fold_left (groupStep key val) l (Some []) = None
   <-> existsb (fun x => inherited (key x)) l = true)
  /\ (forall o, fold_left (groupStep key val) l (Some []) = Some o ->
        forall k, ownProperty o k = nonEmpty (groupOf key val k l)).
Proof.
  pose proof (fold_groupStep key val l) as H.
  rewrite forallb_negb_existsb in H.
  destruct (existsb (fun x => inherited (key x)) l); simpl in H.
  - rewrite H. split; [tauto | discriminate].
  - destruct H as (o & Ho & Hinv). rewrite Ho. split.
    + split; discriminate.
    + intros o' [= <-]. exact Hinv.
Qed.

Lemma canonicalTime_not_inherited t :
  Spec.isCanonicalTime t -> inherited t = false.
Proof.
  intros (h & m & Hh & Hm & ->).
  assert (Hall : checkAll 24 60 (fun h m =>
            negb (inherited (Spec.canonicalTime h m))) = true)
    by (vm_compute; reflexivity).
  apply negb_true_iff, (checkAll_sound _ _ _ Hall); simpl; lia.
Qed.

(** X8. [groupTasksByTime] files every task under its time: the property
    of a time holds the tasks [findTasksWithSameTime] finds for it, in the
    order of the list, and a time without task has no property.  It throws
    exactly when some task's time is the name of a property inherited from
    [Object.prototype] (such as constructor), which never happens for tasks
    at valid times. *)
Theorem groupTasksByTime_files_by_time :
  (forall tasks,
     groupTasksByTime tasks = None
     <-> existsb (fun task => inherited (time task)) tasks = true)
  /\ (forall tasks groups,
        groupTasksByTime tasks = Some groups ->
        forall t, ownProperty groups t = nonEmpty (findTasksWithSameTime tasks t))
  /\ (forall tasks,
        forallb (fun task => TimeUtils.isValidTimeFormat (time task)) tasks = true ->
        exists groups, groupTasksByTime tasks = Some groups).
Proof.
  assert (Hshape : forall tasks,
            groupTasksByTime tasks
            = fold_left (groupStep time (fun task => task)) tasks (Some []))
    by reflexivity.
  split; [|split].
  - intros tasks. rewrite Hshape. apply grouping_outcome.
  - intros tasks groups H t. rewrite Hshape in H.
    rewrite (proj2 (grouping_outcome time (fun task => task) tasks) groups H t).
    unfold groupOf, findTasksWithSameTime. rewrite map_id. reflexivity.
  - intros tasks Hv.
    destruct (groupTasksByTime tasks) as [groups|] eqn:E; [exists groups; reflexivity|].
    rewrite Hshape in E.
    apply (proj1 (grouping_outcome time (fun task => task) tasks)) in E.
    apply existsb_exists in E as (task & Hin & Hi).
    rewrite forallb_forall in Hv. specialize (Hv task Hin).
    apply isValidTimeFormat_iff, canonicalTime_not_inherited in Hv. congruence.
Qed.

Lemma groupTasksByTime_files_by_time_witness :
  (exists groups,
     groupTasksByTime Spec.exampleTasks = Some groups
     /\ ownProperty groups "09:00" = Some [Spec.taskB])
  /\ groupTasksByTime [mkTask "x" "constructor" "Oops" None 0] = None.
Proof.
  split.
  - destruct (proj2 (proj2 groupTasksByTime_files_by_time) Spec.exampleTasks eq_refl)
      as (groups & Hg).
    exists groups. split; [exact Hg|].
    exact (proj1 (proj2 groupTasksByTime_files_by_time) _ _ Hg "09:00").
  - apply (proj1 groupTasksByTime_files_by_time). reflexivity.
Defined.

(** *** The accessors of validation errors *)

Lemma getErrorMessage_first errs f :
  getErrorMessage errs f
  = hd_error (map message (filter (fun e => (field e =? f)%string) errs)).
Proof.
  unfold getErrorMessage. induction errs as [|e rest IH]; [reflexivity|].
  simpl. destruct (field e =? f)%string; [reflexivity | exact IH].
Qed.

Lemma hasFieldError_filter errs f :
  hasFieldError errs f = true
  <-> map message (filter (fun e => (field e =? f)%string) errs) <> [].
Proof.
  unfold hasFieldError. induction errs as [|e rest IH]; simpl.
  - split; [discriminate | intros H; destruct (H eq_refl)].
  - destruct (field e =? f)%string; simpl; [split; [discriminate | reflexivity]|].
    exact IH.
Qed.

Lemma validation_fields_not_inherited fd :
  existsb (fun e => inherited (field e)) (validateTaskFormData fd) = false.
Proof.
  destruct (ValidationExtras.field_validators_single_error fd)
    as (_ & _ & _ & Ft & Fi & Fp).
  unfold validateTaskFormData. rewrite !existsb_app.
  assert (H : forall g errs,
            Forall (fun e => field e = g) errs -> inherited g = false ->
            existsb (fun e => inherited (field e)) errs = false).
  { intros g errs HF Hg. induction HF as [|e rest He _ IH]; [reflexivity|].
    simpl. rewrite He, Hg. exact IH. }
  rewrite (H _ _ Ft), (H _ _ Fi), (H _ _ Fp); reflexivity.
Qed.

(** X13. The three accessors of a list of validation errors agree.
    [getErrorsByField] files each message under its field, in the order of
    the list; [hasFieldError] is true for exactly the fields that have a
    property there; [getErrorMessage] returns the first message of that
    property.  [getErrorsByField] throws exactly when a field is named like
    a property inherited from [Object.prototype], which the fields of the
    validator (time, title, priority) are not. *)
Theorem error_accessors_agree :
  (forall errs,
     getErrorsByField errs = None
     <-> existsb (fun e => inherited (field e)) errs = true)
  /\ (forall errs grouped,
        getErrorsByField errs = Some grouped ->
        forall f,
          ownProperty grouped f
          = nonEmpty (map message (filter (fun e => (field e =? f)%string) errs))
          /\ (hasFieldError errs f = true <-> ownProperty grouped f <> None)
          /\ getErrorMessage errs f
             = match ownProperty grouped f with
               | Some messages => hd_error messages
               | None => None
               end)
  /\ (forall errs f,
        hasFieldError errs f = true <-> exists m, getErrorMessage errs f = Some m)
  /\ (forall fd, exists grouped,
        getErrorsByField (validateTaskFormData fd) = Some grouped).
Proof.
  assert (Hshape : forall errs,
            getErrorsByField errs = fold_left (groupStep field message) errs (Some []))
    by reflexivity.
  split; [|split; [|split]].
  - intros errs. rewrite Hshape. apply grouping_outcome.
  - intros errs grouped H f. rewrite Hshape in H.
    pose proof (proj2 (grouping_outcome field message errs) grouped H f) as Hf.
    unfold groupOf in Hf. rewrite Hf, hasFieldError_filter, getErrorMessage_first.
    destruct (map message (filter (fun e => (field e =? f)%string) errs)) as [|m rest].
    + simpl. split; [reflexivity|]. split; [|reflexivity].
      split; intros Hc; destruct (Hc eq_refl).
    + simpl. split; [reflexivity|]. split; [|reflexivity].
      split; discriminate.
  - intros errs f. rewrite hasFieldError_filter, getErrorMessage_first.
    destruct (map message (filter (fun e => (field e =? f)%string) errs)) as [|m rest];
      simpl.
    + split; [intros Hc; destruct (Hc eq_refl) | intros (m & Hm); discriminate].
    + split; [intros _; exists m; reflexivity | discriminate].
  - intros fd.
    destruct (getErrorsByField (validateTaskFormData fd)) as [grouped|] eqn:E;
      [exists grouped; reflexivity|].
    rewrite Hshape in E. apply (proj1 (grouping_outcome field message _)) in E.
    rewrite validation_fields_not_inherited in E. discriminate.
Qed.

Lemma error_accessors_agree_witness :
  (exists grouped,
     getErrorsByField (validateTaskFormData Spec.invalidForm) = Some grouped
     /\ ownProperty grouped "title" = Some ["Title cannot be empty"])
  /\ getErrorsByField [ {| field := "toString"; message := "Oops" |} ] = None.
Proof.
  split.
  - destruct (proj2 (proj2 (proj2 error_accessors_agree)) Spec.invalidForm)
      as (grouped & Hg).
    exists grouped. split; [exact Hg|].
    exact (proj1 (proj1 (proj2 error_accessors_agree) _ _ Hg "title")).
  - apply (proj1 error_accessors_agree). reflexivity.
Defined.

End GroupingExtras.

(** ** More on the task repository *)

Module RepositoryExtras.
Import JsString Types ValidationUtils TaskUtils Tasks ProofNotions.
Import JsStringFacts TimeFacts TaskFacts ValidationFacts RepositoryFacts.

Implicit Types (h : TasksHook) (json : Json).

(** *** What valid data puts into a task *)

Lemma valid_no_errors fd :
  isValid (validateAndSanitizeTaskFormData fd) = true ->
  validateTimeField (formTime (sanitizeTaskFormData fd)) = []
  /\ validateTitleField (formTitle (sanitizeTaskFormData fd)) = []
  /\ validatePriorityField (formPriority fd) = [].
Proof.
  intros H. apply isValid_iff in H.
  unfold validateAndSanitizeTaskFormData in H. cbn [errors] in H.
  unfold validateTaskFormData in H.
  apply app_eq_nil in H as [Ht H]. apply app_eq_nil in H as [Hi Hp].
  auto.
Qed.

Lemma valid_time_canonical fd :
  isValid (validateAndSanitizeTaskFormData fd) = true ->
  TimeUtils.isValidTimeFormat (stringField (formTime (sanitizeTaskFormData fd))) = true.
Proof.
  intros H. destruct (valid_no_errors fd H) as (Ht & _ & _).
  destruct (TimeUtils.success (TimeUtils.parseTime (trimmedOrEmpty (formTime fd))))
    eqn:Hs.
  - destruct (parseTime_success_canonical _ Hs) as (c & Hc & E).
    assert (Hne : isEmpty c = false)
      by (destruct Hc as (h & m & _ & _ & ->); reflexivity).
    rewrite (sanitize_time_parsed fd c E Hne). apply isValidTimeFormat_iff, Hc.
  - exfalso. rewrite (sanitize_time_unparsed fd Hs) in Ht.
    rewrite <- trimmedOrEmpty_trim in Ht.
    exact (validateTimeField_unparsed _ Hs Ht).
Qed.

Lemma valid_title_trimmed fd :
  isValid (validateAndSanitizeTaskFormData fd) = true ->
  trim (stringField (formTitle (sanitizeTaskFormData fd)))
  = stringField (formTitle (sanitizeTaskFormData fd))
  /\ (1 <= String.length (stringField (formTitle (sanitizeTaskFormData fd))) <= 200)%nat.
Proof.
  intros H. destruct (valid_no_errors fd H) as (_ & Hi & _).
  change (formTitle (sanitizeTaskFormData fd))
    with (JsStr (trimmedOrEmpty (formTitle fd))) in *.
  cbn [stringField].
  apply ValidationExtras.validateTitleField_passes in Hi as (s & [= <-] & Hlen).
  rewrite trimmedOrEmpty_trim in *. split; [reflexivity | exact Hlen].
Qed.

Lemma valid_priority_stored fd :
  isValid (validateAndSanitizeTaskFormData fd) = true ->
  Spec.acceptedPriority (formPriority fd)
  /\ Spec.storedPriority (formPriority fd)
       (priorityField (formPriority (sanitizeTaskFormData fd))).
Proof.
  intros H. destruct (valid_no_errors fd H) as (_ & _ & Hp).
  apply ValidationExtras.validatePriorityField_passes in Hp.
  split; [exact Hp|].
  change (formPriority (sanitizeTaskFormData fd)) with (formPriority fd).
  destruct Hp as [E|[E|[E|[E|E]]]]; rewrite E; reflexivity.
Qed.

Lemma Forall_assignAt {A : Type} (P : A -> Prop) l i x :
  Forall P l -> P x -> Forall P (JsArray.assignAt l i x).
Proof.
  intros Hl Hx. revert i. induction Hl as [|y rest Hy Hrest IH]; intros [|i]; simpl;
    constructor; auto.
Qed.

Lemma Forall_sortTasks (P : Task -> Prop) l :
  Forall P l -> Forall P (sortTasks l).
Proof. apply Permutation_Forall, SortFacts.sort_permutation. Qed.

Lemma Forall_filter_kept {A : Type} (P : A -> Prop) f l :
  Forall P l -> Forall P (filter f l).
Proof.
  rewrite !Forall_forall. intros H x Hx. apply filter_In in Hx. apply H, Hx.
Qed.

Lemma valid_task_wellFormed fd i c :
  isValid (validateAndSanitizeTaskFormData fd) = true ->
  Spec.wellFormed
    {| id := i;
       time := stringField (formTime (sanitizeTaskFormData fd));
       title := stringField (formTitle (sanitizeTaskFormData fd));
       priority := priorityField (formPriority (sanitizeTaskFormData fd));
       createdAt := c |}.
Proof.
  intros Hv. unfold Spec.wellFormed. cbn [time title].
  split; [apply valid_time_canonical, Hv | apply valid_title_trimmed, Hv].
Qed.

(** Each function handed to [setTasks] keeps the tasks well formed. *)
Lemma updaters_keep_wellFormed m prev next :
  match m with
  | AddTask fd _ _ | UpdateTask _ fd =>
      isValid (validateAndSanitizeTaskFormData fd) = true
  | _ => True
  end ->
  Forall Spec.wellFormed prev ->
  match m with
  | AddTask fd newId now =>
      addUpdater (newTaskOf (sanitizedData (validateAndSanitizeTaskFormData fd))
                    newId now) prev
  | UpdateTask taskId fd =>
      updateUpdater taskId (sanitizedData (validateAndSanitizeTaskFormData fd)) prev
  | DeleteTask taskId => deleteUpdater taskId prev
  | ClearAllTasks => inr []
  end = inr next ->
  Forall Spec.wellFormed next.
Proof.
  intros Hv Hall. destruct m as [fd newId now|taskId fd|taskId|].
  - intros [= <-]. apply Forall_sortTasks, Forall_app. split; [exact Hall|].
    constructor; [apply valid_task_wellFormed, Hv | constructor].
  - destruct (updateUpdater_cases taskId
                (sanitizedData (validateAndSanitizeTaskFormData fd)) prev)
      as [[_ ->]|[_ (i & x & _ & _ & _ & ->)]]; [discriminate|].
    intros [= <-]. apply Forall_sortTasks, Forall_assignAt; [exact Hall|].
    apply valid_task_wellFormed, Hv.
  - destruct (deleteUpdater_cases taskId prev) as [[_ ->]|[_ ->]]; [discriminate|].
    intros [= <-]. apply Forall_filter_kept, Hall.
  - intros [= <-]. constructor.
Qed.

(** X14. Every task the repository creates or rewrites from valid data is
    well formed: its time is canonical, its title trimmed and of 1 to 200
    characters, its priority the one the form named; a rewritten task keeps
    its id and its creation time.  Hence, when the tasks the hook shows and
    the tasks the store holds are well formed, so are the tasks of every
    collection rendered after a mutation. *)
Theorem mutations_keep_tasks_well_formed :
  (forall fd newId now tasks,
     isValid (validateAndSanitizeTaskFormData fd) = true ->
     exists newTask next,
       (forall json h,
          addTask json fd newId now h = setTasks json (Updater (addUpdater newTask)) h)
       /\ addUpdater newTask tasks = inr next
       /\ In newTask next
       /\ id newTask = newId /\ createdAt newTask = now
       /\ Spec.wellFormed newTask
       /\ Spec.storedPriority (formPriority fd) (priority newTask))
  /\ (forall fd taskId tasks next,
        isValid (validateAndSanitizeTaskFormData fd) = true ->
        updateUpdater taskId (sanitizedData (validateAndSanitizeTaskFormData fd)) tasks
        = inr next ->
        exists existing updated,
          In existing tasks /\ id existing = taskId
          /\ In updated next
          /\ id updated = id existing /\ createdAt updated = createdAt existing
          /\ Spec.wellFormed updated
          /\ Spec.storedPriority (formPriority fd) (priority updated))
  /\ (forall json m h fuel,
        Forall Spec.wellFormed (LocalStorage.storedValue h) ->
        storedCollection json (Forall Spec.wellFormed) h ->
        Forall (fun h' => Forall Spec.wellFormed (LocalStorage.storedValue h'))
          (rendered json fuel (apply json m h))).
Proof.
  split; [|split].
  - intros fd newId now tasks Hv.
    exists (newTaskOf (sanitizedData (validateAndSanitizeTaskFormData fd)) newId now).
    eexists. split; [intros json h; apply addTask_valid, Hv|].
    split; [reflexivity|]. split.
    { apply (Permutation_in _ (sortTasks_permutation _)), in_or_app.
      right. left. reflexivity. }
    split; [reflexivity|]. split; [reflexivity|].
    split; [apply valid_task_wellFormed, Hv | apply valid_priority_stored, Hv].
  - intros fd taskId tasks next Hv.
    destruct (updateUpdater_cases taskId
                (sanitizedData (validateAndSanitizeTaskFormData fd)) tasks)
      as [[_ ->]|[_ (i & x & _ & Hnth & Hid & ->)]]; [discriminate|].
    intros [= <-].
    exists x, (updatedTaskOf x (sanitizedData (validateAndSanitizeTaskFormData fd))).
    split; [exact (nth_error_In _ _ Hnth)|]. split; [exact Hid|]. split.
    { apply (Permutation_in _ (sortTasks_permutation _)), (In_assignAt _ _ x), Hnth. }
    split; [reflexivity|]. split; [reflexivity|].
    split; [apply valid_task_wellFormed, Hv | apply valid_priority_stored, Hv].
  - intros json m h fuel Hall Hst.
    assert (Hempty : Forall Spec.wellFormed []) by constructor.
    destruct m as [fd newId now|taskId fd|taskId|]; cbn [apply].
    + destruct (isValid (validateAndSanitizeTaskFormData fd)) eqn:Hv.
      * rewrite (addTask_valid _ _ _ _ _ Hv).
        apply (setTasks_keeps json _ Hempty); [|exact Hall|exact Hst].
        intros prev next. apply (updaters_keep_wellFormed (AddTask fd newId now)), Hv.
      * rewrite (addTask_invalid _ _ _ _ _ Hv). constructor.
    + destruct (isValid (validateAndSanitizeTaskFormData fd)) eqn:Hv.
      * rewrite (updateTask_valid _ _ _ _ Hv).
        apply (setTasks_keeps json _ Hempty); [|exact Hall|exact Hst].
        intros prev next. apply (updaters_keep_wellFormed (UpdateTask taskId fd)), Hv.
      * rewrite (updateTask_invalid _ _ _ _ Hv). constructor.
    + apply (setTasks_keeps json _ Hempty); [|exact Hall|exact Hst].
      intros prev next. apply (updaters_keep_wellFormed (DeleteTask taskId)), I.
    + apply (clearAllTasks_keeps json _ Hempty), Hst.
Qed.

Lemma mutations_keep_tasks_well_formed_witness :
  Forall (fun h' => Forall Spec.wellFormed (LocalStorage.storedValue h'))
    (rendered Spec.tasksJson 3
       (apply Spec.tasksJson (UpdateTask "b" Spec.paddedForm)
          (Spec.hookShowing Spec.exampleTasks Spec.fullStore))).
Proof.
  apply (proj2 (proj2 mutations_keep_tasks_well_formed)).
  - unfold Spec.hookShowing, Spec.exampleTasks, Spec.wellFormed.
    repeat constructor; simpl; lia.
  - intros item tasks Hg. discriminate Hg.
Defined.

(** *** Looking tasks up by id *)

Lemma taskExists_map tasks i : taskExists tasks i = true <-> In i (map id tasks).
Proof.
  rewrite taskExists_In, in_map_iff. split; intros (t & H1 & H2); eauto.
Qed.

Lemma getTaskById_none tasks i :
  getTaskById tasks i = None <-> taskExists tasks i = false.
Proof.
  unfold getTaskById, taskExists. induction tasks as [|t rest IH]; simpl; [tauto|].
  destruct (id t =? i)%string; simpl; [split; discriminate | exact IH].
Qed.

Lemma getTaskById_found tasks i t :
  getTaskById tasks i = Some t -> In t tasks /\ id t = i.
Proof.
  unfold getTaskById. intros H. apply find_some in H as [Hin E].
  apply String.eqb_eq in E. auto.
Qed.

Lemma getTaskById_unique tasks i t :
  Spec.uniqueIds tasks -> In t tasks -> id t = i -> getTaskById tasks i = Some t.
Proof.
  unfold Spec.uniqueIds, getTaskById.
  induction tasks as [|x rest IH]; intros Hnd Hin E; [destruct Hin|].
  simpl in *. inversion Hnd as [|? ? Hx Hrest]; subst.
  destruct Hin as [->|Hin].
  - rewrite String.eqb_refl. reflexivity.
  - destruct (String.eqb_spec (id x) (id t)) as [Ex|Ex].
    + exfalso. apply Hx. rewrite Ex. apply in_map, Hin.
    + apply IH; auto.
Qed.

Lemma uniqueIds_permutation l l' :
  Permutation l l' -> Spec.uniqueIds l -> Spec.uniqueIds l'.
Proof.
  unfold Spec.uniqueIds. intros Hp. apply Permutation_NoDup, Permutation_map, Hp.
Qed.

(** With unique ids, a lookup by id does not depend on the order of the
    collection. *)
Lemma getTaskById_permutation l l' i :
  Permutation l l' -> Spec.uniqueIds l -> getTaskById l' i = getTaskById l i.
Proof.
  intros Hp Hu. destruct (getTaskById l i) as [t|] eqn:E.
  - apply getTaskById_found in E as [Hin Hid].
    apply getTaskById_unique; [eapply uniqueIds_permutation; eauto| |exact Hid].
    eapply Permutation_in; eauto.
  - apply getTaskById_none. apply getTaskById_none in E.
    destruct (taskExists l' i) eqn:E'; [|reflexivity].
    apply taskExists_In in E' as (t & Hin & Hid).
    assert (taskExists l i = true).
    { apply taskExists_In. exists t. split; [|exact Hid].
      eapply Permutation_in; [symmetry|]; eauto. }
    congruence.
Qed.

Lemma getTaskById_filter_other tasks i j :
  i <> j ->
  getTaskById (filter (fun task => negb (id task =? j)%string) tasks) i
  = getTaskById tasks i.
Proof.
  intros Hne. unfold getTaskById. induction tasks as [|t rest IH]; [reflexivity|].
  simpl. destruct (String.eqb_spec (id t) j) as [Ej|Ej]; simpl.
  - destruct (String.eqb_spec (id t) i); [congruence | exact IH].
  - destruct (id t =? i)%string; [reflexivity | exact IH].
Qed.

Lemma filter_length_lt tasks j :
  taskExists tasks j = true ->
  (List.length (filter (fun task => negb (id task =? j)%string) tasks)
   < List.length tasks)%nat.
Proof.
  unfold taskExists. induction tasks as [|t rest IH]; [discriminate|].
  simpl. destruct (id t =? j)%string; simpl.
  - intros _. pose proof (filter_length_le
                (fun task => negb (id task =? j)%string) rest). lia.
  - intros H. specialize (IH H). lia.
Qed.

Lemma uniqueIds_filter f tasks :
  Spec.uniqueIds tasks -> Spec.uniqueIds (filter f tasks).
Proof.
  unfold Spec.uniqueIds. induction tasks as [|t rest IH]; [trivial|].
  simpl. intros H. inversion H as [|? ? Hx Hrest]; subst.
  destruct (f t); [|apply IH, Hrest].
  simpl. constructor; [|apply IH, Hrest].
  intros Hin. apply Hx. apply in_map_iff in Hin as (y & Ey & Hy).
  apply filter_In in Hy as [Hy _]. rewrite <- Ey. apply in_map, Hy.
Qed.

(** X15. The function [deleteTask] hands to [setTasks], applied to a
    collection that holds the id, removes every task with that id and only
    those: the id no longer exists, the collection is strictly shorter, the
    other tasks are found as before and keep ids unique if they were; and
    applied to its own result it throws the not-found error.  So the
    render after [deleteTask] shows that result when the store takes the
    write; when the store refuses it, the function is applied twice and the
    render throws not-found, which unmounts the hook. *)
Theorem deleteTask_removes_exactly_that_id :
  forall taskId tasks,
    taskExists tasks taskId = true ->
    exists rest,
      deleteUpdater taskId tasks = inr rest
      /\ taskExists rest taskId = false
      /\ (List.length rest < List.length tasks)%nat
      /\ (forall i, i <> taskId -> getTaskById rest i = getTaskById tasks i)
      /\ (Spec.uniqueIds tasks -> Spec.uniqueIds rest)
      /\ deleteUpdater taskId rest = inl (TaskNotFound taskId)
      /\ (forall json h storage',
            LocalStorage.storedValue h = tasks ->
            LocalStorage.setItem (LocalStorage.localStorage h) STORAGE_KEY "undefined"
            = inr storage' ->
            deleteTask json taskId h
            = Returned (LocalStorage.Shown (LocalStorage.mkHook _ rest None storage')))
      /\ (forall json h err,
            LocalStorage.storedValue h = tasks ->
            LocalStorage.setItem (LocalStorage.localStorage h) STORAGE_KEY "undefined"
            = inl err ->
            deleteTask json taskId h
            = Returned (LocalStorage.Unmounted (TaskNotFound taskId)
                          (LocalStorage.localStorage h))).
Proof.
  intros taskId tasks He.
  exists (filter (fun task => negb (id task =? taskId)%string) tasks).
  assert (Hd : deleteUpdater taskId tasks
               = inr (filter (fun task => negb (id task =? taskId)%string) tasks)).
  { destruct (deleteUpdater_cases taskId tasks) as [[Hn _]|[_ H]];
      [congruence | exact H]. }
  assert (Hd' : deleteUpdater taskId
                  (filter (fun task => negb (id task =? taskId)%string) tasks)
                = inl (TaskNotFound taskId)).
  { destruct (deleteUpdater_cases taskId
                (filter (fun task => negb (id task =? taskId)%string) tasks))
      as [[_ H]|[Hex _]]; [exact H|].
    rewrite taskExists_filter_same in Hex. discriminate. }
  split; [exact Hd|].
  split; [apply taskExists_filter_same|].
  split; [apply filter_length_lt, He|].
  split; [intros i Hi; apply getTaskById_filter_other, Hi|].
  split; [apply uniqueIds_filter|].
  split; [exact Hd'|]. split.
  - intros json h storage' <- Hw. unfold deleteTask.
    rewrite (setTasks_accepted _ _ _ _ Hw), Hd. reflexivity.
  - intros json h err <- Hw. unfold deleteTask.
    rewrite (setTasks_refused _ _ _ _ Hw), Hd, Hd'. reflexivity.
Qed.

Lemma deleteTask_removes_exactly_that_id_witness :
  exists rest,
    deleteUpdater "b" Spec.exampleTasks = inr rest
    /\ taskExists rest "b" = false
    /\ deleteTask Spec.tasksJson "b" (Spec.hookShowing Spec.exampleTasks Spec.fullStore)
       = Returned (LocalStorage.Unmounted (TaskNotFound "b") Spec.fullStore).
Proof.
  destruct (deleteTask_removes_exactly_that_id "b" Spec.exampleTasks eq_refl)
    as (rest & H1 & H2 & _ & _ & _ & _ & _ & H3).
  exists rest. split; [exact H1|]. split; [exact H2|].
  exact (H3 Spec.tasksJson (Spec.hookShowing Spec.exampleTasks Spec.fullStore)
           _ eq_refl eq_refl).
Defined.

(** *** Adding and updating *)

Lemma uniqueIds_snoc tasks t :
  Spec.uniqueIds tasks -> taskExists tasks (id t) = false ->
  Spec.uniqueIds (tasks ++ [t]).
Proof.
  unfold Spec.uniqueIds. intros Hu Hf.
  rewrite map_app. simpl.
  apply (Permutation_NoDup (Permutation_cons_append (map id tasks) (id t))).
  constructor; [|exact Hu].
  intros Hin. apply taskExists_map in Hin. congruence.
Qed.

Lemma getTaskById_snoc_other tasks t i :
  id t <> i -> getTaskById (tasks ++ [t]) i = getTaskById tasks i.
Proof.
  intros Hne. unfold getTaskById. induction tasks as [|x rest IH]; simpl.
  - destruct (String.eqb_spec (id t) i); [contradiction | reflexivity].
  - destruct (id x =? i)%string; [reflexivity | exact IH].
Qed.

(** X16. The function [addTask] hands to [setTasks] puts exactly one new
    task into a collection: the result is a rearrangement of the old tasks
    and the new one, one longer than before, and the new id exists in it.
    When the new id is fresh and the ids were unique, they stay unique, the
    new task is found under its id, and every other id is found as before.
    When the new id is already taken, the task is added all the same and
    the ids are no longer unique: [addTask] does not look for a collision.
    The render after [addTask] shows that result when the store takes the
    write.  When the store refuses the write, the function is applied
    twice: the collection rendered holds the new task twice and its ids
    are not unique. *)
Theorem addTask_adds_one_task :
  forall fd newId now tasks,
    isValid (validateAndSanitizeTaskFormData fd) = true ->
    exists newTask result,
      addUpdater newTask tasks = inr result
      /\ id newTask = newId /\ createdAt newTask = now
      /\ Permutation (newTask :: tasks) result
      /\ List.length result = S (List.length tasks)
      /\ taskExists result newId = true
      /\ (Spec.uniqueIds tasks -> taskExists tasks newId = false ->
          Spec.uniqueIds result
          /\ getTaskById result newId = Some newTask
          /\ forall i, i <> newId -> getTaskById result i = getTaskById tasks i)
      /\ (taskExists tasks newId = true -> ~ Spec.uniqueIds result)
      /\ (forall json h storage',
            LocalStorage.storedValue h = tasks ->
            LocalStorage.setItem (LocalStorage.localStorage h) STORAGE_KEY "undefined"
            = inr storage' ->
            addTask json fd newId now h
            = Returned (LocalStorage.Shown (LocalStorage.mkHook _ result None storage')))
      /\ (forall json h err,
            LocalStorage.storedValue h = tasks ->
            LocalStorage.setItem (LocalStorage.localStorage h) STORAGE_KEY "undefined"
            = inl err ->
            exists twice,
              addTask json fd newId now h
              = Returned (LocalStorage.Shown (LocalStorage.mkHook _ twice
                            (Some (LocalStorage.saveErrorMessage err))
                            (LocalStorage.localStorage h)))
              /\ Permutation (newTask :: newTask :: tasks) twice
              /\ ~ Spec.uniqueIds twice).
Proof.
  intros fd newId now tasks Hv.
  set (newTask := newTaskOf (sanitizedData (validateAndSanitizeTaskFormData fd))
                    newId now).
  exists newTask, (sortTasks (tasks ++ [newTask])).
  split; [reflexivity|].
  assert (Hperm : Permutation (newTask :: tasks) (sortTasks (tasks ++ [newTask]))).
  { rewrite <- sortTasks_permutation. apply Permutation_cons_append. }
  split; [reflexivity|]. split; [reflexivity|]. split; [exact Hperm|].
  split; [rewrite <- (Permutation_length Hperm); reflexivity|].
  split.
  { apply taskExists_In. exists newTask. split; [|reflexivity].
    apply (Permutation_in _ Hperm). left. reflexivity. }
  split; [|split; [|split]].
  - intros Hu Hf.
    assert (Hu' : Spec.uniqueIds (tasks ++ [newTask]))
      by (apply uniqueIds_snoc; assumption).
    split; [exact (uniqueIds_permutation _ _ (sortTasks_permutation _) Hu')|].
    split.
    + rewrite (getTaskById_permutation _ _ newId (sortTasks_permutation _) Hu').
      apply getTaskById_unique; [exact Hu'| |reflexivity].
      apply in_or_app. right. left. reflexivity.
    + intros i Hi.
      rewrite (getTaskById_permutation _ _ i (sortTasks_permutation _) Hu').
      apply getTaskById_snoc_other. cbn. congruence.
  - intros He Hu.
    apply (uniqueIds_permutation _ _ (Permutation_sym Hperm)) in Hu.
    unfold Spec.uniqueIds in Hu. simpl in Hu.
    inversion Hu as [|? ? Hx _]; subst. apply Hx, taskExists_map, He.
  - intros json h storage' <- Hw. rewrite (addTask_valid _ _ _ _ _ Hv).
    rewrite (setTasks_accepted _ _ _ _ Hw). reflexivity.
  - intros json h err <- Hw.
    exists (sortTasks (sortTasks (LocalStorage.storedValue h ++ [newTask]) ++ [newTask])).
    split.
    { rewrite (addTask_valid _ _ _ _ _ Hv), (setTasks_refused _ _ _ _ Hw).
      reflexivity. }
    assert (Hperm2 : Permutation (newTask :: newTask :: LocalStorage.storedValue h)
              (sortTasks (sortTasks (LocalStorage.storedValue h ++ [newTask])
                          ++ [newTask]))).
    { rewrite <- sortTasks_permutation, <- Permutation_cons_append.
      apply perm_skip, Hperm. }
    split; [exact Hperm2|].
    intros Hu. apply (uniqueIds_permutation _ _ (Permutation_sym Hperm2)) in Hu.
    unfold Spec.uniqueIds in Hu. simpl in Hu.
    inversion Hu as [|? ? Hx _]; subst. apply Hx. left. reflexivity.
Qed.

Lemma addTask_adds_one_task_witness :
  exists newTask result,
    addUpdater newTask Spec.exampleTasks = inr result
    /\ getTaskById result "d" = Some newTask.
Proof.
  destruct (addTask_adds_one_task Spec.validForm "d" 4 Spec.exampleTasks eq_refl)
    as (newTask & result & Hadd & _ & _ & _ & _ & _ & Hfresh & _).
  exists newTask, result. split; [exact Hadd|].
  apply Hfresh; [|reflexivity].
  unfold Spec.uniqueIds. simpl.
  repeat constructor; simpl; intuition discriminate.
Defined.

Lemma map_id_assignAt tasks i existing updated :
  nth_error tasks i = Some existing -> id updated = id existing ->
  map id (JsArray.assignAt tasks i updated) = map id tasks.
Proof.
  revert i. induction tasks as [|t rest IH]; intros [|i]; simpl; try discriminate.
  - intros [= ->] E. rewrite E. reflexivity.
  - intros H E. rewrite (IH _ H E). reflexivity.
Qed.

Lemma getTaskById_assignAt_other tasks i existing updated j :
  nth_error tasks i = Some existing -> id updated = id existing -> id existing <> j ->
  getTaskById (JsArray.assignAt tasks i updated) j = getTaskById tasks j.
Proof.
  unfold getTaskById. revert i.
  induction tasks as [|t rest IH]; intros [|i]; simpl; try discriminate.
  - intros [= ->] E Hne. rewrite E.
    destruct (String.eqb_spec (id existing) j); [contradiction | reflexivity].
  - intros H E Hne. destruct (id t =? j)%string; [reflexivity|]. apply (IH _ H E Hne).
Qed.

Lemma assignAt_same {A : Type} (l : list A) i x :
  nth_error l i = Some x -> JsArray.assignAt l i x = l.
Proof.
  revert i. induction l as [|y rest IH]; intros [|i]; simpl; try discriminate.
  - intros [= ->]. reflexivity.
  - intros H. rewrite (IH _ H). reflexivity.
Qed.

Lemma uniqueIds_same_id tasks a b :
  Spec.uniqueIds tasks -> In a tasks -> In b tasks -> id a = id b -> a = b.
Proof.
  intros Hu Ha Hb E.
  pose proof (getTaskById_unique tasks (id a) a Hu Ha eq_refl) as H1.
  pose proof (getTaskById_unique tasks (id a) b Hu Hb (eq_sym E)) as H2.
  congruence.
Qed.

Lemma sortTasks_of_sorted tasks :
  isTaskListSorted tasks = true -> sortTasks tasks = tasks.
Proof.
  intros H. apply SortExtras.sort_of_sorted, isTaskListSorted_StronglySorted, H.
Qed.

Lemma updateUpdater_uniqueIds taskId sanitized tasks next :
  Spec.uniqueIds tasks -> updateUpdater taskId sanitized tasks = inr next ->
  Spec.uniqueIds next.
Proof.
  intros Hu.
  destruct (updateUpdater_cases taskId sanitized tasks)
    as [[_ ->]|[_ (i & x & _ & Hnth & _ & ->)]]; [discriminate|].
  intros [= <-]. apply (uniqueIds_permutation _ _ (sortTasks_permutation _)).
  unfold Spec.uniqueIds.
  rewrite (map_id_assignAt _ _ x) by (auto; reflexivity). exact Hu.
Qed.

(** With unique ids, the function of [updateTask] applied to its own
    result changes nothing. *)
Lemma updateUpdater_again taskId sanitized tasks next :
  Spec.uniqueIds tasks -> updateUpdater taskId sanitized tasks = inr next ->
  updateUpdater taskId sanitized next = inr next.
Proof.
  intros Hu Hnext.
  pose proof (updateUpdater_uniqueIds _ _ _ _ Hu Hnext) as Hu'.
  pose proof (updateUpdater_keeps_id _ _ _ _ Hnext) as He'.
  destruct (updateUpdater_cases taskId sanitized tasks)
    as [[_ H]|[_ (i & x & _ & Hnth & Hid & H)]]; [congruence|].
  rewrite H in Hnext. injection Hnext as Hnext.
  assert (Hin : In (updatedTaskOf x sanitized) next).
  { rewrite <- Hnext.
    apply (Permutation_in _ (sortTasks_permutation _)), (In_assignAt _ _ x), Hnth. }
  destruct (updateUpdater_cases taskId sanitized next)
    as [[Hn _]|[_ (j & y & _ & Hnth' & Hid' & ->)]]; [congruence|].
  assert (Ey : y = updatedTaskOf x sanitized).
  { apply (uniqueIds_same_id next); [exact Hu' | exact (nth_error_In _ _ Hnth') | exact Hin|].
    rewrite Hid'. symmetry. exact Hid. }
  subst y.
  change (updatedTaskOf (updatedTaskOf x sanitized) sanitized)
    with (updatedTaskOf x sanitized).
  rewrite (assignAt_same _ _ _ Hnth'). f_equal.
  apply sortTasks_of_sorted. rewrite <- Hnext. apply isTaskListSorted_sortTasks.
Qed.

(** X17. The function [updateTask] hands to [setTasks], applied to a
    collection that holds the id, rewrites one task and keeps its id and
    creation time: the collection keeps its length and its ids.  When ids
    are unique they stay unique, the task found under the id afterwards
    carries the sanitized time, title and priority with the old creation
    time, every other id is found as before, and a second application
    changes nothing more.  The render after [updateTask] shows that result
    when the store takes the write, and with unique ids also when the
    store refuses it and the function is applied twice. *)
Theorem updateTask_rewrites_one_task :
  forall taskId fd tasks,
    isValid (validateAndSanitizeTaskFormData fd) = true ->
    taskExists tasks taskId = true ->
    exists existing updated result,
      updateUpdater taskId (sanitizedData (validateAndSanitizeTaskFormData fd)) tasks
      = inr result
      /\ In existing tasks /\ id existing = taskId
      /\ id updated = taskId /\ createdAt updated = createdAt existing
      /\ time updated = stringField (formTime (sanitizeTaskFormData fd))
      /\ title updated = stringField (formTitle (sanitizeTaskFormData fd))
      /\ Spec.storedPriority (formPriority fd) (priority updated)
      /\ In updated result
      /\ List.length result = List.length tasks
      /\ Permutation (map id tasks) (map id result)
      /\ (Spec.uniqueIds tasks ->
          Spec.uniqueIds result
          /\ getTaskById tasks taskId = Some existing
          /\ getTaskById result taskId = Some updated
          /\ (forall i, i <> taskId -> getTaskById result i = getTaskById tasks i)
          /\ updateUpdater taskId (sanitizedData (validateAndSanitizeTaskFormData fd))
               result = inr result)
      /\ (forall json h storage',
            LocalStorage.storedValue h = tasks ->
            LocalStorage.setItem (LocalStorage.localStorage h) STORAGE_KEY "undefined"
            = inr storage' ->
            updateTask json taskId fd h
            = Returned (LocalStorage.Shown (LocalStorage.mkHook _ result None storage')))
      /\ (forall json h err,
            LocalStorage.storedValue h = tasks ->
            Spec.uniqueIds tasks ->
            LocalStorage.setItem (LocalStorage.localStorage h) STORAGE_KEY "undefined"
            = inl err ->
            updateTask json taskId fd h
            = Returned (LocalStorage.Shown (LocalStorage.mkHook _ result
                          (Some (LocalStorage.saveErrorMessage err))
                          (LocalStorage.localStorage h)))).
Proof.
  intros taskId fd tasks Hv He.
  destruct (updateUpdater_cases taskId
              (sanitizedData (validateAndSanitizeTaskFormData fd)) tasks)
    as [[Hn _]|[_ (i & existing & _ & Hnth & Hid & Hu)]]; [congruence|].
  set (updated := updatedTaskOf existing
                    (sanitizedData (validateAndSanitizeTaskFormData fd))) in *.
  exists existing, updated, (sortTasks (JsArray.assignAt tasks i updated)).
  split; [exact Hu|].
  assert (Hids : map id (JsArray.assignAt tasks i updated) = map id tasks)
    by (apply (map_id_assignAt _ _ existing); [exact Hnth | reflexivity]).
  assert (Hperm : Permutation (JsArray.assignAt tasks i updated)
                    (sortTasks (JsArray.assignAt tasks i updated)))
    by apply sortTasks_permutation.
  split; [exact (nth_error_In _ _ Hnth)|]. split; [exact Hid|].
  split; [exact Hid|]. split; [reflexivity|]. split; [reflexivity|].
  split; [reflexivity|]. split; [apply valid_priority_stored, Hv|].
  split; [apply (Permutation_in _ Hperm), (In_assignAt _ _ existing), Hnth|].
  split.
  { rewrite <- (Permutation_length Hperm), <- (length_map id), Hids.
    apply length_map. }
  split; [rewrite <- Hids; apply Permutation_map, Hperm|].
  split; [|split].
  - intros Huniq.
    assert (Huniq' : Spec.uniqueIds (JsArray.assignAt tasks i updated))
      by (unfold Spec.uniqueIds; rewrite Hids; exact Huniq).
    split; [exact (uniqueIds_permutation _ _ Hperm Huniq')|].
    split; [apply getTaskById_unique; [exact Huniq | exact (nth_error_In _ _ Hnth) | exact Hid]|].
    split; [|split].
    + rewrite (getTaskById_permutation _ _ taskId Hperm Huniq').
      apply getTaskById_unique; [exact Huniq'| |exact Hid].
      apply (In_assignAt _ _ existing), Hnth.
    + intros j Hj. rewrite (getTaskById_permutation _ _ j Hperm Huniq').
      apply (getTaskById_assignAt_other _ _ existing); [exact Hnth | reflexivity|].
      congruence.
    + exact (updateUpdater_again _ _ _ _ Huniq Hu).
  - intros json h storage' <- Hw. rewrite (updateTask_valid _ _ _ _ Hv).
    rewrite (setTasks_accepted _ _ _ _ Hw), Hu. reflexivity.
  - intros json h err <- Huniq Hw. rewrite (updateTask_valid _ _ _ _ Hv).
    rewrite (setTasks_refused _ _ _ _ Hw), Hu.
    rewrite (updateUpdater_again _ _ _ _ Huniq Hu). reflexivity.
Qed.

Lemma updateTask_rewrites_one_task_witness :
  exists existing updated result,
    updateUpdater "b" (sanitizedData (validateAndSanitizeTaskFormData Spec.validForm))
      Spec.exampleTasks = inr result
    /\ createdAt updated = createdAt existing
    /\ time updated = "10:15"
    /\ In updated result.
Proof.
  destruct (updateTask_rewrites_one_task "b" Spec.validForm Spec.exampleTasks
              eq_refl eq_refl)
    as (existing & updated & result & Hu & _ & _ & _ & Hc & Ht & _ & _ & Hin & _).
  exists existing, updated, result.
  split; [exact Hu|]. split; [exact Hc|]. split; [exact Ht | exact Hin].
Defined.

(** *** Invariants and composition *)

(** X18. Ids stay unique: if no two tasks share an id, among those the
    hook shows and among those the store holds, the same is true of every
    collection rendered after a mutation, provided the id handed to
    [addTask] is not in use yet and the store takes the write of
    [addTask]. *)
Theorem mutations_keep_ids_unique :
  forall json m h fuel,
    Spec.uniqueIds (LocalStorage.storedValue h) ->
    storedCollection json Spec.uniqueIds h ->
    (forall fd newId now,
       m = AddTask fd newId now ->
       taskExists (LocalStorage.storedValue h) newId = false /\ acceptsUpdater h) ->
    Forall (fun h' => Spec.uniqueIds (LocalStorage.storedValue h'))
      (rendered json fuel (apply json m h)).
Proof.
  intros json m h fuel Hu Hst Hfresh.
  assert (Hempty : Spec.uniqueIds []) by constructor.
  destruct m as [fd newId now|taskId fd|taskId|]; cbn [apply].
  - destruct (isValid (validateAndSanitizeTaskFormData fd)) eqn:Hv.
    + rewrite (addTask_valid _ _ _ _ _ Hv).
      destruct (Hfresh fd newId now eq_refl) as [Hf Hacc].
      apply (setTasks_accepted_keeps json _ Hempty); [exact Hacc|].
      intros next [= <-].
      apply (uniqueIds_permutation _ _ (sortTasks_permutation _)).
      apply uniqueIds_snoc; [exact Hu | exact Hf].
    + rewrite (addTask_invalid _ _ _ _ _ Hv). constructor.
  - destruct (isValid (validateAndSanitizeTaskFormData fd)) eqn:Hv.
    + rewrite (updateTask_valid _ _ _ _ Hv).
      apply (setTasks_keeps json _ Hempty); [|exact Hu|exact Hst].
      intros prev next Hp. apply updateUpdater_uniqueIds, Hp.
    + rewrite (updateTask_invalid _ _ _ _ Hv). constructor.
  - apply (setTasks_keeps json _ Hempty); [|exact Hu|exact Hst].
    intros prev next Hp.
    destruct (deleteUpdater_cases taskId prev) as [[_ ->]|[_ ->]]; [discriminate|].
    intros [= <-]. apply uniqueIds_filter, Hp.
  - apply (clearAllTasks_keeps json _ Hempty), Hst.
Qed.

Lemma mutations_keep_ids_unique_witness :
  Forall (fun h' => Spec.uniqueIds (LocalStorage.storedValue h'))
    (rendered Spec.tasksJson 3
       (apply Spec.tasksJson (DeleteTask "a")
          (Spec.hookShowing Spec.exampleTasks Spec.emptyStore))).
Proof.
  apply mutations_keep_ids_unique.
  - unfold Spec.uniqueIds. simpl. repeat constructor; simpl; intuition discriminate.
  - intros item tasks Hg. discriminate Hg.
  - discriminate.
Defined.

(** X19. The repository may be handed the raw form or the sanitized data
    the form component computed from it: [addTask] and [updateTask] return
    the same outcome for both. *)
Theorem repository_accepts_sanitized_data :
  forall fd,
    (forall json newId now h,
       addTask json (sanitizedData (validateAndSanitizeTaskFormData fd)) newId now h
       = addTask json fd newId now h)
    /\ (forall json taskId h,
          updateTask json taskId (sanitizedData (validateAndSanitizeTaskFormData fd)) h
          = updateTask json taskId fd h).
Proof.
  intros fd. split; intros; unfold addTask, updateTask;
    rewrite ValidationExtras.validateAndSanitize_sanitized; reflexivity.
Qed.

(** *** The other tasks stay where they are *)

Lemma filter_assignAt (f : Task -> bool) tasks i existing updated :
  nth_error tasks i = Some existing -> f existing = false -> f updated = false ->
  filter f (JsArray.assignAt tasks i updated) = filter f tasks.
Proof.
  revert i. induction tasks as [|t rest IH]; intros [|i]; simpl; try discriminate.
  - intros [= ->] He Hu. rewrite He, Hu. reflexivity.
  - intros H He Hu. rewrite (IH _ H He Hu). reflexivity.
Qed.

Lemma filter_all_kept {A : Type} (f : A -> bool) l :
  forallb f l = true -> filter f l = l.
Proof.
  induction l as [|x rest IH]; [reflexivity|]. simpl.
  intros H. apply andb_true_iff in H as [Hx Hr]. rewrite Hx, (IH Hr). reflexivity.
Qed.

Lemma filter_sortTasks f tasks : filter f (sortTasks tasks) = sortTasks (filter f tasks).
Proof. apply SortExtras.filter_sort; [apply taskLe_total | apply taskLe_trans]. Qed.

(** X25. The functions of [addTask] and [updateTask] never reorder the
    other tasks: applied to a sorted collection, they leave the tasks other
    than the one added (under a fresh id) or updated in the order they
    stood in before.  So it is in the collection rendered after the call
    when the store takes the write. *)
Theorem other_tasks_keep_their_order :
  (forall newTask tasks result,
     isTaskListSorted tasks = true ->
     taskExists tasks (id newTask) = false ->
     addUpdater newTask tasks = inr result ->
     filter (fun task => negb (id task =? id newTask)%string) result = tasks)
  /\ (forall taskId sanitized tasks result,
        isTaskListSorted tasks = true ->
        updateUpdater taskId sanitized tasks = inr result ->
        filter (fun task => negb (id task =? taskId)%string) result
        = filter (fun task => negb (id task =? taskId)%string) tasks)
  /\ (forall json fd newId now h,
        isValid (validateAndSanitizeTaskFormData fd) = true ->
        isTaskListSorted (LocalStorage.storedValue h) = true ->
        taskExists (LocalStorage.storedValue h) newId = false ->
        acceptsUpdater h ->
        exists h',
          addTask json fd newId now h = Returned (LocalStorage.Shown h')
          /\ filter (fun task => negb (id task =? newId)%string)
               (LocalStorage.storedValue h')
             = LocalStorage.storedValue h)
  /\ (forall json taskId fd h,
        isValid (validateAndSanitizeTaskFormData fd) = true ->
        isTaskListSorted (LocalStorage.storedValue h) = true ->
        taskExists (LocalStorage.storedValue h) taskId = true ->
        acceptsUpdater h ->
        exists h',
          updateTask json taskId fd h = Returned (LocalStorage.Shown h')
          /\ filter (fun task => negb (id task =? taskId)%string)
               (LocalStorage.storedValue h')
             = filter (fun task => negb (id task =? taskId)%string)
                 (LocalStorage.storedValue h)).
Proof.
  assert (Hadd : forall newTask tasks result,
     isTaskListSorted tasks = true ->
     taskExists tasks (id newTask) = false ->
     addUpdater newTask tasks = inr result ->
     filter (fun task => negb (id task =? id newTask)%string) result = tasks).
  { intros newTask tasks result Hs Hf [= <-].
    rewrite filter_sortTasks, filter_app. simpl. rewrite String.eqb_refl. simpl.
    rewrite app_nil_r, filter_all_kept; [apply sortTasks_of_sorted, Hs|].
    unfold taskExists in Hf. clear - Hf.
    induction tasks as [|t rest IH]; [reflexivity|]. simpl in *.
    destruct (id t =? id newTask)%string; [discriminate|]. simpl. apply IH, Hf. }
  assert (Hupd : forall taskId sanitized tasks result,
        isTaskListSorted tasks = true ->
        updateUpdater taskId sanitized tasks = inr result ->
        filter (fun task => negb (id task =? taskId)%string) result
        = filter (fun task => negb (id task =? taskId)%string) tasks).
  { intros taskId sanitized tasks result Hs.
    destruct (updateUpdater_cases taskId sanitized tasks)
      as [[_ ->]|[_ (i & x & _ & Hnth & Hid & ->)]]; [discriminate|].
    intros [= <-]. rewrite filter_sortTasks.
    rewrite (filter_assignAt _ _ _ x) by
      (try exact Hnth; cbn [id updatedTaskOf]; rewrite Hid, String.eqb_refl; reflexivity).
    apply sortTasks_of_sorted, isTaskListSorted_filter, Hs. }
  split; [exact Hadd|]. split; [exact Hupd|]. split.
  - intros json fd newId now h Hv Hs Hf [storage' Hw].
    rewrite (addTask_valid _ _ _ _ _ Hv), (setTasks_accepted _ _ _ _ Hw).
    eexists. split; [reflexivity|]. cbn [LocalStorage.storedValue].
    apply (Hadd (newTaskOf (sanitizedData (validateAndSanitizeTaskFormData fd))
                   newId now)); [exact Hs | exact Hf | reflexivity].
  - intros json taskId fd h Hv Hs He [storage' Hw].
    rewrite (updateTask_valid _ _ _ _ Hv), (setTasks_accepted _ _ _ _ Hw).
    destruct (updateUpdater_cases taskId
                (sanitizedData (validateAndSanitizeTaskFormData fd))
                (LocalStorage.storedValue h))
      as [[Hn _]|[_ (i & x & _ & _ & _ & Hu)]]; [congruence|].
    rewrite Hu. eexists. split; [reflexivity|]. cbn [LocalStorage.storedValue].
    apply (Hupd _ _ _ _ Hs Hu).
Qed.

Lemma other_tasks_keep_their_order_witness :
  exists h',
    addTask Spec.tasksJson Spec.validForm "d" 4
      (Spec.hookShowing Spec.sortedTasks Spec.emptyStore)
    = Returned (LocalStorage.Shown h')
    /\ filter (fun task => negb (id task =? "d")%string) (LocalStorage.storedValue h')
       = Spec.sortedTasks.
Proof.
  apply (proj1 (proj2 (proj2 other_tasks_keep_their_order))
           Spec.tasksJson Spec.validForm "d" 4
           (Spec.hookShowing Spec.sortedTasks Spec.emptyStore));
    try reflexivity.
  eexists. reflexivity.
Defined.

(** *** What a working store does to the collection *)

(** X27. A function written through [setTasks] does not survive the next
    run of the loading effect.  On a store whose calls under the key of
    the tasks do not throw, the render after the call shows the collection
    the function returned, with the text undefined in the store; the
    effect then fails to parse that text, removes it and resets the hook,
    and the render after it shows the empty collection with the
    corrupted-data error; no further render follows.  So it is after every
    [addTask] with valid data. *)
Theorem function_write_is_read_back_as_corrupted :
  (forall json updater h next fuel,
     updater (LocalStorage.storedValue h) = inr next ->
     LocalStorage.getItemFault (LocalStorage.localStorage h) STORAGE_KEY = None ->
     LocalStorage.setItemFault (LocalStorage.localStorage h) STORAGE_KEY "undefined"
     = None ->
     LocalStorage.removeItemFault (LocalStorage.localStorage h) STORAGE_KEY = None ->
     exists storage1 storage2,
       rendered json (S fuel) (setTasks json (Updater updater) h)
       = [ LocalStorage.mkHook _ next None storage1;
           LocalStorage.mkHook _ [] (Some Spec.corrupted) storage2 ]
       /\ LocalStorage.items storage1 STORAGE_KEY = Some "undefined"
       /\ LocalStorage.items storage2 STORAGE_KEY = None)
  /\ (forall json fd newId now h fuel,
        isValid (validateAndSanitizeTaskFormData fd) = true ->
        LocalStorage.getItemFault (LocalStorage.localStorage h) STORAGE_KEY = None ->
        LocalStorage.setItemFault (LocalStorage.localStorage h) STORAGE_KEY "undefined"
        = None ->
        LocalStorage.removeItemFault (LocalStorage.localStorage h) STORAGE_KEY = None ->
        exists h1 h2,
          rendered json (S fuel) (addTask json fd newId now h) = [h1; h2]
          /\ taskExists (LocalStorage.storedValue h1) newId = true
          /\ LocalStorage.storedValue h2 = []
          /\ LocalStorage.error h2 = Some Spec.corrupted).
Proof.
  assert (H : forall json updater h next fuel,
     updater (LocalStorage.storedValue h) = inr next ->
     LocalStorage.getItemFault (LocalStorage.localStorage h) STORAGE_KEY = None ->
     LocalStorage.setItemFault (LocalStorage.localStorage h) STORAGE_KEY "undefined"
     = None ->
     LocalStorage.removeItemFault (LocalStorage.localStorage h) STORAGE_KEY = None ->
     exists storage1 storage2,
       rendered json (S fuel) (setTasks json (Updater updater) h)
       = [ LocalStorage.mkHook _ next None storage1;
           LocalStorage.mkHook _ [] (Some Spec.corrupted) storage2 ]
       /\ LocalStorage.items storage1 STORAGE_KEY = Some "undefined"
       /\ LocalStorage.items storage2 STORAGE_KEY = None).
  { intros json updater h next fuel Hu Hg Hs Hr.
    unfold setTasks, LocalStorage.setValueWith, LocalStorage.setItem.
    rewrite Hs, Hu. eexists _, _. split; [|split].
    - cbn [rendered]. unfold rerenders. cbn [LocalStorage.rerenders].
      unfold LocalStorage.loadSetsState, LocalStorage.loadEffect, LocalStorage.getItem.
      cbn [LocalStorage.localStorage LocalStorage.withItems LocalStorage.getItemFault
           LocalStorage.items].
      rewrite Hg, String.eqb_refl. cbn [isEmpty negb].
      rewrite (parse_undefined json).
      unfold LocalStorage.resetCorrupted, LocalStorage.removeItem.
      cbn [LocalStorage.localStorage LocalStorage.withItems
           LocalStorage.removeItemFault LocalStorage.items].
      rewrite Hr. f_equal. f_equal.
      destruct fuel as [|fuel]; [reflexivity|].
      cbn [LocalStorage.rerenders].
      unfold LocalStorage.loadSetsState, LocalStorage.getItem.
      cbn [LocalStorage.localStorage LocalStorage.withItems LocalStorage.getItemFault
           LocalStorage.items].
      rewrite Hg, String.eqb_refl. reflexivity.
    - reflexivity.
    - reflexivity. }
  split; [exact H|].
  intros json fd newId now h fuel Hv Hg Hs Hr.
  rewrite (addTask_valid _ _ _ _ _ Hv).
  destruct (H json
              (addUpdater (newTaskOf (sanitizedData (validateAndSanitizeTaskFormData fd))
                             newId now))
              h _ fuel eq_refl Hg Hs Hr) as (storage1 & storage2 & -> & _).
  eexists _, _. split; [reflexivity|]. split; [|split; reflexivity].
  cbn [LocalStorage.storedValue]. apply taskExists_In.
  exists (newTaskOf (sanitizedData (validateAndSanitizeTaskFormData fd)) newId now).
  split; [|reflexivity].
  apply (Permutation_in _ (sortTasks_permutation _)), in_or_app.
  right. left. reflexivity.
Qed.

Lemma function_write_is_read_back_as_corrupted_witness :
  exists h1 h2,
    rendered Spec.tasksJson 3
      (addTask Spec.tasksJson Spec.validForm "d" 4
         (Spec.hookShowing Spec.sortedTasks Spec.emptyStore)) = [h1; h2]
    /\ taskExists (LocalStorage.storedValue h1) "d" = true
    /\ LocalStorage.storedValue h2 = []
    /\ LocalStorage.error h2 = Some Spec.corrupted.
Proof.
  exact (proj2 function_write_is_read_back_as_corrupted Spec.tasksJson Spec.validForm
           "d" 4 (Spec.hookShowing Spec.sortedTasks Spec.emptyStore) 2%nat
           eq_refl eq_refl eq_refl eq_refl).
Defined.

End RepositoryExtras.

(** ** More on the persistent store *)

Module StorageExtras.
Import JsString LocalStorage StorageFacts.

Section Hook.
Variable T : Type.
Variable JSON_parse : string -> option T.
Variable JSON_stringify : T -> Thrown + string.
Variable key : string.
Variable initialValue : T.

Lemma setItem_frame storage text storage' :
  setItem storage key text = inr storage' ->
  (forall k, k <> key -> items storage' k = items storage k)
  /\ getItemFault storage' = getItemFault storage
  /\ setItemFault storage' = setItemFault storage
  /\ removeItemFault storage' = removeItemFault storage.
Proof.
  unfold setItem. destruct (setItemFault storage key text); [discriminate|].
  intros [= <-]. cbn. repeat split.
  intros k Hk. destruct (String.eqb_spec k key); [contradiction | reflexivity].
Qed.

Lemma removeItem_frame storage storage' :
  removeItem storage key = inr storage' ->
  (forall k, k <> key -> items storage' k = items storage k)
  /\ getItemFault storage' = getItemFault storage
  /\ setItemFault storage' = setItemFault storage
  /\ removeItemFault storage' = removeItemFault storage.
Proof.
  unfold removeItem. destruct (removeItemFault storage key); [discriminate|].
  intros [= <-]. cbn. repeat split.
  intros k Hk. destruct (String.eqb_spec k key); [contradiction | reflexivity].
Qed.

Lemma load_readable storage item value :
  getItem storage key = inr (Some item) -> isEmpty item = false ->
  JSON_parse item = Some value ->
  useLocalStorage T JSON_parse key initialValue storage
  = {| storedValue := value; error := None; localStorage := storage |}.
Proof.
  intros Hg Hi Hp. unfold useLocalStorage, loadEffect.
  cbn [localStorage mount]. rewrite Hg, Hi, Hp. reflexivity.
Qed.

End Hook.

(** X20. A value saved is the value a later mount loads: when the store
    accepts the write, reads do not throw, and the serialized text is not
    empty and parses back to the value, mounting the hook on the store the
    write left behind yields that value with no error. *)
Theorem saved_value_is_loaded_back :
  forall (T : Type) (JSON_parse : string -> option T)
         (JSON_stringify : T -> Thrown + string) (key : string)
         (initialValue value : T) (h : Hook T) (text : string) (storage' : Storage),
    JSON_stringify value = inr text ->
    JSON_parse text = Some value ->
    text <> "" ->
    setItem (localStorage h) key text = inr storage' ->
    getItemFault (localStorage h) key = None ->
    localStorage (setValue T JSON_stringify key value h) = storage'
    /\ useLocalStorage T JSON_parse key initialValue storage'
       = {| storedValue := value; error := None; localStorage := storage' |}.
Proof.
  intros T JSON_parse JSON_stringify key initialValue value h text storage'
         Hs Hp Hne Hw Hg.
  rewrite (setValue_saved _ _ _ _ _ _ _ Hs Hw). split; [reflexivity|].
  apply (load_readable _ _ _ _ _ text).
  - unfold getItem.
    destruct (setItem_frame key _ _ _ Hw) as (_ & -> & _).
    rewrite Hg, (setItem_stores _ _ _ _ Hw). reflexivity.
  - destruct text; [destruct (Hne eq_refl) | reflexivity].
  - exact Hp.
Qed.

Lemma saved_value_is_loaded_back_witness :
  storedValue
    (useLocalStorage Z Spec.parseNumber "k" 0
       (localStorage (setValue Z Spec.stringifyNumber "k" 42 (mount Z 0 Spec.emptyStore))))
  = 42.
Proof.
  destruct (saved_value_is_loaded_back Z Spec.parseNumber Spec.stringifyNumber "k" 0 42
              (mount Z 0 Spec.emptyStore) "42" _
              eq_refl eq_refl ltac:(discriminate) eq_refl eq_refl) as (-> & ->).
  reflexivity.
Defined.

(** X21. Loading never touches another key, and it treats a store that
    cannot be read like corrupted data.  When the item under the key is a
    non-empty text that parses, the hook holds the parsed value, reports no
    error and leaves the store as it was.  When reading the key throws,
    the hook removes the key and reports the corrupted-data error, or
    reports the inaccessible-store error when the removal throws as well;
    in both cases it holds the initial value. *)
Theorem load_outcomes :
  forall (T : Type) (JSON_parse : string -> option T) (key : string)
         (initialValue : T) (storage : Storage),
    (forall item value,
       getItem storage key = inr (Some item) -> item <> "" ->
       JSON_parse item = Some value ->
       useLocalStorage T JSON_parse key initialValue storage
       = {| storedValue := value; error := None; localStorage := storage |})
    /\ (forall e storage',
          getItem storage key = inl e -> removeItem storage key = inr storage' ->
          useLocalStorage T JSON_parse key initialValue storage
          = {| storedValue := initialValue; error := Some Spec.corrupted;
               localStorage := storage' |})
    /\ (forall e e',
          getItem storage key = inl e -> removeItem storage key = inl e' ->
          useLocalStorage T JSON_parse key initialValue storage
          = {| storedValue := initialValue; error := Some Spec.inaccessible;
               localStorage := storage |})
    /\ (forall k, k <> key ->
          items (localStorage (useLocalStorage T JSON_parse key initialValue storage)) k
          = items storage k).
Proof.
  intros T JSON_parse key initialValue storage. split; [|split; [|split]].
  - intros item value Hg Hne Hp. apply (load_readable _ _ _ _ _ item); auto.
    destruct item; [destruct (Hne eq_refl) | reflexivity].
  - intros e storage' Hg Hr. unfold useLocalStorage, loadEffect, resetCorrupted.
    cbn [localStorage mount]. rewrite Hg, Hr. reflexivity.
  - intros e e' Hg Hr. unfold useLocalStorage, loadEffect, resetCorrupted.
    cbn [localStorage mount]. rewrite Hg, Hr. reflexivity.
  - intros k Hk.
    assert (Hreset : items (localStorage
                       (resetCorrupted T key initialValue (mount T initialValue storage))) k
                     = items storage k).
    { unfold resetCorrupted. cbn [localStorage mount].
      destruct (removeItem storage key) as [e|storage'] eqn:Hr; [reflexivity|].
      cbn [localStorage]. apply (removeItem_frame key _ _ Hr), Hk. }
    unfold useLocalStorage, loadEffect. cbn [localStorage mount].
    destruct (getItem storage key) as [e|[item|]]; [exact Hreset| |reflexivity].
    destruct (isEmpty item); cbn [negb]; [reflexivity|].
    destruct (JSON_parse item); [reflexivity | exact Hreset].
Qed.

Lemma load_outcomes_witness :
  useLocalStorage Z Spec.parseNumber "k" 0 (Spec.storeWith "k" "15")
  = {| storedValue := 15; error := None; localStorage := Spec.storeWith "k" "15" |}.
Proof.
  exact (proj1 (load_outcomes Z Spec.parseNumber "k" 0 (Spec.storeWith "k" "15"))
           "15" 15 eq_refl ltac:(discriminate) eq_refl).
Defined.

(** X22. A write changes nothing in the store but the item under its own
    key, and it reports no error exactly when the value could be serialized
    and the store accepted the text; a write that fails leaves every item
    as it was. *)
Theorem write_touches_only_its_key :
  forall (T : Type) (JSON_stringify : T -> Thrown + string) (key : string)
         (value : T) (h : Hook T),
    (forall k, k <> key ->
       items (localStorage (setValue T JSON_stringify key value h)) k
       = items (localStorage h) k)
    /\ (error (setValue T JSON_stringify key value h) = None
        <-> exists text storage',
              JSON_stringify value = inr text
              /\ setItem (localStorage h) key text = inr storage')
    /\ (error (setValue T JSON_stringify key value h) <> None ->
        localStorage (setValue T JSON_stringify key value h) = localStorage h).
Proof.
  intros T JSON_stringify key value h. unfold setValue. cbv zeta.
  cbn [localStorage].
  destruct (JSON_stringify value) as [err|text] eqn:Hs.
  - cbn [localStorage error]. split; [reflexivity|]. split; [|reflexivity].
    split; [discriminate | intros (text & storage' & H & _); discriminate].
  - destruct (setItem (localStorage h) key text) as [err|storage'] eqn:Hw;
      cbn [localStorage error].
    + split; [reflexivity|]. split; [|reflexivity].
      split; [discriminate|].
      intros (text' & storage' & [= <-] & H). congruence.
    + split; [apply (setItem_frame key _ _ _ Hw)|]. split.
      * split; [intros _; exists text, storage'; auto | reflexivity].
      * intros H. destruct (H eq_refl).
Qed.

Lemma write_touches_only_its_key_witness :
  items (localStorage (setValue Z Spec.stringifyNumber "k" 7
                         (mount Z 0 (Spec.storeWith "other" "1")))) "other"
  = Some "1".
Proof.
  exact (proj1 (write_touches_only_its_key Z Spec.stringifyNumber "k" 7
                  (mount Z 0 (Spec.storeWith "other" "1")))
           "other" ltac:(discriminate)).
Defined.

End StorageExtras.

(** ** Toasts *)

Module ToastExtras.
Import JsString Toast.
Local Open Scope list_scope.

Lemma dismiss_fresh {Handler : Type} (toasts : list (ToastMessage Handler)) toastId :
  existsb (fun toast => (id toast =? toastId)%string) toasts = false ->
  dismissToast Handler toastId toasts = toasts.
Proof.
  unfold dismissToast. induction toasts as [|t rest IH]; [reflexivity|].
  simpl. destruct (id t =? toastId)%string; [discriminate|].
  simpl. intros H. rewrite (IH H). reflexivity.
Qed.

(** X23. Adding a toast appends it, under the id it returns, after the
    toasts already shown; dismissing that id again gives back the list as
    it was, provided no earlier toast had the same id.  Dismissing removes
    every toast of the id and keeps the others in order. *)
Theorem toast_added_then_dismissed :
  forall (Handler : Type) msg ty options newId (toasts : list (ToastMessage Handler)),
    (exists toast,
       addToast Handler msg ty options newId toasts = (newId, toasts ++ [toast])
       /\ id toast = newId /\ message toast = msg)
    /\ (existsb (fun toast => (id toast =? newId)%string) toasts = false ->
        dismissToast Handler newId (snd (addToast Handler msg ty options newId toasts))
        = toasts)
    /\ (forall toastId,
          existsb (fun toast => (id toast =? toastId)%string)
            (dismissToast Handler toastId toasts) = false).
Proof.
  intros Handler msg ty options newId toasts. split; [|split].
  - eexists. split; [reflexivity|]. split; reflexivity.
  - intros Hfresh. unfold addToast. cbn [snd]. unfold dismissToast.
    rewrite filter_app. fold (dismissToast Handler newId toasts).
    rewrite (dismiss_fresh toasts newId Hfresh). simpl.
    rewrite String.eqb_refl. simpl. apply app_nil_r.
  - intros toastId. unfold dismissToast.
    induction toasts as [|t rest IH]; [reflexivity|].
    simpl. destruct (id t =? toastId)%string eqn:E; simpl; [exact IH|].
    rewrite E. exact IH.
Qed.

Lemma toast_added_then_dismissed_witness :
  dismissToast unit "t1" (snd (addToast unit "Saved" None None "t1" [])) = [].
Proof.
  exact (proj1 (proj2 (toast_added_then_dismissed unit "Saved" None None "t1" []))
           eq_refl).
Defined.

(** X24. Every message the storage hook can report gets its toast.  A
    failed write reports one of four messages and a failed load one of two;
    [showStorageError] appends exactly one toast for any message: for the
    quota message an error toast of 10000 ms with the action Clear Data,
    for the corrupted-data message and for both access messages a warning
    of 8000 ms, and for the two remaining messages an error toast of 6000 ms
    that shows the message itself.  The duration given always replaces the
    default of [showError] and [showWarning]. *)
Theorem storage_errors_become_toasts :
  forall (Handler : Type) (clearData : Handler) newId (toasts : list (ToastMessage Handler)),
    (forall (T : Type) (JSON_stringify : T -> LocalStorage.Thrown + string) key value h e,
       LocalStorage.error (LocalStorage.setValue T JSON_stringify key value h) = Some e ->
       In e [Spec.quotaExceeded; Spec.accessDenied; Spec.genericFailure;
             Spec.unknownFailure])
    /\ (forall (T : Type) (JSON_parse : string -> option T) key initialValue storage e,
          LocalStorage.error
            (LocalStorage.useLocalStorage T JSON_parse key initialValue storage) = Some e ->
          In e [Spec.corrupted; Spec.inaccessible])
    /\ (forall err, exists toast,
          showStorageError Handler clearData err newId toasts = (newId, toasts ++ [toast])
          /\ id toast = newId)
    /\ showStorageError Handler clearData Spec.quotaExceeded newId toasts
       = (newId, toasts ++
            [ {| id := newId;
                 message := "Storage is full. Some data may not be saved.";
                 type := error; duration := Some 10000;
                 action := Some {| label := "Clear Data"; onClick := clearData |} |} ])
    /\ showStorageError Handler clearData Spec.corrupted newId toasts
       = (newId, toasts ++
            [ {| id := newId;
                 message := "Your saved data was corrupted and has been reset.";
                 type := warning; duration := Some 8000; action := None |} ])
    /\ (forall e, e = Spec.accessDenied \/ e = Spec.inaccessible ->
          showStorageError Handler clearData e newId toasts
          = (newId, toasts ++
               [ {| id := newId;
                    message := "Cannot access storage. Your tasks will not be saved.";
                    type := warning; duration := Some 8000; action := None |} ]))
    /\ (forall e, e = Spec.genericFailure \/ e = Spec.unknownFailure ->
          showStorageError Handler clearData e newId toasts
          = (newId, toasts ++
               [ {| id := newId; message := e; type := error;
                    duration := Some 6000; action := None |} ])).
Proof.
  intros Handler clearData newId toasts.
  split; [|split; [|split; [|split; [|split; [|split]]]]].
  - intros T JSON_stringify key value h e. unfold LocalStorage.setValue. cbv zeta.
    assert (Hmsg : forall err,
              In (LocalStorage.saveErrorMessage err)
                 [Spec.quotaExceeded; Spec.accessDenied; Spec.genericFailure;
                  Spec.unknownFailure]).
    { intros [name msg|]; simpl; [|tauto].
      destruct ((name =? "QuotaExceededError")%string || includes msg "quota");
        [tauto|].
      destruct (includes msg "access"); tauto. }
    destruct (JSON_stringify value) as [err|text].
    + cbn [LocalStorage.error]. intros [= <-]. apply Hmsg.
    + destruct (LocalStorage.setItem _ key text) as [err|storage'];
        cbn [LocalStorage.error]; [|discriminate].
      intros [= <-]. apply Hmsg.
  - intros T JSON_parse key initialValue storage e.
    unfold LocalStorage.useLocalStorage, LocalStorage.loadEffect.
    cbn [LocalStorage.localStorage LocalStorage.mount].
    assert (Hreset :
              LocalStorage.error
                (LocalStorage.resetCorrupted T key initialValue
                   (LocalStorage.mount T initialValue storage)) = Some e ->
              In e [Spec.corrupted; Spec.inaccessible]).
    { unfold LocalStorage.resetCorrupted.
      destruct (LocalStorage.removeItem _ key); cbn [LocalStorage.error];
        intros [= <-]; simpl; tauto. }
    destruct (LocalStorage.getItem storage key) as [err|[item|]];
      [exact Hreset| |discriminate].
    destruct (isEmpty item); cbn [negb]; [discriminate|].
    destruct (JSON_parse item); [discriminate | exact Hreset].
  - intros err. unfold showStorageError, showError, showWarning, addToast.
    destruct (includes err "quota"); [eexists; split; reflexivity|].
    destruct (includes err "corrupted"); [eexists; split; reflexivity|].
    destruct (includes err "access"); eexists; split; reflexivity.
  - reflexivity.
  - reflexivity.
  - intros e [->| ->]; reflexivity.
  - intros e [->| ->]; reflexivity.
Qed.

Lemma storage_errors_become_toasts_witness :
  In Spec.quotaExceeded
     [Spec.quotaExceeded; Spec.accessDenied; Spec.genericFailure; Spec.unknownFailure].
Proof.
  exact (proj1 (storage_errors_become_toasts unit tt "t1" [])
           Z Spec.stringifyNumber "k" 7
           (LocalStorage.mount Z 0
              (Spec.failingWrites
                 (LocalStorage.ErrorObject "QuotaExceededError" "full")))
           Spec.quotaExceeded eq_refl).
Defined.

End ToastExtras.
